(** * myncer: sync orchestration and song reconciliation

    A shallow embedding of the Go sources of the repository
    (matching/text_cleaner.go, matching/song_matcher.go,
    sync_engine/sync_engine_impl.go, core/sync_status_broadcaster.go,
    rpc_handlers/create_sync.go) and the properties its specification
    states about them. *)

From Stdlib Require Import ZArith NArith List Bool Lia Floats Uint63.
From stdpp Require Import gmap strings list pretty sorting.

Set Default Proof Using "Type".
Set Warnings "-inexact-float,-clear-no-such-hyp".
Local Open Scope N_scope.

(** ** Go strings as rune sequences

    A Go [string] is read through its UTF-8 decoding: a list of code
    points.  [strings.ToLower], the [regexp] package, [strings.Fields]
    and [fuzzy.LevenshteinDistance] all work rune by rune (an invalid
    byte decodes to U+FFFD). *)

Definition rune := N.
Definition text := list rune.

Definition runes (s : string) : text :=
  map Ascii.N_of_ascii (String.list_ascii_of_string s).

Definition rune1 (s : string) : rune :=
  match runes s with
  | c :: _ => c
  | [] => 0
  end.

(** [len(s)]: the number of bytes of the UTF-8 encoding. *)
Definition utf8_width (r : rune) : nat :=
  if r <? 128 then 1%nat
  else if r <? 2048 then 2%nat
  else if r <? 65536 then 3%nat
  else 4%nat.

Definition len (s : text) : nat :=
  fold_right (fun r n => (utf8_width r + n)%nat) 0%nat s.

(** [unicode.IsSpace]: the White_Space property. *)
Definition unicode_IsSpace (r : rune) : bool :=
  ((9 <=? r) && (r <=? 13)) || (r =? 32) || (r =? 133) || (r =? 160)
  || (r =? 5760) || ((8192 <=? r) && (r <=? 8202))
  || (r =? 8232) || (r =? 8233) || (r =? 8239) || (r =? 8287)
  || (r =? 12288).

(** [strings.Join] and [strings.Fields]. *)
Fixpoint Join (elems : list text) (sep : text) : text :=
  match elems with
  | [] => []
  | [e] => e
  | e :: rest => e ++ sep ++ Join rest sep
  end.

Fixpoint fieldsFrom (word : text) (s : text) : list text :=
  match s with
  | [] => match word with [] => [] | _ => [rev word] end
  | x :: s' =>
      if unicode_IsSpace x
      then match word with
           | [] => fieldsFrom [] s'
           | _ => rev word :: fieldsFrom [] s'
           end
      else fieldsFrom (x :: word) s'
  end.

Definition Fields (s : text) : list text := fieldsFrom [] s.

(** [float64(n)] of an [int] that is a length or a count. *)
Definition float64 (n : nat) : float :=
  PrimFloat.of_uint63 (Uint63.of_Z (Z.of_nat n)).

(** ** Package core: the types the engine shares

    The declarations of package [core] and of the generated protobuf
    package are not among the sources; the records below carry the fields
    the code reads and writes. *)

Inductive Datasource : Type :=
| DATASOURCE_UNSPECIFIED
| DATASOURCE_SPOTIFY
| DATASOURCE_YOUTUBE
| DATASOURCE_TIDAL.

Global Instance Datasource_eq_dec : EqDecision Datasource.
Proof. solve_decision. Defined.

(** [core.Song], with the getters as fields. *)
Record Song : Type := mkSong {
  GetName : text;
  GetArtistNames : list text;
  GetAlbum : text;
  GetIsrc : text;                 (* GetSpec().GetIsrc() *)
  GetDatasource : Datasource;
  GetDatasourceSongId : text;
}.

Global Instance Song_eq_dec : EqDecision Song.
Proof. solve_decision. Defined.

(** Go's [error] values, built by [core.NewError] and [core.WrappedError]. *)
Inductive error : Type :=
| NewError (msg : string)
| WrappedError (cause : error) (msg : string).

(** The messages of the generated package [myncer_pb] that the engine
    handles. *)
Inductive SyncStatus : Type :=
| SYNC_STATUS_UNSPECIFIED
| SYNC_STATUS_PENDING
| SYNC_STATUS_RUNNING
| SYNC_STATUS_COMPLETED
| SYNC_STATUS_FAILED
| SYNC_STATUS_CANCELLED.

Global Instance SyncStatus_eq_dec : EqDecision SyncStatus.
Proof. solve_decision. Defined.

Record SyncRun : Type := mkSyncRun {
  GetSyncId : text;
  GetRunId : text;
  GetSyncStatus : SyncStatus;
  GetUpdatedAt : nat;             (* assigned by the store; 0 until stored *)
  GetUnmatchedSongs : list Song;
}.

Global Instance SyncRun_eq_dec : EqDecision SyncRun.
Proof. solve_decision. Defined.

Definition withStatus (st : SyncStatus) (run : SyncRun) : SyncRun :=
  {| GetSyncId := GetSyncId run; GetRunId := GetRunId run;
     GetSyncStatus := st; GetUpdatedAt := GetUpdatedAt run;
     GetUnmatchedSongs := GetUnmatchedSongs run |}.

Record MusicSource : Type := mkMusicSource {
  MS_Datasource : Datasource;
  MS_PlaylistId : text;
}.

Global Instance MusicSource_eq_dec : EqDecision MusicSource.
Proof. solve_decision. Defined.

Record OneWaySync : Type := mkOneWaySync {
  OWS_Source : MusicSource;
  OWS_Destination : MusicSource;
  OWS_OverwriteExisting : bool;
}.

Record PlaylistMergeSync : Type := mkPlaylistMergeSync {
  PMS_Sources : list MusicSource;
  PMS_Destination : MusicSource;
  PMS_OverwriteExisting : bool;
}.

(** The one-of [sync_variant]; [Sync_Unset] is the nil variant. *)
Inductive SyncVariant : Type :=
| Sync_OneWaySync (v : OneWaySync)
| Sync_PlaylistMergeSync (v : PlaylistMergeSync)
| Sync_Unset.

Record Sync : Type := mkSync {
  GetId : text;
  GetUserId : text;
  GetSyncVariant : SyncVariant;
}.

Record User : Type := mkUser { User_GetId : text }.

(** ** The regexp engine (package [regexp], RE2 syntax)

    Only the constructs the four patterns of text_cleaner.go use.
    Matching is leftmost-first: among the matches that start at the
    leftmost possible position, the one a backtracking search finds
    first. *)

Module Regexp.

Inductive regex : Type :=
| Eps
| Lit (c : rune)                 (* a literal rune *)
| LitI (c : rune)                (* a literal letter under the flag (?i) *)
| Dot                            (* [.]: any rune but a newline *)
| CharSet (negated : bool) (ranges : list (rune * rune))
| Seq (r1 r2 : regex)
| Alt (r1 r2 : regex)
| Opt (r : regex)                (* [r?] *)
| Star (greedy : bool) (r : regex). (* [r*] and [r*?] *)

Definition Plus (r : regex) : regex := Seq r (Star true r).

Definition seqs (rs : list regex) : regex := fold_right Seq Eps rs.

Definition alts (r : regex) (rs : list regex) : regex :=
  fold_left Alt rs r.

(** A word, letter by letter, under (?i). *)
Definition wordI (s : string) : regex := seqs (map LitI (runes s)).

(** Simple case folding of an ASCII letter: its two cases, and the two
    letters that have a third form (U+017F for s, U+212A for k). *)
Definition fold_eq (c x : rune) : bool :=
  (x =? c)
  || ((97 <=? c) && (c <=? 122) && (x =? c - 32))
  || ((65 <=? c) && (c <=? 90) && (x =? c + 32))
  || (((c =? 115) || (c =? 83)) && (x =? 383))
  || (((c =? 107) || (c =? 75)) && (x =? 8490)).

Definition in_ranges (ranges : list (rune * rune)) (x : rune) : bool :=
  existsb (fun lh => (fst lh <=? x) && (x <=? snd lh)) ranges.

Definition in_set (negated : bool) (ranges : list (rune * rune)) (x : rune) : bool :=
  xorb negated (in_ranges ranges x).

Definition accept1 {A} (p : rune -> bool) (s : text) (k : text -> option A) : option A :=
  match s with
  | x :: s' => if p x then k s' else None
  | [] => None
  end.

Definition orElse {A} (a b : option A) : option A :=
  match a with
  | Some x => Some x
  | None => b
  end.

(** One star: [step] matches the starred expression once.  An
    iteration has to consume input; the greedy star tries one more
    iteration first, the lazy one tries the rest first. *)
Definition starLoop {A} (step : text -> (text -> option A) -> option A)
    (greedy : bool) (k : text -> option A) : nat -> text -> option A :=
  fix loop (n : nat) (s : text) {struct n} : option A :=
    let again :=
      match n with
      | O => None
      | S n' =>
          step s (fun s' => if (length s' <? length s)%nat then loop n' s' else None)
      end in
    if greedy then orElse again (k s) else orElse (k s) again.

(** The backtracking matcher, in continuation-passing style: [k] is
    what has to match after [r]. *)
Fixpoint matchK {A} (r : regex) (s : text) (k : text -> option A) : option A :=
  match r with
  | Eps => k s
  | Lit c => accept1 (N.eqb c) s k
  | LitI c => accept1 (fold_eq c) s k
  | Dot => accept1 (fun x => negb (x =? 10)) s k
  | CharSet negated ranges => accept1 (in_set negated ranges) s k
  | Seq r1 r2 => matchK r1 s (fun s' => matchK r2 s' k)
  | Alt r1 r2 => orElse (matchK r1 s k) (matchK r2 s k)
  | Opt r1 => orElse (matchK r1 s k) (k s)
  | Star greedy r1 => starLoop (fun s' k' => matchK r1 s' k') greedy k (length s) s
  end.

(** The match of [r] that starts at the head of [s]: what is left of
    [s] after it. *)
Definition matchAt (r : regex) (s : text) : option text := matchK r s Some.

(** [Regexp.ReplaceAllString] with a replacement that has no [$]
    reference.  [afterMatch] tells that the previous match ended here:
    an empty match right after a match is not replaced. *)
Fixpoint replaceAll (fuel : nat) (r : regex) (repl : text)
    (afterMatch : bool) (s : text) : text :=
  match fuel with
  | O => s
  | S fuel' =>
      let copy1 :=
        match s with
        | [] => []
        | x :: s' => x :: replaceAll fuel' r repl false s'
        end in
      match matchAt r s with
      | Some rest =>
          if (length rest <? length s)%nat
          then repl ++ replaceAll fuel' r repl true rest
          else (if afterMatch then [] else repl) ++ copy1
      | None => copy1
      end
  end.

Definition ReplaceAllString (r : regex) (src repl : text) : text :=
  replaceAll (S (length src)) r repl false src.

(** Two list functions that describe what a pattern [[...]+] does: the
    run of runes of the class at the head of [s] skipped, and every run
    of [s] replaced by [repl] ([inRun]: the head continues a run). *)
Fixpoint skip (p : rune -> bool) (s : text) : text :=
  match s with
  | x :: s' => if p x then skip p s' else s
  | [] => []
  end.

Fixpoint squeeze (p : rune -> bool) (repl : text) (inRun : bool) (s : text) : text :=
  match s with
  | [] => []
  | x :: s' =>
      if p x
      then (if inRun then squeeze p repl true s' else repl ++ squeeze p repl true s')
      else x :: squeeze p repl false s'
  end.

End Regexp.

(** ** Package matching: text_cleaner.go *)

Module Matching.
Import Regexp.

(** The character classes of the patterns. *)
Definition class_s : list (rune * rune) := [(9, 10); (12, 13); (32, 32)].
Definition ws : regex := CharSet false class_s.
Definition notOf (s : string) : regex :=
  CharSet true (map (fun c => (c, c)) (runes s)).
Definition oneOf (s : string) : regex :=
  CharSet false (map (fun c => (c, c)) (runes s)).

(** [(?i)\[\s*(feat|ft)\.?\s*[^\]]+\]|\(\s*(feat|ft)\.?\s*[^)]+\)] *)
Definition featBody (close : string) : regex :=
  seqs [Star true ws; Alt (wordI "feat") (wordI "ft"); Opt (Lit (rune1 "."));
        Star true ws; Plus (notOf close); Lit (rune1 close)].

Definition featRegex : regex :=
  Alt (Seq (Lit (rune1 "[")) (featBody "]"))
      (Seq (Lit (rune1 "(")) (featBody ")")).

(** [(?i)[\(\[].*?(remix|edit|live|version|explicit|clean|instrumental|deluxe|mastered).*?[\)\]]] *)
Definition tagsRegex : regex :=
  Seq (oneOf "([")
    (seqs [Star false Dot;
           alts (wordI "remix")
             [wordI "edit"; wordI "live"; wordI "version"; wordI "explicit";
              wordI "clean"; wordI "instrumental"; wordI "deluxe"; wordI "mastered"];
           Star false Dot;
           oneOf ")]"]).

(** [[^a-z0-9\s]+] *)
Definition alnum_s : list (rune * rune) := (97, 122) :: (48, 57) :: class_s.
Definition nonAlphanumericRegex : regex := Plus (CharSet true alnum_s).

(** [\s+] *)
Definition extraWhitespaceRegex : regex := Plus ws.

(** [unicode.ToLower] on ASCII; beyond ASCII it reads the case tables
    of package [unicode], a parameter here. *)
Definition unicode_ToLower (lowerTable : rune -> rune) (r : rune) : rune :=
  if r <? 128
  then (if (65 <=? r) && (r <=? 90) then r + 32 else r)
  else lowerTable r.

(** [strings.TrimSpace]. *)
Fixpoint trimLeft (s : text) : text :=
  match s with
  | x :: s' => if unicode_IsSpace x then trimLeft s' else s
  | [] => []
  end.

Definition TrimSpace (s : text) : text := rev (trimLeft (rev (trimLeft s))).

Section Cleaner.

(** The Unicode data the cleaner reads from libraries outside the
    repository: the lower-case table, and the transformer
    [transform.Chain(norm.NFD, runes.Remove(runes.In(unicode.Mn)), norm.NFC)]
    of golang.org/x/text as a function on strings. *)
Variable lowerTable : rune -> rune.
Variable stripMarks : text -> text.

Definition ToLower (s : text) : text := map (unicode_ToLower lowerTable) s.

Definition Clean (s : text) : text :=
  (* 1. Convert to lowercase *)
  let s := ToLower s in
  (* 2. Remove diacritics *)
  let s := stripMarks s in
  (* 3. Remove "feat" and "ft" *)
  let s := ReplaceAllString featRegex s [] in
  (* 4. Remove other common tags *)
  let s := ReplaceAllString tagsRegex s [] in
  (* 5. Remove non-alphanumeric characters *)
  let s := ReplaceAllString nonAlphanumericRegex s (runes " ") in
  (* 6. Collapse whitespace *)
  let s := ReplaceAllString extraWhitespaceRegex s (runes " ") in
  (* 7. Trim leading and trailing spaces *)
  TrimSpace s.

End Cleaner.

(** What a cleaned string looks like: lower-case ASCII letters, digits
    and single spaces, none at either end. *)
Definition isAlnum (x : rune) : bool :=
  ((97 <=? x) && (x <=? 122)) || ((48 <=? x) && (x <=? 57)).

Definition cleanRune (x : rune) : bool := isAlnum x || (x =? 32).

(** No two spaces in a row ([afterSpace]: a space precedes the head). *)
Fixpoint singleSpaced (afterSpace : bool) (s : text) : bool :=
  match s with
  | [] => true
  | x :: s' =>
      if x =? 32 then negb afterSpace && singleSpaced true s'
      else singleSpaced false s'
  end.

Definition noSpaceAtHead (s : text) : bool :=
  match s with
  | x :: _ => negb (x =? 32)
  | [] => true
  end.

Definition cleaned (s : text) : Prop :=
  Forall (fun x => cleanRune x = true) s
  /\ singleSpaced false s = true
  /\ noSpaceAtHead s = true
  /\ noSpaceAtHead (rev s) = true.

(** A stand-in for the Unicode data, to run the cleaner on examples.
    It follows the libraries on ASCII, on the letters of Latin-1 and on
    the combining marks U+0300 to U+036F: a capital letter of Latin-1
    becomes small, a letter of Latin-1 that decomposes to a letter and
    marks is replaced by that letter, and a combining mark is dropped. *)
Definition sampleLowerTable (r : rune) : rune :=
  if ((192 <=? r) && (r <=? 214)) || ((216 <=? r) && (r <=? 222)) then r + 32 else r.

Definition latin1Bases : list (rune * rune * rune) :=
  [(192, 197, 65); (199, 199, 67); (200, 203, 69); (204, 207, 73);
   (209, 209, 78); (210, 214, 79); (217, 220, 85); (221, 221, 89);
   (224, 229, 97); (231, 231, 99); (232, 235, 101); (236, 239, 105);
   (241, 241, 110); (242, 246, 111); (249, 252, 117); (253, 253, 121);
   (255, 255, 121)].

Definition latin1Base (r : rune) : rune :=
  match List.find (fun '(lo, hi, _) => (lo <=? r) && (r <=? hi)) latin1Bases with
  | Some (_, _, base) => base
  | None => r
  end.

Definition sampleStripMarks (s : text) : text :=
  map latin1Base (List.filter (fun r => negb ((768 <=? r) && (r <=? 879))) s).

(** *** song_matcher.go: the two component scores *)

(** [fuzzy.LevenshteinDistance] of github.com/lithammer/fuzzysearch: the
    edit distance between the rune sequences (insertion, deletion and
    substitution cost one), by the recurrence its table evaluates; as a
    plain recursion it runs in reasonable time on short strings only. *)
Fixpoint LevenshteinDistance (s : text) : text -> nat :=
  fix inner (t : text) : nat :=
    match s, t with
    | [], _ => length t
    | _, [] => length s
    | a :: s', b :: t' =>
        Nat.min (Nat.min (LevenshteinDistance s' t + 1) (inner t' + 1))
                (LevenshteinDistance s' t' + (if (a =? b)%N then 0 else 1))
    end%nat.

(** normalizedLevenshtein converts an absolute Levenshtein distance into
    a similarity ratio from 0.0 to 100.0.  [math.Max] of the two converted
    lengths is the conversion of the larger one (the conversion is
    monotone). *)
Definition normalizedLevenshtein (s1 s2 : text) : float :=
  let distance := LevenshteinDistance s1 s2 in
  let maxLen := float64 (Nat.max (len s1) (len s2)) in
  if (maxLen =? 0)%float then 100%float
  else ((1 - (float64 distance / maxLen)) * 100)%float.

(** [core.Set[string]] is a finite set of strings. *)
Definition ToSet (l : list text) : gset text := list_to_set l.
Definition IsEmpty (X : gset text) : bool := bool_decide (X = ∅).

(** tokenSetRatio calculates similarity based on the intersection and
    union of word sets. *)
Definition tokenSetRatio (s1 s2 : text) : float :=
  let words1 := ToSet (Fields s1) in
  let words2 := ToSet (Fields s2) in
  if IsEmpty words1 && IsEmpty words2 then 100%float
  else if IsEmpty words1 || IsEmpty words2 then 0%float
  else
    let intersection : gset text := filter (fun word => word ∈ words2) words1 in
    let union : gset text := words1 ∪ words2 in
    ((float64 (size intersection) / float64 (size union)) * 100)%float.

Section Scores.

Variable lowerTable : rune -> rune.
Variable stripMarks : text -> text.

Local Abbreviation Clean := (Clean lowerTable stripMarks).

(** The exact identifier check (ISRC). *)
Definition sameIsrc (songA songB : Song) : bool :=
  let isrcA := GetIsrc songA in
  let isrcB := GetIsrc songB in
  bool_decide (isrcA <> []) && bool_decide (isrcA = isrcB).

Definition titleScore (songA songB : Song) : float :=
  normalizedLevenshtein (Clean (GetName songA)) (Clean (GetName songB)).

Definition artistScore (songA songB : Song) : float :=
  let artistA := Join (GetArtistNames songA) (runes " ") in
  let artistB := Join (GetArtistNames songB) (runes " ") in
  tokenSetRatio (Clean artistA) (Clean artistB).

Definition albumScore (songA songB : Song) : float :=
  normalizedLevenshtein (Clean (GetAlbum songA)) (Clean (GetAlbum songB)).

(** The fixed weighted sum of the specification: 45% title, 45% artist,
    10% album. *)
Definition weightedSum (title artist album : float) : float :=
  ((title * 0.45) + (artist * 0.45) + (album * 0.10))%float.

(** The words of the cleaned, space-joined artist list of a song. *)
Definition artistWords (song : Song) : list text :=
  Fields (Clean (Join (GetArtistNames song) (runes " "))).

End Scores.

(** One turn of the loop of DeduplicateSongs, for a duplicate test
    [dup]: the song joins the unique ones unless it duplicates one. *)
Definition keepUnique (dup : Song -> Song -> bool) (uniqueSongs : list Song)
    (song : Song) : list Song :=
  if negb (existsb (fun uniqueSong => dup song uniqueSong) uniqueSongs)
  then uniqueSongs ++ [song] else uniqueSongs.

(** No song of the list duplicates a song before it. *)
Definition noDuplicates (dup : Song -> Song -> bool) (l : list Song) : Prop :=
  forall pre s post, l = pre ++ s :: post -> forall u, u ∈ pre -> dup s u = false.

(** *** song_matcher.go, the revision of unnamed/part_000 *)

Module Weighted.
Section Weighted.

Variable lowerTable : rune -> rune.
Variable stripMarks : text -> text.

Definition CalculateSimilarity (songA songB : Song) : float :=
  (* 1. Exact identifier check (ISRC). *)
  if sameIsrc songA songB then 100%float
  else
    (* 2. Weighted fuzzy matching on clean metadata. *)
    let titleScore := titleScore lowerTable stripMarks songA songB in
    let artistScore := artistScore lowerTable stripMarks songA songB in
    let albumScore := albumScore lowerTable stripMarks songA songB in
    (* Weighting: 45% title, 45% artist, 10% album. *)
    ((titleScore * 0.45) + (artistScore * 0.45) + (albumScore * 0.10))%float.

(** [CalculateSimilarity(songA, songB) >= threshold] *)
Definition AreDuplicates (songA songB : Song) (threshold : float) : bool :=
  (threshold <=? CalculateSimilarity songA songB)%float.

Definition DeduplicateSongs (songs : list Song) (threshold : float)
    : list Song * option error :=
  let uniqueSongs :=
    fold_left
      (fun uniqueSongs song =>
         let isDuplicate :=
           existsb (fun uniqueSong => AreDuplicates song uniqueSong threshold)
                   uniqueSongs in
         if negb isDuplicate then uniqueSongs ++ [song] else uniqueSongs)
      songs [] in
  (uniqueSongs, None).

End Weighted.
End Weighted.

(** *** server/matching/song_matcher.go *)

Module Penalised.
Section Penalised.

Variable lowerTable : rune -> rune.
Variable stripMarks : text -> text.

(** This revision tests [albumA] and [albumB], which it does not
    declare: they stand for an album text of each song. *)
Variable albumOf : Song -> text.

Definition CalculateSimilarity (songA songB : Song) : float :=
  if sameIsrc songA songB then 100%float
  else
    let titleScore := titleScore lowerTable stripMarks songA songB in
    let artistScore := artistScore lowerTable stripMarks songA songB in
    let albumScore := albumScore lowerTable stripMarks songA songB in
    let albumA := albumOf songA in
    let albumB := albumOf songB in
    (* Heavily penalize the score if artist similarity is low. *)
    if (artistScore <? 50)%float then (artistScore * 0.5)%float
    else
      (* If albums are present in both songs but don't match, reduce the
         importance of title. *)
      let titleWeight :=
        if bool_decide (albumA <> []) && bool_decide (albumB <> [])
           && (albumScore <? 70)%float
        then 0.30%float else 0.45%float in
      let artistWeight := 0.45%float in
      let albumWeight := 0.10%float in
      ((titleScore * titleWeight) + (artistScore * artistWeight)
       + (albumScore * albumWeight))%float.

Definition AreDuplicates (songA songB : Song) (threshold : float) : bool :=
  (threshold <=? CalculateSimilarity songA songB)%float.

Definition DeduplicateSongs (songs : list Song) (threshold : float)
    : list Song * option error :=
  let uniqueSongs :=
    fold_left
      (fun uniqueSongs song =>
         let isDuplicate :=
           existsb (fun uniqueSong => AreDuplicates song uniqueSong threshold)
                   uniqueSongs in
         if negb isDuplicate then uniqueSongs ++ [song] else uniqueSongs)
      songs [] in
  (uniqueSongs, None).

End Penalised.
End Penalised.

End Matching.

(** ** Package core: sync_status_broadcaster.go

    A channel is a reference: the broadcaster's state holds the channels
    made so far by address, and the registry lists addresses.  One call
    is one step on this state (the calls hold the broadcaster's lock). *)

Module Broadcaster.

(** A buffered [chan *myncer_pb.SyncRun].  The channel carries pointers:
    the buffer holds each run as it is when it is sent, and an
    assignment that the sender makes to a run after sending it is not
    followed here. *)
Record channel : Type := mkChannel {
  buffer : list SyncRun;
  capacity : nat;
  closed : bool;
}.

Record SyncStatusBroadcaster : Type := mkBroadcaster {
  channels : gmap nat channel;          (* the channels made, by address *)
  subscribers : gmap text (list nat);   (* syncId -> list of channels *)
}.

(** NewSyncStatusBroadcaster creates a new broadcaster instance. *)
Definition NewSyncStatusBroadcaster : SyncStatusBroadcaster :=
  {| channels := ∅; subscribers := ∅ |}.

(** Subscribe adds a new subscriber for sync status updates for a
    specific sync ID. *)
Definition Subscribe (b : SyncStatusBroadcaster) (syncId : text)
    : SyncStatusBroadcaster * nat :=
  let ch := fresh (dom (channels b)) in
  let registered := default [] (subscribers b !! syncId) in
  ({| channels := <[ch := mkChannel [] 10 false]> (channels b);
      subscribers := <[syncId := registered ++ [ch]]> (subscribers b) |},
   ch).

Fixpoint removeFirst (ch : nat) (l : list nat) : list nat :=
  match l with
  | [] => []
  | x :: l' => if bool_decide (x = ch) then l' else x :: removeFirst ch l'
  end.

(** [close(ch)]; closing a closed channel panics ([None]). *)
Definition closeChannel (ch : nat) (chans : gmap nat channel)
    : option (gmap nat channel) :=
  match chans !! ch with
  | Some c =>
      if closed c then None
      else Some (<[ch := mkChannel (buffer c) (capacity c) true]> chans)
  | None => None
  end.

(** Unsubscribe removes a subscriber channel. *)
Definition Unsubscribe (b : SyncStatusBroadcaster) (syncId : text) (ch : nat)
    : option SyncStatusBroadcaster :=
  let registered := default [] (subscribers b !! syncId) in
  b1 ← (if bool_decide (ch ∈ registered)
        then chans ← closeChannel ch (channels b);
             Some {| channels := chans;
                     subscribers := <[syncId := removeFirst ch registered]> (subscribers b) |}
        else Some b);
  (* Clean up empty sync ID entries *)
  if bool_decide (length (default [] (subscribers b1 !! syncId)) = 0%nat)
  then Some {| channels := channels b1; subscribers := delete syncId (subscribers b1) |}
  else Some b1.

(** [select { case ch <- syncRun: default: }]: the send goes through when
    the buffer has room, and is skipped otherwise; the flag tells that it
    was skipped.  A send on a closed channel panics ([None]). *)
Definition trySend (syncRun : SyncRun) (ch : nat) (chans : gmap nat channel)
    : option (gmap nat channel * bool) :=
  match chans !! ch with
  | Some c =>
      if closed c then None
      else if (length (buffer c) <? capacity c)%nat
      then Some (<[ch := mkChannel (buffer c ++ [syncRun]) (capacity c) false]> chans, false)
      else Some (chans, true)
  | None => Some (chans, true)   (* a nil channel is never ready *)
  end.

Fixpoint sendAll (syncRun : SyncRun) (chs : list nat) (chans : gmap nat channel)
    : option (gmap nat channel * list nat) :=
  match chs with
  | [] => Some (chans, [])
  | ch :: rest =>
      '(chans1, skipped) ← trySend syncRun ch chans;
      '(chans2, skippedRest) ← sendAll syncRun rest chans1;
      Some (chans2, if skipped : bool then ch :: skippedRest else skippedRest)
  end.

(** Broadcast sends a sync run update to all subscribers of that sync
    ID.  The result carries the channels it skipped with a warning. *)
Definition Broadcast (b : SyncStatusBroadcaster) (syncRun : SyncRun)
    : option (SyncStatusBroadcaster * list nat) :=
  let syncId := GetSyncId syncRun in
  match subscribers b !! syncId with
  | None => Some (b, [])
  | Some registered =>
      '(chans, skipped) ← sendAll syncRun registered (channels b);
      Some ({| channels := chans; subscribers := subscribers b |}, skipped)
  end.

(** Close closes all subscriber channels and cleans up. *)
Fixpoint closeAll (chs : list nat) (chans : gmap nat channel)
    : option (gmap nat channel) :=
  match chs with
  | [] => Some chans
  | ch :: rest => chans1 ← closeChannel ch chans; closeAll rest chans1
  end.

Definition Close (b : SyncStatusBroadcaster) : option SyncStatusBroadcaster :=
  chans ← closeAll (concat (map snd (map_to_list (subscribers b)))) (channels b);
  Some {| channels := chans; subscribers := ∅ |}.

(** What a send does to a channel that has room. *)
Definition hasRoom (c : channel) : bool := (length (buffer c) <? capacity c)%nat.

Definition deliver (syncRun : SyncRun) (c : channel) : channel :=
  mkChannel (buffer c ++ [syncRun]) (capacity c) false.

Definition registered (b : SyncStatusBroadcaster) (syncId : text) : list nat :=
  default [] (subscribers b !! syncId).

(** A subscriber takes the oldest update off its channel. *)
Definition Receive (b : SyncStatusBroadcaster) (ch : nat) : SyncStatusBroadcaster :=
  match channels b !! ch with
  | Some c =>
      {| channels := <[ch := mkChannel (tail (buffer c)) (capacity c) (closed c)]> (channels b);
         subscribers := subscribers b |}
  | None => b
  end.

(** The states of the broadcaster: what its constructor, its methods and
    the subscribers make of it. *)
Inductive reachable : SyncStatusBroadcaster -> Prop :=
| reach_new : reachable NewSyncStatusBroadcaster
| reach_subscribe b syncId :
    reachable b -> reachable (fst (Subscribe b syncId))
| reach_unsubscribe b syncId ch b' :
    reachable b -> Unsubscribe b syncId ch = Some b' -> reachable b'
| reach_broadcast b syncRun b' skipped :
    reachable b -> Broadcast b syncRun = Some (b', skipped) -> reachable b'
| reach_receive b ch :
    reachable b -> reachable (Receive b ch)
| reach_close b b' :
    reachable b -> Close b = Some b' -> reachable b'.

(** The invariant of the registry: a registered channel is open, and is
    registered once, under one sync id. *)
Definition wf (b : SyncStatusBroadcaster) : Prop :=
  (forall syncId chs, subscribers b !! syncId = Some chs ->
     NoDup chs
     /\ forall ch, ch ∈ chs -> exists c, channels b !! ch = Some c /\ closed c = false)
  /\ (forall id1 id2 chs1 chs2 ch,
        subscribers b !! id1 = Some chs1 -> subscribers b !! id2 = Some chs2 ->
        ch ∈ chs1 -> ch ∈ chs2 -> id1 = id2).

(** Every channel is the bounded one that Subscribe makes. *)
Definition boundedChannels (chans : gmap nat channel) : Prop :=
  forall ch c, chans !! ch = Some c ->
    capacity c = 10%nat /\ (length (buffer c) <= capacity c)%nat.

Definition bounded (b : SyncStatusBroadcaster) : Prop := boundedChannels (channels b).

(** The registry keeps no sync id without a subscriber. *)
Definition noEmptyEntry (b : SyncStatusBroadcaster) : Prop :=
  forall syncId chs, subscribers b !! syncId = Some chs -> chs <> [].

(** The channel with the same buffer, closed. *)
Definition closedChannel (c : channel) : channel :=
  mkChannel (buffer c) (capacity c) true.

(** Broadcasts in a row, no subscriber reading in between. *)
Fixpoint BroadcastAll (b : SyncStatusBroadcaster) (syncRuns : list SyncRun)
    : option SyncStatusBroadcaster :=
  match syncRuns with
  | [] => Some b
  | syncRun :: rest => '(b', _) ← Broadcast b syncRun; BroadcastAll b' rest
  end.

End Broadcaster.

(** ** Package sync_engine: sync_engine_impl.go

    The revision that stores and broadcasts PENDING, RUNNING and the
    final status (the third of unnamed/part_003). *)

Module SyncEngine.
Import Broadcaster.

(** What a call into a collaborator outside the engine does: it returns
    a value, returns an error, or panics. *)
Inductive outcome (A : Type) : Type :=
| Ok (a : A)
| Fail (e : error)
| Panics (msg : string).
Arguments Ok {A} a.
Arguments Fail {A} e.
Arguments Panics {A} msg.

(** The collaborators of one run, as the engine sees them through
    [MyncerCtx]: the result of each call it makes.  The writes and reads
    of the run store are numbered in the order the run makes them. *)
Record Env : Type := mkEnv {
  uuid_NewString : text;
  storeWriteErr : nat -> option error;     (* CreateSyncRun / UpdateSyncRun *)
  storeReadErr : nat -> option error;      (* GetSyncs *)
  LlmEnabled : bool;                       (* Config.GetLlmConfig().GetEnabled() *)
  NormalizeSongs : list Song -> outcome (list Song);
  GetPlaylistSongs : Datasource -> text -> outcome (list Song);
  GetIdByDatasource : Song -> Datasource -> outcome text;
  ClearPlaylist : Datasource -> text -> outcome unit;
  AddToPlaylist : Datasource -> text -> list Song -> outcome unit;
}.

(** What the run does to its collaborators, in order. *)
Inductive Event : Type :=
| EvCreateSyncRun (run : SyncRun) (err : option error)
| EvUpdateSyncRun (run : SyncRun) (err : option error)
| EvGetSyncs (runId : text) (found : option SyncRun)
| EvBroadcast (run : SyncRun) (skipped : list nat)
| EvGetPlaylistSongs (ds : Datasource) (playlistId : text)
| EvNormalizeSongs (songs : list Song)
| EvGetIdByDatasource (song : Song) (ds : Datasource)
| EvClearPlaylist (ds : Datasource) (playlistId : text)
| EvAddToPlaylist (ds : Datasource) (playlistId : text) (songs : list Song)
| EvLog (msg : string).

(** Modelled from the spec: the run store ([DB.SyncRunStore], whose
    implementation is not among the sources) is a keyed store of run
    records with create, update and query by run id; it assigns the
    timestamps.  [persisted] lists every status written to a row, oldest
    first. *)
Record World : Type := mkWorld {
  rows : gmap text SyncRun;
  clock : nat;
  persisted : list (text * SyncStatus);
  writes : nat;
  reads : nat;
  broadcaster : SyncStatusBroadcaster;
  trace : list Event;
}.

Inductive result (A : Type) : Type :=
| Ret (a : A)
| Panic (msg : string).
Arguments Ret {A} a.
Arguments Panic {A} msg.

(** Computations on the world that may panic. *)
Definition M (A : Type) : Type := World -> result A * World.

Definition ret {A} (a : A) : M A := fun w => (Ret a, w).

Definition bind {A B} (m : M A) (k : A -> M B) : M B :=
  fun w =>
    match m w with
    | (Ret a, w1) => k a w1
    | (Panic msg, w1) => (Panic msg, w1)
    end.

Definition panic {A} (msg : string) : M A := fun w => (Panic msg, w).

Definition emit (e : Event) : M unit :=
  fun w =>
    (Ret tt,
     {| rows := rows w; clock := clock w; persisted := persisted w;
        writes := writes w; reads := reads w;
        broadcaster := broadcaster w; trace := trace w ++ [e] |}).

Declare Scope engine_scope.
Delimit Scope engine_scope with engine.
Notation "'let!' x ':=' m 'in' k" := (bind m (fun x => k))
  (at level 10, x name, m at level 100, k at level 200) : engine_scope.
Local Open Scope engine_scope.

(** A call into a provider or the normalizer. *)
Definition call {A} (e : Event) (o : outcome A) : M (A + error) :=
  let! _ := emit e in
  match o with
  | Ok a => ret (inl a)
  | Fail err => ret (inr err)
  | Panics msg => panic msg
  end.

Definition stamped (run : SyncRun) (now : nat) : SyncRun :=
  {| GetSyncId := GetSyncId run; GetRunId := GetRunId run;
     GetSyncStatus := GetSyncStatus run; GetUpdatedAt := now;
     GetUnmatchedSongs := GetUnmatchedSongs run |}.

Section Engine.

Variable env : Env.

(** [SyncRunStore.CreateSyncRun]: a new row. *)
Definition CreateSyncRun (run : SyncRun) : M (option error) :=
  fun w =>
    let err := storeWriteErr env (writes w) in
    let written := match err with None => true | Some _ => false end in
    (Ret err,
     {| rows := if written then <[GetRunId run := stamped run (S (clock w))]> (rows w)
                else rows w;
        clock := S (clock w);
        persisted := if written
                     then persisted w ++ [(GetRunId run, GetSyncStatus run)]
                     else persisted w;
        writes := S (writes w); reads := reads w;
        broadcaster := broadcaster w;
        trace := trace w ++ [EvCreateSyncRun run err] |}).

(** [SyncRunStore.UpdateSyncRun]: the row of that run id, when there is
    one. *)
Definition UpdateSyncRun (run : SyncRun) : M (option error) :=
  fun w =>
    let err := storeWriteErr env (writes w) in
    let written :=
      match err, rows w !! GetRunId run with
      | None, Some _ => true
      | _, _ => false
      end in
    (Ret err,
     {| rows := if written then <[GetRunId run := stamped run (S (clock w))]> (rows w)
                else rows w;
        clock := S (clock w);
        persisted := if written
                     then persisted w ++ [(GetRunId run, GetSyncStatus run)]
                     else persisted w;
        writes := S (writes w); reads := reads w;
        broadcaster := broadcaster w;
        trace := trace w ++ [EvUpdateSyncRun run err] |}).

(** [SyncRunStore.GetSyncs(ctx, core.NewSet(runId), nil)]: the runs of
    that id, none or one. *)
Definition GetSyncs (runId : text) : M (list SyncRun + error) :=
  fun w =>
    let res : list SyncRun + error :=
      match storeReadErr env (reads w) with
      | Some err => inr err
      | None => inl (match rows w !! runId with Some run => [run] | None => [] end)
      end in
    (Ret res,
     {| rows := rows w; clock := clock w; persisted := persisted w;
        writes := writes w; reads := S (reads w);
        broadcaster := broadcaster w;
        trace := trace w ++ [EvGetSyncs runId (match res with inl (run :: _) => Some run | _ => None end)] |}).

(** [myncerCtx.SyncStatusBroadcaster.Broadcast(run)] *)
Definition BroadcastRun (run : SyncRun) : M unit :=
  fun w =>
    match Broadcast (broadcaster w) run with
    | None => (Panic "send on closed channel", w)
    | Some (b, skipped) =>
        (Ret tt,
         {| rows := rows w; clock := clock w; persisted := persisted w;
            writes := writes w; reads := reads w;
            broadcaster := b;
            trace := trace w ++ [EvBroadcast run skipped] |})
    end.

(** storeAndBroadcastSyncRun is a helper to centralize storing and
    broadcasting logic. *)
Definition storeAndBroadcastSyncRun (syncRun : SyncRun) (isCreate : bool)
    : M (option SyncRun * option error) :=
  let! err := (if isCreate then CreateSyncRun syncRun else UpdateSyncRun syncRun) in
  match err with
  | Some err =>
      ret (None,
           Some (WrappedError err
                   (if isCreate then "failed to create sync run in database"
                    else "failed to update sync run in database")))
  | None =>
      (* Always re-fetch from the database to get the latest state. *)
      let! runs := GetSyncs (GetRunId syncRun) in
      match runs with
      | inl (refreshedSyncRun :: _) =>
          let! _ := emit (EvLog "Broadcasting status") in
          let! _ := BroadcastRun refreshedSyncRun in
          ret (Some refreshedSyncRun, None)
      | _ =>
          let! _ := emit (EvLog "Failed to re-fetch sync run after store") in
          let! _ := BroadcastRun syncRun in
          ret (Some syncRun, None)
      end
  end.

Definition validateSync (sync : Sync) : option error :=
  match GetSyncVariant sync with
  | Sync_OneWaySync _ => None
  | Sync_PlaylistMergeSync _ => None
  | Sync_Unset => Some (NewError "unknown sync variant")
  end.

(** The client of a datasource is named by the datasource. *)
Definition getClient (datasource : Datasource) : Datasource + error :=
  match datasource with
  | DATASOURCE_SPOTIFY => inl DATASOURCE_SPOTIFY
  | DATASOURCE_YOUTUBE => inl DATASOURCE_YOUTUBE
  | DATASOURCE_TIDAL => inl DATASOURCE_TIDAL
  | DATASOURCE_UNSPECIFIED => inr (NewError "unsupported datasource")
  end.

(** [NewSong(&myncer_pb.Song{Name, ArtistName, AlbumName, DatasourceSongId})] *)
Definition NewSong (song : Song) (newDatasourceSongId : text) : Song :=
  {| GetName := GetName song;
     GetArtistNames := GetArtistNames song;
     GetAlbum := GetAlbum song;
     GetIsrc := [];
     GetDatasource := DATASOURCE_UNSPECIFIED;
     GetDatasourceSongId := newDatasourceSongId |}.

(** The loop of getSearchedSongs: [r] is the slice built so far. *)
Fixpoint searchSongs (songs : list Song) (datasource : Datasource) (r : list Song)
    : M (list Song) :=
  match songs with
  | [] => ret r
  | song :: rest =>
      let! found := call (EvGetIdByDatasource song datasource)
                      (GetIdByDatasource env song datasource) in
      match found with
      | inr err =>
          (* Just log the error and continue with the next song. *)
          let! _ := emit (EvLog "failed to get datasource ID for song") in
          searchSongs rest datasource r
      | inl newDatasourceSongId =>
          searchSongs rest datasource (r ++ [NewSong song newDatasourceSongId])
      end
  end.

Definition getSearchedSongs (userInfo : User) (songs : list Song)
    (datasource : Datasource) : M (list Song * option error) :=
  let! r := searchSongs songs datasource [] in
  ret (r, None).

Definition shouldNormalize : bool := LlmEnabled env.

Definition runOneWaySync (userInfo : User) (sync : OneWaySync) : M (option error) :=
  match getClient (MS_Datasource (OWS_Source sync)) with
  | inr err => ret (Some err)
  | inl sourceClient =>
  match getClient (MS_Datasource (OWS_Destination sync)) with
  | inr err => ret (Some err)
  | inl destClient =>
  (* Fetch songs from source playlist *)
  let! fetched := call (EvGetPlaylistSongs sourceClient (MS_PlaylistId (OWS_Source sync)))
                    (GetPlaylistSongs env sourceClient (MS_PlaylistId (OWS_Source sync))) in
  match fetched with
  | inr err => ret (Some (WrappedError err "failed to fetch source playlist"))
  | inl sourceSongs =>
  (* Normalize songs if supported. *)
  let! normalized :=
    (if shouldNormalize
     then call (EvNormalizeSongs sourceSongs) (NormalizeSongs env sourceSongs)
     else ret (inl sourceSongs)) in
  match normalized with
  | inr err => ret (Some (WrappedError err "failed to normalize songs"))
  | inl normalizedSongs =>
  let! searched := getSearchedSongs userInfo normalizedSongs
                     (MS_Datasource (OWS_Destination sync)) in
  match searched with
  | (_, Some err) =>
      ret (Some (WrappedError err "failed to get searched songs for destination datasource"))
  | (searchedSongs, None) =>
  (* Optionally clear destination playlist *)
  let destPlaylistId := MS_PlaylistId (OWS_Destination sync) in
  let! cleared :=
    (if OWS_OverwriteExisting sync
     then let! _ := emit (EvLog "Clearing destination playlist") in
          call (EvClearPlaylist destClient destPlaylistId)
            (ClearPlaylist env destClient destPlaylistId)
     else ret (inl tt)) in
  match cleared with
  | inr err => ret (Some (WrappedError err "failed to clear destination playlist"))
  | inl _ =>
  (* Add source songs to destination *)
  let! added := call (EvAddToPlaylist destClient destPlaylistId searchedSongs)
                  (AddToPlaylist env destClient destPlaylistId searchedSongs) in
  match added with
  | inr err => ret (Some (WrappedError err "failed to add songs to destination playlist"))
  | inl _ => ret None
  end end end end end end end.

(** [matching.DeduplicateSongs], of whichever revision of the package. *)
Variable DeduplicateSongs : list Song -> float -> list Song * option error.

(** 1. Collect songs from all sources: the loop, with [allSongs] so far. *)
Fixpoint collectSongs (sources : list MusicSource) (allSongs : list Song)
    : M (list Song + error) :=
  match sources with
  | [] => ret (inl allSongs)
  | source :: rest =>
      match getClient (MS_Datasource source) with
      | inr err => ret (inr (WrappedError err "failed to get source client for datasource"))
      | inl sourceClient =>
          let! fetched := call (EvGetPlaylistSongs sourceClient (MS_PlaylistId source))
                            (GetPlaylistSongs env sourceClient (MS_PlaylistId source)) in
          match fetched with
          | inr _ =>
              let! _ := emit (EvLog "Could not fetch songs from playlist, skipping.") in
              collectSongs rest allSongs
          | inl songs => collectSongs rest (allSongs ++ songs)
          end
      end
  end.

Definition runPlaylistMergeSync (userInfo : User) (sync : PlaylistMergeSync)
    : M (option error) :=
  let! collected := collectSongs (PMS_Sources sync) [] in
  match collected with
  | inr err => ret (Some err)
  | inl allSongs =>
  (* 2. Remove duplicates; 90.0 is the similarity threshold *)
  match DeduplicateSongs allSongs 90%float with
  | (_, Some err) => ret (Some (WrappedError err "failed to deduplicate songs"))
  | (uniqueSongs, None) =>
  (* 3. Get destination client *)
  match getClient (MS_Datasource (PMS_Destination sync)) with
  | inr err => ret (Some (WrappedError err "failed to get destination client"))
  | inl destClient =>
  let destPlaylistId := MS_PlaylistId (PMS_Destination sync) in
  (* 4. (Optional) Clear destination playlist *)
  let! cleared :=
    (if PMS_OverwriteExisting sync
     then call (EvClearPlaylist destClient destPlaylistId)
            (ClearPlaylist env destClient destPlaylistId)
     else ret (inl tt)) in
  match cleared with
  | inr err => ret (Some (WrappedError err "failed to clear destination playlist"))
  | inl _ =>
  (* 5. Add songs to destination list *)
  let! searched := getSearchedSongs userInfo uniqueSongs
                     (MS_Datasource (PMS_Destination sync)) in
  match searched with
  | (_, Some err) =>
      ret (Some (WrappedError err "failed to search for songs on destination platform"))
  | (searchedSongs, None) =>
  let! added := call (EvAddToPlaylist destClient destPlaylistId searchedSongs)
                  (AddToPlaylist env destClient destPlaylistId searchedSongs) in
  match added with
  | inr err => ret (Some (WrappedError err "failed to add songs to destination playlist"))
  | inl _ => ret None
  end end end end end end.

(** 3. Execute the main sync logic.  The default branch is reached with
    no variant set, and the verb [%T] prints a nil variant as [<nil>]. *)
Definition executeSync (userInfo : User) (sync : Sync) : M (option error) :=
  match GetSyncVariant sync with
  | Sync_OneWaySync v => runOneWaySync userInfo v
  | Sync_PlaylistMergeSync v => runPlaylistMergeSync userInfo v
  | Sync_Unset => ret (Some (NewError "unreachable: unknown sync variant: <nil>"))
  end.

(** The body of RunSync, up to its return or its panic.  It threads the
    local variable [syncRun], which the deferred function reads: the
    result carries its value when the body is left. *)
Definition RunSync_body (userInfo : User) (sync : Sync) (syncRun : SyncRun)
    : World -> result (option error) * SyncRun * World :=
  fun w =>
  (* 1. Store and broadcast the initial PENDING status. *)
  match storeAndBroadcastSyncRun syncRun true w with
  | (Panic msg, w1) => (Panic msg, syncRun, w1)
  | (Ret (_, Some err), w1) =>
      (Ret (Some (WrappedError err "failed to store initial sync run")), syncRun, w1)
  | (Ret (None, None), w1) => (Panic "nil pointer dereference", syncRun, w1)
  | (Ret (Some storedRun, None), w1) =>
  let syncRun := storedRun in
  (* 2. Update status to RUNNING, then store and broadcast. *)
  let syncRun := withStatus SYNC_STATUS_RUNNING syncRun in
  match storeAndBroadcastSyncRun syncRun false w1 with
  | (Panic msg, w2) => (Panic msg, syncRun, w2)
  | (Ret (_, Some err), w2) =>
      (Ret (Some (WrappedError err "failed to store running sync status")), syncRun, w2)
  | (Ret (None, None), w2) => (Panic "nil pointer dereference", syncRun, w2)
  | (Ret (Some storedRun, None), w2) =>
  let syncRun := storedRun in
  (* 3. Execute the main sync logic. *)
  match executeSync userInfo sync w2 with
  | (Panic msg, w3) => (Panic msg, syncRun, w3)
  | (Ret (Some syncErr), w3) =>
      (* 4. Determine final status based on the error. *)
      (Ret (Some (WrappedError syncErr "sync execution failed")),
       withStatus SYNC_STATUS_FAILED syncRun, w3)
  | (Ret None, w3) =>
      (Ret None, withStatus SYNC_STATUS_COMPLETED syncRun, w3)
  end end end.

(** The deferred function: it recovers a panic of the body, then stores
    and broadcasts the final status. *)
Definition RunSync_deferred (body : result (option error)) (syncRun : SyncRun)
    : M SyncRun :=
  let! syncRun :=
    match body with
    | Panic msg =>
        (* If a panic occurs during the sync, recover and set status to FAILED. *)
        let! _ := emit (EvLog "Recovered from panic in RunSync") in
        ret (withStatus SYNC_STATUS_FAILED syncRun)
    | Ret _ => ret syncRun
    end in
  (* Store and broadcast the final status. *)
  let! stored := storeAndBroadcastSyncRun syncRun false in
  match stored with
  | (_, Some err) =>
      let! _ := emit (EvLog "CRITICAL: failed to store final sync run state") in
      ret syncRun
  | (_, None) => ret syncRun
  end.

(** RunSync: its result is what the caller gets back (after a recovered
    panic, the zero value [nil]), with the run record as its local
    variable holds it at the end. *)
Definition RunSync (userInfo : User) (sync : Sync) : M (option error * SyncRun) :=
  fun w =>
  (* Create the initial SyncRun object with a PENDING status. *)
  let syncRun :=
    {| GetSyncId := GetId sync; GetRunId := uuid_NewString env;
       GetSyncStatus := SYNC_STATUS_PENDING; GetUpdatedAt := 0%nat;
       GetUnmatchedSongs := [] |} in
  match RunSync_body userInfo sync syncRun w with
  | (body, syncRun, w1) =>
      match RunSync_deferred body syncRun w1 with
      | (Panic msg, w2) => (Panic msg, w2)
      | (Ret syncRun, w2) =>
          (Ret (match body with Ret err => err | Panic _ => None end, syncRun), w2)
      end
  end.

End Engine.

(** The calls of a strategy into the providers and the normalizer. *)
Definition isProviderEvent (e : Event) : bool :=
  match e with
  | EvGetPlaylistSongs _ _ | EvNormalizeSongs _ | EvGetIdByDatasource _ _
  | EvClearPlaylist _ _ | EvAddToPlaylist _ _ _ => true
  | _ => false
  end.

Definition isStrategyEvent (e : Event) : bool :=
  match e with
  | EvLog _ => true
  | _ => isProviderEvent e
  end.

(** The world after the events [t], store and broadcaster untouched. *)
Definition appendTrace (w : World) (t : list Event) : World :=
  {| rows := rows w; clock := clock w; persisted := persisted w;
     writes := writes w; reads := reads w;
     broadcaster := broadcaster w; trace := trace w ++ t |}.

(** The songs of a list that resolve on the destination, with their new
    identifiers, in order. *)
Fixpoint resolvedSongs (env : Env) (songs : list Song) (datasource : Datasource)
    : list Song :=
  match songs with
  | [] => []
  | song :: rest =>
      match GetIdByDatasource env song datasource with
      | Ok newDatasourceSongId =>
          NewSong song newDatasourceSongId :: resolvedSongs env rest datasource
      | _ => resolvedSongs env rest datasource
      end
  end.

(** What the search for the songs does, song by song: one lookup each,
    and a log line where it fails. *)
Fixpoint searchEvents (env : Env) (songs : list Song) (datasource : Datasource)
    : list Event :=
  match songs with
  | [] => []
  | song :: rest =>
      EvGetIdByDatasource song datasource
        :: match GetIdByDatasource env song datasource with
           | Ok _ => []
           | _ => [EvLog "failed to get datasource ID for song"]
           end ++ searchEvents env rest datasource
  end.

(** The songs of a list that do not resolve on the destination. *)
Definition unresolvedSongs (env : Env) (songs : list Song) (datasource : Datasource)
    : list Song :=
  List.filter (fun song => match GetIdByDatasource env song datasource with
                           | Ok _ => false
                           | _ => true
                           end) songs.

(** The lists of songs the destination playlists received, in order. *)
Definition songsAdded (t : list Event) : list (list Song) :=
  omap (fun e => match e with
                 | EvAddToPlaylist _ _ songs => Some songs
                 | _ => None
                 end) t.

(** The events of a one-way sync in which no call fails but the search
    for some of the songs. *)
Definition oneWayEvents (env : Env) (v : OneWaySync) (sourceSongs songs : list Song)
    : list Event :=
  [EvGetPlaylistSongs (MS_Datasource (OWS_Source v)) (MS_PlaylistId (OWS_Source v))]
  ++ (if LlmEnabled env then [EvNormalizeSongs sourceSongs] else [])
  ++ searchEvents env songs (MS_Datasource (OWS_Destination v))
  ++ (if OWS_OverwriteExisting v
      then [EvLog "Clearing destination playlist";
            EvClearPlaylist (MS_Datasource (OWS_Destination v))
              (MS_PlaylistId (OWS_Destination v))]
      else [])
  ++ [EvAddToPlaylist (MS_Datasource (OWS_Destination v))
        (MS_PlaylistId (OWS_Destination v))
        (resolvedSongs env songs (MS_Datasource (OWS_Destination v)))].




(** The playlists a sync names. *)
Definition sourcesOf (sync : Sync) : list MusicSource :=
  match GetSyncVariant sync with
  | Sync_OneWaySync v => [OWS_Source v]
  | Sync_PlaylistMergeSync v => PMS_Sources v
  | Sync_Unset => []
  end.

Definition destinationOf (sync : Sync) : option MusicSource :=
  match GetSyncVariant sync with
  | Sync_OneWaySync v => Some (OWS_Destination v)
  | Sync_PlaylistMergeSync v => Some (PMS_Destination v)
  | Sync_Unset => None
  end.

Definition overwriteOf (sync : Sync) : bool :=
  match GetSyncVariant sync with
  | Sync_OneWaySync v => OWS_OverwriteExisting v
  | Sync_PlaylistMergeSync v => PMS_OverwriteExisting v
  | Sync_Unset => false
  end.

(** A call into a provider that stays within the sync: it reads a source
    playlist, searches on the datasource of the destination, or writes
    the destination playlist, clearing it only if the sync overwrites. *)
Definition withinSync (sync : Sync) (e : Event) : Prop :=
  match e with
  | EvGetPlaylistSongs ds playlistId => mkMusicSource ds playlistId ∈ sourcesOf sync
  | EvGetIdByDatasource _ ds =>
      exists dest, destinationOf sync = Some dest /\ MS_Datasource dest = ds
  | EvClearPlaylist ds playlistId =>
      destinationOf sync = Some (mkMusicSource ds playlistId) /\ overwriteOf sync = true
  | EvAddToPlaylist ds playlistId _ =>
      destinationOf sync = Some (mkMusicSource ds playlistId)
  | _ => True
  end.

(** A call on the destination: a search, a clear or an add. *)
Definition touchesDestination (e : Event) : bool :=
  match e with
  | EvGetIdByDatasource _ _ | EvClearPlaylist _ _ | EvAddToPlaylist _ _ _ => true
  | _ => false
  end.

(** A computation whose result and events do not depend on the world,
    with events that all satisfy [P]. *)
Definition confined {A} (P : Event -> Prop) (m : M A) : Prop :=
  exists r t, Forall P t /\ forall w, m w = (r, appendTrace w t).

(** A computation that only calls providers and logs: its result and its
    events do not depend on the world, which it leaves as it is but for
    the trace. *)
Definition oblivious {A} (m : M A) : Prop :=
  exists r t, Forall (fun e => isStrategyEvent e = true) t
              /\ forall w, m w = (r, appendTrace w t).

(** Whether the write reaches a row: a create always does, an update
    when the row is there. *)
Definition written (isCreate : bool) (run : SyncRun) (w : World) : bool :=
  isCreate || bool_decide (is_Some (rows w !! GetRunId run)).

(** The statuses of a run among the entries [entries] of the store's
    history. *)
Definition statusesOf (runId : text) (entries : list (text * SyncStatus))
    : list SyncStatus :=
  map snd (List.filter (fun entry => bool_decide (fst entry = runId)) entries).

Definition isTerminal (st : SyncStatus) : bool :=
  match st with
  | SYNC_STATUS_COMPLETED | SYNC_STATUS_FAILED => true
  | _ => false
  end.

(** The events of one status stored, read back and broadcast. *)
Definition writeEvent (isCreate : bool) (run : SyncRun) (err : option error) : Event :=
  if isCreate then EvCreateSyncRun run err else EvUpdateSyncRun run err.

Definition storeBlock (isCreate : bool) (run : SyncRun) (found : option SyncRun)
    (log : string) (sent : SyncRun) (skipped : list nat) : list Event :=
  [writeEvent isCreate run None; EvGetSyncs (GetRunId run) found;
   EvLog log; EvBroadcast sent skipped].

(** Same run, but for the timestamp. *)
Definition sameRun (run' run : SyncRun) : Prop :=
  GetSyncId run' = GetSyncId run /\ GetRunId run' = GetRunId run
  /\ GetSyncStatus run' = GetSyncStatus run
  /\ GetUnmatchedSongs run' = GetUnmatchedSongs run.

(** [evs] are the events of the status [st] of run [runId] stored, read
    back and broadcast. *)
Definition isStoreBlock (isCreate : bool) (st : SyncStatus) (runId : text)
    (evs : list Event) : Prop :=
  exists run found log sent skipped,
    evs = storeBlock isCreate run found log sent skipped
    /\ GetRunId run = runId /\ GetSyncStatus run = st /\ sameRun sent run.

(** No provider is called in [evs]. *)
Definition noProviderCall (evs : list Event) : Prop :=
  Forall (fun e => isProviderEvent e = false) evs.

(** The run record that RunSync creates. *)
Definition initialRun (env : Env) (sync : Sync) : SyncRun :=
  {| GetSyncId := GetId sync; GetRunId := uuid_NewString env;
     GetSyncStatus := SYNC_STATUS_PENDING; GetUpdatedAt := 0%nat;
     GetUnmatchedSongs := [] |}.

End SyncEngine.

(** ** Package rpc_handlers: create_sync.go *)

Module CreateSync.

(** The order [sort.Strings] sorts by: bytewise, which on UTF-8 is the
    lexicographic order of the rune sequences. *)
Fixpoint text_leb (a b : text) : bool :=
  match a, b with
  | [], _ => true
  | _ :: _, [] => false
  | x :: a', y :: b' =>
      if x <? y then true else if x =? y then text_leb a' b' else false
  end.

Definition text_le (a b : text) : Prop := text_leb a b = true.

(** [sort.Strings]: the keys in increasing order (equal strings cannot
    be told apart, so the order fixes the result). *)
Fixpoint insertKey (k : text) (keys : list text) : list text :=
  match keys with
  | [] => [k]
  | x :: rest => if text_leb k x then k :: keys else x :: insertKey k rest
  end.

Definition sort_Strings (keys : list text) : list text :=
  fold_right insertKey [] keys.

Inductive CreateSyncRequest : Type :=
| CreateSyncRequest_OneWaySync (v : OneWaySync)
| CreateSyncRequest_PlaylistMergeSync (v : PlaylistMergeSync)
| CreateSyncRequest_Unset.

Inductive GrpcHandlerResponse : Type :=
| BadRequest (err : error)
| InternalServerError (err : error)
| OK (sync : Sync).

(** What the handler gets from [MyncerCtx.DB] and from [uuid]. *)
Record Db : Type := mkDb {
  SyncStore_GetSyncs : list Sync + error;             (* the user's syncs *)
  GetConnectedDatasources : list Datasource + error;  (* of the user *)
  SyncStore_CreateSync : option error;
  uuid_NewString : text;
}.

(** The runes [%d] prints: decimal digits, after a minus sign for a
    negative number. *)
Definition numeral (r : rune) : bool := (r =? 45) || ((48 <=? r) && (r <=? 57)).

(** An endpoint a sync may name: its datasource is specified and
    connected, its playlist id is not empty. *)
Definition validEndpoint (connectedDatasources : list Datasource) (s : MusicSource)
    : Prop :=
  MS_Datasource s <> DATASOURCE_UNSPECIFIED
  /\ MS_PlaylistId s <> []
  /\ MS_Datasource s ∈ connectedDatasources.

Section Handler.

(** The number of a datasource in the protobuf enum, which [%d] prints. *)
Variable Datasource_number : Datasource -> Z.

Variable db : Db.

(** [fmt.Sprintf("%d:%s", s.GetDatasource(), s.GetPlaylistId())] *)
Definition sourceKey (s : MusicSource) : text :=
  runes (pretty (Datasource_number (MS_Datasource s))) ++ runes ":" ++ MS_PlaylistId s.

Definition canonicalSourceKey (sources : list MusicSource) : text :=
  let keys := map sourceKey sources in
  Join (sort_Strings keys) (runes "|").

Definition sameEndpoints (ows req : OneWaySync) : bool :=
  bool_decide (MS_PlaylistId (OWS_Source ows) = MS_PlaylistId (OWS_Source req))
  && bool_decide (MS_Datasource (OWS_Source ows) = MS_Datasource (OWS_Source req))
  && bool_decide (MS_PlaylistId (OWS_Destination ows) = MS_PlaylistId (OWS_Destination req))
  && bool_decide (MS_Datasource (OWS_Destination ows) = MS_Datasource (OWS_Destination req)).

Definition isOneWayDuplicate (req : OneWaySync) (existingSync : Sync) : bool :=
  match GetSyncVariant existingSync with
  | Sync_OneWaySync ows => sameEndpoints ows req
  | _ => false
  end.

Definition validateOneWaySync (userInfo : User) (req : OneWaySync)
    (existingSyncs : list Sync) : option error :=
  if bool_decide (MS_Datasource (OWS_Source req) = DATASOURCE_UNSPECIFIED)
  then Some (NewError "source datasource must be specified")
  else if bool_decide (MS_Datasource (OWS_Destination req) = DATASOURCE_UNSPECIFIED)
  then Some (NewError "destination datasource must be specified")
  else
    match GetConnectedDatasources db with
    | inr err => Some (WrappedError err "failed to get connected datasources for user")
    | inl connectedDatasources =>
        if negb (bool_decide (MS_Datasource (OWS_Source req) ∈ connectedDatasources))
        then Some (NewError "source datasource is not connected")
        else if negb (bool_decide (MS_Datasource (OWS_Destination req) ∈ connectedDatasources))
        then Some (NewError "destination datasource is not connected")
        else if bool_decide (length (MS_PlaylistId (OWS_Source req)) = 0%nat)
        then Some (NewError "source playlist id must be specified")
        else if bool_decide (length (MS_PlaylistId (OWS_Destination req)) = 0%nat)
        then Some (NewError "destination playlist id must be specified")
        else if existsb (isOneWayDuplicate req) existingSyncs
        then Some (NewError "A sync with these exact source and destination playlists already exists.")
        else None
    end.

(** Validate each source: the loop, [i] counting from 0. *)
Fixpoint validateSources (connectedDatasources : list Datasource)
    (i : nat) (sources : list MusicSource) : option error :=
  match sources with
  | [] => None
  | source :: rest =>
      if bool_decide (MS_Datasource source = DATASOURCE_UNSPECIFIED)
      then Some (NewError ("source datasource " +:+ pretty (i + 1)%nat +:+ " must be specified"))
      else if bool_decide (length (MS_PlaylistId source) = 0%nat)
      then Some (NewError ("source playlist id " +:+ pretty (i + 1)%nat +:+ " must be specified"))
      else if negb (bool_decide (MS_Datasource source ∈ connectedDatasources))
      then Some (NewError ("source datasource " +:+ pretty (i + 1)%nat +:+ " is not connected"))
      else validateSources connectedDatasources (S i) rest
  end.

Definition isMergeDuplicate (req : PlaylistMergeSync) (existingSync : Sync) : bool :=
  let newKey := canonicalSourceKey (PMS_Sources req) in
  let newDest := PMS_Destination req in
  match GetSyncVariant existingSync with
  | Sync_PlaylistMergeSync pms =>
      let existingKey := canonicalSourceKey (PMS_Sources pms) in
      let existingDest := PMS_Destination pms in
      bool_decide (existingKey = newKey)
      && bool_decide (MS_PlaylistId existingDest = MS_PlaylistId newDest)
      && bool_decide (MS_Datasource existingDest = MS_Datasource newDest)
  | _ => false
  end.

Definition duplicateMergeError : error :=
  NewError "A merge sync with these exact playlists already exists.".

Definition validatePlaylistMergeSync (userInfo : User) (req : PlaylistMergeSync)
    (existingSyncs : list Sync) : option error :=
  (* Validate that there are at least two sources *)
  if (length (PMS_Sources req) <? 2)%nat
  then Some (NewError "at least two source playlists are required for a merge sync")
  (* Validate the destination *)
  else if bool_decide (MS_Datasource (PMS_Destination req) = DATASOURCE_UNSPECIFIED)
  then Some (NewError "destination datasource must be specified")
  else if bool_decide (length (MS_PlaylistId (PMS_Destination req)) = 0%nat)
  then Some (NewError "destination playlist id must be specified")
  else
    (* Get user's connected datasources *)
    match GetConnectedDatasources db with
    | inr err => Some (WrappedError err "failed to get connected datasources for user")
    | inl connectedDatasources =>
        (* Validate that the destination is connected *)
        if negb (bool_decide (MS_Datasource (PMS_Destination req) ∈ connectedDatasources))
        then Some (NewError "destination datasource is not connected")
        else
          match validateSources connectedDatasources 0 (PMS_Sources req) with
          | Some err => Some err
          | None =>
              if existsb (isMergeDuplicate req) existingSyncs
              then Some duplicateMergeError
              else None
          end
    end.

Definition validateRequest (req : CreateSyncRequest) (userInfo : User) : option error :=
  match SyncStore_GetSyncs db with
  | inr err => Some (WrappedError err "failed to check for existing syncs")
  | inl existingSyncs =>
      match req with
      | CreateSyncRequest_OneWaySync v => validateOneWaySync userInfo v existingSyncs
      | CreateSyncRequest_PlaylistMergeSync v => validatePlaylistMergeSync userInfo v existingSyncs
      | CreateSyncRequest_Unset => Some (NewError "unknown sync type in validate request")
      end
  end.

Definition NewSync_OneWaySync (userId : text) (oneWaySync : OneWaySync) : Sync :=
  {| GetId := uuid_NewString db; GetUserId := userId;
     GetSyncVariant := Sync_OneWaySync oneWaySync |}.

Definition NewSync_PlaylistMergeSync (userId : text) (mergeSync : PlaylistMergeSync) : Sync :=
  {| GetId := uuid_NewString db; GetUserId := userId;
     GetSyncVariant := Sync_PlaylistMergeSync mergeSync |}.

Definition createSyncFromRequest (req : CreateSyncRequest) (userInfo : User)
    : Sync + error :=
  match req with
  | CreateSyncRequest_OneWaySync v => inl (NewSync_OneWaySync (User_GetId userInfo) v)
  | CreateSyncRequest_PlaylistMergeSync v =>
      inl (NewSync_PlaylistMergeSync (User_GetId userInfo) v)
  | CreateSyncRequest_Unset => inr (NewError "unknown sync type in create sync from request")
  end.

Definition ProcessRequest (userInfo : User) (reqBody : CreateSyncRequest)
    : GrpcHandlerResponse :=
  match validateRequest reqBody userInfo with
  | Some err => BadRequest (WrappedError err "failed to validate create sync request")
  | None =>
      (* Create the sync from the request. *)
      match createSyncFromRequest reqBody userInfo with
      | inr err => InternalServerError (WrappedError err "failed to create sync from request")
      | inl sync =>
          (* Persist the sync to the database. *)
          match SyncStore_CreateSync db with
          | Some err => InternalServerError (WrappedError err "failed to create sync in database")
          | None => OK sync
          end
      end
  end.

End Handler.

End CreateSync.

(** ** Package rpc_handlers: run_sync.go and the status stream

    The callers of the engine and of the broadcaster. *)

Module RunSyncHandler.

Record RunSyncResponse : Type := mkRunSyncResponse {
  RSR_SyncId : text;
  RSR_Status : SyncStatus;
  RSR_ErrorMessage : string;
}.

Inductive GrpcHandlerResponse : Type :=
| InternalServerError (err : error)
| OK (resp : RunSyncResponse).

Section Handler.

(** [uuid.Parse] of github.com/google/uuid: whether it accepts the id. *)
Variable uuid_Parse : text -> option error.

(** [DB.SyncStore.GetSync], on the store as it is during the request.
    The messages of the errors are kept without their arguments. *)
Variable SyncStore_GetSync : text -> Sync + error.

Definition validateRequest (userInfo : User) (syncId : text) : option error :=
  if bool_decide (length syncId = 0%nat) then Some (NewError "sync id is required")
  else
    match uuid_Parse syncId with
    | Some err => Some (NewError "invalid sync id")
    | None =>
        match SyncStore_GetSync syncId with
        | inr err => Some (WrappedError err "could not get sync with id")
        | inl sync =>
            if bool_decide (User_GetId userInfo <> GetUserId sync)
            then Some (NewError "user does not have permission to run sync")
            else None
        end
    end.

(** [userInfo] is nullable. *)
Definition CheckPerms (userInfo : option User) (syncId : text) : option error :=
  match userInfo with
  | None => Some (NewError "user is required to run sync job")
  | Some userInfo =>
      match validateRequest userInfo syncId with
      | Some err => Some (WrappedError err "failed to validate request")
      | None => None
      end
  end.

(** ProcessRequest answers at once; the second component is the call of
    [syncEngine.RunSync] that it starts in a goroutine of its own, if
    any: the user and the sync it is given. *)
Definition ProcessRequest (userInfo : option User) (syncId : text)
    : GrpcHandlerResponse * option (option User * Sync) :=
  match SyncStore_GetSync syncId with
  | inr err => (InternalServerError (WrappedError err "could not get sync by id"), None)
  | inl sync =>
      (* Start the sync in a background goroutine; immediately return a
         PENDING status to acknowledge the request. *)
      (OK {| RSR_SyncId := GetId sync;
             RSR_Status := SYNC_STATUS_PENDING;
             RSR_ErrorMessage := "Sync job has been queued." |},
       Some (userInfo, sync))
  end.

End Handler.

End RunSyncHandler.

Module SyncStatusStream.

(** The [connect] error codes the handler answers with. *)
Inductive Code : Type :=
| CodeUnauthenticated
| CodeInvalidArgument
| CodeNotFound
| CodePermissionDenied
| CodeInternal.

(** The loop that looks for the state to send first: the run updated
    last, and of several updated at the same time the one met first. *)
Definition mostRecentRun (syncRuns : list SyncRun) : option SyncRun :=
  fold_left
    (fun mostRecentRun run =>
       match mostRecentRun with
       | None => Some run
       | Some recent =>
           if (GetUpdatedAt recent <? GetUpdatedAt run)%nat then Some run else Some recent
       end)
    syncRuns None.

Section Handler.

Variable uuid_Parse : text -> option error.
Variable SyncStore_GetSync : text -> Sync + error.

(** [DB.SyncRunStore.GetSyncs(ctx, nil, core.NewSet(syncId))]: the runs
    of the sync, in the order [ToArray] gives them. *)
Variable SyncRunStore_GetSyncs : text -> list SyncRun + error.

(** SubscribeToSyncStatus up to its first message: the code of the
    error it returns, or the run that it sends first, if there is one.
    It then subscribes, unless that send fails, and the loop that
    follows forwards the channel of the subscription to the stream. *)
Definition SubscribeToSyncStatus_start (userInfo : option User) (syncId : text)
    : Code + option SyncRun :=
  match userInfo with
  | None => inl CodeUnauthenticated
  | Some userInfo =>
      if bool_decide (length syncId = 0%nat) then inl CodeInvalidArgument
      else
        match uuid_Parse syncId with
        | Some _ => inl CodeInvalidArgument
        | None =>
            match SyncStore_GetSync syncId with
            | inr _ => inl CodeNotFound
            | inl sync =>
                if bool_decide (User_GetId userInfo <> GetUserId sync)
                then inl CodePermissionDenied
                else
                  match SyncRunStore_GetSyncs syncId with
                  | inr _ => inl CodeInternal
                  | inl syncRuns => inr (mostRecentRun syncRuns)
                  end
            end
        end
  end.

End Handler.

End SyncStatusStream.

(** ** Sample data *)

Module Samples.

Definition song (name : string) (artists : list string) (album isrc : string) : Song :=
  {| GetName := runes name; GetArtistNames := map runes artists;
     GetAlbum := runes album; GetIsrc := runes isrc;
     GetDatasource := DATASOURCE_SPOTIFY; GetDatasourceSongId := runes name |}.

(** The same title and album by two different artists. *)
Definition halo : Song := song "Halo" ["Beyonce"] "Fierce" "".
Definition haloCover : Song := song "Halo" ["Lotte Kestner"] "Fierce" "".

(** Two songs with an ISRC each. *)
Definition haloSingle : Song := song "Halo" ["Beyonce"] "Fierce" "US1".
Definition heySingle : Song := song "Hey" ["Pixies"] "Fierce" "US2".

(** Songs whose artist lists clean to no word at all. *)
Definition untitled : Song := song "Demo" [] "Tapes" "".
Definition untitledToo : Song := song "Demo 2" ["???"] "Tapes" "".

(** A broadcaster with two subscribers of one sync and one of another;
    eleven updates of the first sync are broadcast, and the first
    subscriber has read one of them before the last. *)
Definition runOf (syncId : string) (st : SyncStatus) : SyncRun :=
  {| GetSyncId := runes syncId; GetRunId := runes "run-1"; GetSyncStatus := st;
     GetUpdatedAt := 0%nat; GetUnmatchedSongs := [] |}.

Definition threeSubscribers : Broadcaster.SyncStatusBroadcaster :=
  let b := Broadcaster.NewSyncStatusBroadcaster in
  let b := fst (Broadcaster.Subscribe b (runes "sync-1")) in
  let b := fst (Broadcaster.Subscribe b (runes "sync-1")) in
  fst (Broadcaster.Subscribe b (runes "sync-2")).

Definition broadcastOrStay (b : Broadcaster.SyncStatusBroadcaster) (syncRun : SyncRun)
    : Broadcaster.SyncStatusBroadcaster :=
  match Broadcaster.Broadcast b syncRun with
  | Some (b', _) => b'
  | None => b
  end.

Definition tenUpdates : Broadcaster.SyncStatusBroadcaster :=
  Nat.iter 10 (fun b => broadcastOrStay b (runOf "sync-1" SYNC_STATUS_RUNNING))
    threeSubscribers.

(** A one-way sync of a playlist of three songs, the second of which
    the destination does not know. *)
Definition alice : User := {| User_GetId := runes "user-1" |}.

Definition threeSongs : list Song :=
  [song "Halo" ["Beyonce"] "Fierce" ""; song "Demo" [] "Tapes" "";
   song "Hey" ["Pixies"] "Doolittle" ""].

Definition oneWay : Sync :=
  {| GetId := runes "sync-1"; GetUserId := runes "user-1";
     GetSyncVariant :=
       Sync_OneWaySync
         {| OWS_Source := {| MS_Datasource := DATASOURCE_SPOTIFY;
                             MS_PlaylistId := runes "from" |};
            OWS_Destination := {| MS_Datasource := DATASOURCE_YOUTUBE;
                                  MS_PlaylistId := runes "to" |};
            OWS_OverwriteExisting := false |} |}.

Definition searchByName (song : Song) (datasource : Datasource)
    : SyncEngine.outcome text :=
  if bool_decide (GetName song = runes "Demo")
  then SyncEngine.Fail (NewError "no search result")
  else SyncEngine.Ok (runes "yt:" ++ GetName song).

(** The collaborators: a store that rejects the writes [storeWriteErr]
    says, and providers that answer a search with [search]. *)
Definition collaborators (storeWriteErr : nat -> option error)
    (search : Song -> Datasource -> SyncEngine.outcome text) : SyncEngine.Env :=
  {| SyncEngine.uuid_NewString := runes "run-1";
     SyncEngine.storeWriteErr := storeWriteErr;
     SyncEngine.storeReadErr := fun _ => None;
     SyncEngine.LlmEnabled := false;
     SyncEngine.NormalizeSongs := fun songs => SyncEngine.Ok songs;
     SyncEngine.GetPlaylistSongs := fun _ _ => SyncEngine.Ok threeSongs;
     SyncEngine.GetIdByDatasource := search;
     SyncEngine.ClearPlaylist := fun _ _ => SyncEngine.Ok tt;
     SyncEngine.AddToPlaylist := fun _ _ _ => SyncEngine.Ok tt |}.

Definition storeUp : nat -> option error := fun _ => None.

(** The store goes away after the second write. *)
Definition storeLost : nat -> option error :=
  fun n => if (n <? 2)%nat then None else Some (NewError "connection refused").

Definition searchPanics (song : Song) (datasource : Datasource)
    : SyncEngine.outcome text :=
  SyncEngine.Panics "index out of range".

(** An empty store and a broadcaster with one subscriber of the sync. *)
Definition emptyWorld : SyncEngine.World :=
  {| SyncEngine.rows := ∅; SyncEngine.clock := 0%nat; SyncEngine.persisted := [];
     SyncEngine.writes := 0%nat; SyncEngine.reads := 0%nat;
     SyncEngine.broadcaster :=
       fst (Broadcaster.Subscribe Broadcaster.NewSyncStatusBroadcaster (runes "sync-1"));
     SyncEngine.trace := [] |}.

Definition sampleDeduplicateSongs : list Song -> float -> list Song * option error :=
  Matching.Weighted.DeduplicateSongs Matching.sampleLowerTable Matching.sampleStripMarks.

(** The run, and what it leaves in the store's history. *)
Definition runOneWay (storeWriteErr : nat -> option error)
    (search : Song -> Datasource -> SyncEngine.outcome text)
    : SyncEngine.result (option error * SyncRun) * SyncEngine.World :=
  SyncEngine.RunSync (collaborators storeWriteErr search) sampleDeduplicateSongs
    alice oneWay emptyWorld.

(** A user with one merge sync of two playlists, and requests for
    another with the same destination. *)
Definition sampleDatasourceNumber (datasource : Datasource) : Z :=
  match datasource with
  | DATASOURCE_UNSPECIFIED => 0
  | DATASOURCE_SPOTIFY => 1
  | DATASOURCE_YOUTUBE => 2
  | DATASOURCE_TIDAL => 3
  end.

Definition roadTrip : MusicSource :=
  {| MS_Datasource := DATASOURCE_SPOTIFY; MS_PlaylistId := runes "road-trip" |}.
Definition workout : MusicSource :=
  {| MS_Datasource := DATASOURCE_YOUTUBE; MS_PlaylistId := runes "workout" |}.
Definition everything : MusicSource :=
  {| MS_Datasource := DATASOURCE_TIDAL; MS_PlaylistId := runes "everything" |}.

Definition mergeOf (sources : list MusicSource) : PlaylistMergeSync :=
  {| PMS_Sources := sources; PMS_Destination := everything;
     PMS_OverwriteExisting := false |}.

Definition existingMerge : Sync :=
  {| GetId := runes "sync-1"; GetUserId := runes "user-1";
     GetSyncVariant := Sync_PlaylistMergeSync (mergeOf [roadTrip; workout]) |}.

Definition sampleDb : CreateSync.Db :=
  {| CreateSync.SyncStore_GetSyncs := inl [existingMerge];
     CreateSync.GetConnectedDatasources :=
       inl [DATASOURCE_SPOTIFY; DATASOURCE_YOUTUBE; DATASOURCE_TIDAL];
     CreateSync.SyncStore_CreateSync := None;
     CreateSync.uuid_NewString := runes "sync-2" |}.

(** A merge of two playlists, one of which cannot be fetched. *)
Definition fetchByPlaylist (datasource : Datasource) (playlistId : text)
    : SyncEngine.outcome (list Song) :=
  if bool_decide (playlistId = runes "workout")
  then SyncEngine.Fail (NewError "playlist not found")
  else SyncEngine.Ok [haloSingle; heySingle; haloSingle].

Definition mergeCollaborators : SyncEngine.Env :=
  {| SyncEngine.uuid_NewString := runes "run-1";
     SyncEngine.storeWriteErr := storeUp;
     SyncEngine.storeReadErr := fun _ => None;
     SyncEngine.LlmEnabled := false;
     SyncEngine.NormalizeSongs := fun songs => SyncEngine.Ok songs;
     SyncEngine.GetPlaylistSongs := fetchByPlaylist;
     SyncEngine.GetIdByDatasource := searchByName;
     SyncEngine.ClearPlaylist := fun _ _ => SyncEngine.Ok tt;
     SyncEngine.AddToPlaylist := fun _ _ _ => SyncEngine.Ok tt |}.

Definition mergeSync : Sync :=
  {| GetId := runes "sync-1"; GetUserId := runes "user-1";
     GetSyncVariant := Sync_PlaylistMergeSync (mergeOf [roadTrip; workout]) |}.

(** A one-way sync from the playlist that cannot be fetched, and a sync
    with no variant set. *)
Definition workoutCopy : Sync :=
  {| GetId := runes "sync-3"; GetUserId := runes "user-1";
     GetSyncVariant :=
       Sync_OneWaySync {| OWS_Source := workout; OWS_Destination := everything;
                          OWS_OverwriteExisting := true |} |}.

Definition noVariant : Sync :=
  {| GetId := runes "sync-4"; GetUserId := runes "user-1"; GetSyncVariant := Sync_Unset |}.

End Samples.

(** * Properties *)

(** ** The regexp engine on the patterns of the cleaner *)

Module RegexpFacts.
Import Regexp.

Lemma skip_length p s : (length (skip p s) <= length s)%nat.
Proof.
  induction s as [|x s IH]; simpl; [lia|].
  destruct (p x); simpl; lia.
Qed.

Lemma squeeze_skip p repl s :
  squeeze p repl true s = squeeze p repl false (skip p s).
Proof.
  induction s as [|x s IH]; simpl; [reflexivity|].
  destruct (p x) eqn:Hp; simpl; [exact IH|].
  rewrite Hp. reflexivity.
Qed.

(** The greedy star of a class takes the whole run. *)
Lemma starLoop_class p n s :
  (length s <= n)%nat ->
  starLoop (fun s' k' => accept1 (A:=text) p s' k') true Some n s = Some (skip p s).
Proof.
  revert s. induction n as [|n IH]; intros s Hlen.
  - destruct s; simpl in *; [reflexivity|lia].
  - destruct s as [|x s]; [reflexivity|].
    simpl. destruct (p x) eqn:Hp; [|reflexivity].
    assert (Hlt : (length s <? S (length s))%nat = true) by (apply Nat.ltb_lt; lia).
    rewrite Hlt, IH by (simpl in Hlen; lia). reflexivity.
Qed.

Lemma matchAt_plus_class negated ranges s :
  matchAt (Plus (CharSet negated ranges)) s =
  match s with
  | x :: s' => if in_set negated ranges x then Some (skip (in_set negated ranges) s') else None
  | [] => None
  end.
Proof.
  destruct s as [|x s]; [reflexivity|].
  unfold matchAt, Plus. simpl.
  destruct (in_set negated ranges x); [|reflexivity].
  apply starLoop_class. lia.
Qed.

(** [ReplaceAllString] with a pattern [[...]+] squeezes the runs. *)
Lemma replaceAll_plus_class negated ranges repl n b s :
  (length s < n)%nat ->
  replaceAll n (Plus (CharSet negated ranges)) repl b s =
  squeeze (in_set negated ranges) repl false s.
Proof.
  revert b s. induction n as [|n IH]; intros b s Hlen; [lia|].
  cbn [replaceAll]. rewrite matchAt_plus_class.
  destruct s as [|x s]; [reflexivity|].
  cbn [squeeze]. simpl in Hlen.
  destruct (in_set negated ranges x) eqn:Hp.
  - pose proof (skip_length (in_set negated ranges) s) as Hs.
    assert (Hlt : (length (skip (in_set negated ranges) s) <? length (x :: s))%nat = true)
      by (apply Nat.ltb_lt; simpl; lia).
    rewrite Hlt, IH by lia. rewrite squeeze_skip. reflexivity.
  - rewrite IH by lia. reflexivity.
Qed.

Lemma ReplaceAllString_plus_class negated ranges repl s :
  ReplaceAllString (Plus (CharSet negated ranges)) s repl =
  squeeze (in_set negated ranges) repl false s.
Proof. apply replaceAll_plus_class. lia. Qed.

(** Where the pattern matches at no position, nothing is replaced. *)
Lemma replaceAll_no_match r repl n b s :
  (forall t, t `suffix_of` s -> matchAt r t = None) ->
  replaceAll n r repl b s = s.
Proof.
  revert b s. induction n as [|n IH]; intros b s Hno; [reflexivity|].
  cbn [replaceAll]. rewrite (Hno s) by reflexivity.
  destruct s as [|x s]; [reflexivity|].
  rewrite IH; [reflexivity|].
  intros t Ht. apply Hno. by apply suffix_cons_r.
Qed.

Lemma matchAt_lit_head c r x s :
  x <> c -> matchAt (Seq (Lit c) r) (x :: s) = None.
Proof.
  intros Hne. unfold matchAt. simpl.
  destruct (N.eqb_spec c x); [congruence|reflexivity].
Qed.

Lemma matchAt_alt r1 r2 s :
  matchAt (Alt r1 r2) s = orElse (matchAt r1 s) (matchAt r2 s).
Proof. reflexivity. Qed.

Lemma matchAt_set_head negated ranges r x s :
  in_set negated ranges x = false ->
  matchAt (Seq (CharSet negated ranges) r) (x :: s) = None.
Proof. intros Hp. unfold matchAt. simpl. rewrite Hp. reflexivity. Qed.

End RegexpFacts.

(** ** text_cleaner.go: Clean *)

Module CleanerFacts.
Import Regexp RegexpFacts Matching.

(** Boolean comparisons of runes with constants, decided by [lia]. *)
Ltac runes_lia :=
  unfold cleanRune, isAlnum, unicode_IsSpace, in_set, in_ranges, alnum_s, class_s in *;
  cbn [existsb fst snd] in *;
  rewrite ?xorb_true_l, ?xorb_false_l, ?orb_false_r in *;
  rewrite ?negb_true_iff, ?negb_false_iff in *;
  rewrite ?orb_true_iff, ?orb_false_iff, ?andb_true_iff, ?andb_false_iff,
    ?N.leb_le, ?N.leb_gt, ?N.eqb_eq, ?N.eqb_neq, ?N.ltb_lt, ?N.ltb_ge in *;
  try lia.

Lemma cleanRune_space x :
  cleanRune x = true -> unicode_IsSpace x = (x =? 32).
Proof.
  intros H. destruct (N.eqb_spec x 32) as [->|Hne]; [reflexivity|].
  assert (Hx : isAlnum x = true).
  { unfold cleanRune in H. apply orb_true_iff in H as [H|H]; [exact H|].
    apply N.eqb_eq in H. congruence. }
  clear H. apply not_true_is_false. intros Hs. runes_lia.
Qed.

Lemma cleanRune_ws x :
  cleanRune x = true -> in_set false class_s x = (x =? 32).
Proof.
  intros H. destruct (N.eqb_spec x 32) as [->|Hne]; [reflexivity|].
  apply not_true_is_false. intros Hs. runes_lia.
Qed.

Lemma cleanRune_alnum_s x :
  cleanRune x = true -> in_set true alnum_s x = false.
Proof. intros H. apply not_true_is_false. intros Hs. runes_lia. Qed.

Lemma cleanRune_lower lowerTable x :
  cleanRune x = true -> unicode_ToLower lowerTable x = x.
Proof.
  intros H. unfold unicode_ToLower.
  assert (Hlt : (x <? 128) = true) by runes_lia. rewrite Hlt.
  assert (Hup : (65 <=? x) && (x <=? 90) = false).
  { apply not_true_is_false. intros Hs. runes_lia. }
  rewrite Hup. reflexivity.
Qed.

Lemma cleanRune_ascii x : cleanRune x = true -> x < 128.
Proof. intros H. runes_lia. Qed.

(** *** What steps 5, 6 and 7 leave *)

Lemma squeeze_nonAlphanumeric b s :
  Forall (fun x => in_set true alnum_s x = false)
    (squeeze (in_set true alnum_s) [32] b s).
Proof.
  revert b. induction s as [|x s IH]; intros b; cbn [squeeze]; [constructor|].
  destruct (in_set true alnum_s x) eqn:Hp.
  - destruct b; [apply IH|]. constructor; [reflexivity|apply IH].
  - constructor; [exact Hp|apply IH].
Qed.

Lemma squeeze_whitespace_runes b s :
  Forall (fun x => in_set true alnum_s x = false) s ->
  Forall (fun x => cleanRune x = true)
    (squeeze (in_set false class_s) [32] b s).
Proof.
  intros Hs. revert b.
  induction Hs as [|x s Hx Hs IH]; intros b; cbn [squeeze]; [constructor|].
  destruct (in_set false class_s x) eqn:Hp.
  - destruct b; [apply IH|]. constructor; [reflexivity|apply IH].
  - constructor; [|apply IH].
    clear -Hx Hp. apply not_false_is_true. intros Hc. runes_lia.
Qed.

Lemma squeeze_whitespace_spaced s :
  singleSpaced true (squeeze (in_set false class_s) [32] true s) = true
  /\ singleSpaced false (squeeze (in_set false class_s) [32] false s) = true.
Proof.
  induction s as [|x s [IH1 IH2]]; cbn [squeeze]; [split; reflexivity|].
  destruct (in_set false class_s x) eqn:Hp.
  - split; [exact IH1|]. cbn. exact IH1.
  - assert (Hne : (x =? 32) = false).
    { apply not_true_is_false. intros Hs. runes_lia. }
    cbn [singleSpaced]. rewrite Hne. split; exact IH2.
Qed.

Lemma singleSpaced_weaken s :
  singleSpaced true s = true -> singleSpaced false s = true.
Proof.
  destruct s as [|x s]; [reflexivity|]. cbn [singleSpaced].
  destruct (x =? 32); [discriminate|auto].
Qed.

Lemma singleSpaced_app_l b s1 s2 :
  singleSpaced b (s1 ++ s2) = true -> singleSpaced b s1 = true.
Proof.
  revert b. induction s1 as [|x s1 IH]; intros b; [reflexivity|].
  cbn [app singleSpaced]. destruct (x =? 32); [|apply IH].
  intros [Hb H]%andb_true_iff. rewrite Hb. apply (IH true H).
Qed.

Lemma singleSpaced_app_r b s1 s2 :
  singleSpaced b (s1 ++ s2) = true -> singleSpaced false s2 = true.
Proof.
  revert b. induction s1 as [|x s1 IH]; intros b.
  - destruct b; [apply singleSpaced_weaken|auto].
  - cbn [app singleSpaced]. destruct (x =? 32); [|apply IH].
    intros [_ H]%andb_true_iff. apply (IH true H).
Qed.

(** *** strings.TrimSpace *)

Lemma trimLeft_split s : exists pre, s = pre ++ trimLeft s.
Proof.
  induction s as [|x s [pre IH]]; [by exists []|].
  cbn [trimLeft]. destruct (unicode_IsSpace x).
  - exists (x :: pre). cbn. by f_equal.
  - by exists [].
Qed.

Lemma trimLeft_head s :
  match trimLeft s with
  | x :: _ => unicode_IsSpace x = false
  | [] => True
  end.
Proof.
  induction s as [|x s IH]; [exact I|].
  cbn [trimLeft]. destruct (unicode_IsSpace x) eqn:Hx; [exact IH|exact Hx].
Qed.

Lemma trimLeft_id s :
  match s with x :: _ => unicode_IsSpace x = false | [] => True end ->
  trimLeft s = s.
Proof. destruct s as [|x s]; [reflexivity|]. cbn. by intros ->. Qed.

Lemma TrimSpace_split s : exists pre post, s = pre ++ TrimSpace s ++ post.
Proof.
  destruct (trimLeft_split s) as [pre Hpre].
  destruct (trimLeft_split (rev (trimLeft s))) as [q Hq].
  exists pre, (rev q). unfold TrimSpace.
  rewrite <- rev_app_distr, <- Hq, rev_involutive. exact Hpre.
Qed.

Lemma TrimSpace_head s :
  match TrimSpace s with x :: _ => unicode_IsSpace x = false | [] => True end.
Proof.
  destruct (trimLeft_split (rev (trimLeft s))) as [q Hq].
  pose proof (trimLeft_head s) as Hh.
  apply (f_equal (@rev rune)) in Hq.
  rewrite rev_involutive, rev_app_distr in Hq.
  fold (TrimSpace s) in Hq.
  destruct (TrimSpace s) as [|x o]; [exact I|].
  rewrite Hq in Hh. exact Hh.
Qed.

Lemma TrimSpace_last s :
  match rev (TrimSpace s) with x :: _ => unicode_IsSpace x = false | [] => True end.
Proof. unfold TrimSpace. rewrite rev_involutive. apply trimLeft_head. Qed.

Lemma noSpaceAtHead_of s :
  Forall (fun x => cleanRune x = true) s ->
  match s with x :: _ => unicode_IsSpace x = false | [] => True end ->
  noSpaceAtHead s = true.
Proof.
  destruct s as [|x s]; [reflexivity|].
  intros Hs Hx. apply Forall_cons in Hs as [Hc _].
  cbn. rewrite <- (cleanRune_space x Hc), Hx. reflexivity.
Qed.

Lemma noSpaceAtHead_trimLeft s :
  Forall (fun x => cleanRune x = true) s ->
  noSpaceAtHead s = true -> trimLeft s = s.
Proof.
  intros Hs Hh. apply trimLeft_id.
  destruct s as [|x s]; [exact I|].
  apply Forall_cons in Hs as [Hc _].
  rewrite (cleanRune_space x Hc). cbn in Hh.
  by apply negb_true_iff.
Qed.

(** Step 7 on what step 6 leaves. *)
Lemma TrimSpace_cleaned s :
  Forall (fun x => cleanRune x = true) s ->
  singleSpaced false s = true ->
  cleaned (TrimSpace s).
Proof.
  intros Hs Hsp.
  destruct (TrimSpace_split s) as (pre & post & Heq).
  assert (Ho : Forall (fun x => cleanRune x = true) (TrimSpace s)).
  { rewrite Heq in Hs. apply Forall_app in Hs as [_ Hs].
    by apply Forall_app in Hs as [Hs _]. }
  repeat split.
  - exact Ho.
  - rewrite Heq in Hsp. apply singleSpaced_app_r in Hsp.
    by apply singleSpaced_app_l in Hsp.
  - apply noSpaceAtHead_of; [exact Ho|apply TrimSpace_head].
  - apply noSpaceAtHead_of; [by apply Forall_rev|apply TrimSpace_last].
Qed.

(** *** Each step leaves a cleaned string as it is *)

Lemma TrimSpace_id s : cleaned s -> TrimSpace s = s.
Proof.
  intros (Hs & _ & Hh & Hl). unfold TrimSpace.
  rewrite (noSpaceAtHead_trimLeft s Hs Hh).
  rewrite (noSpaceAtHead_trimLeft (rev s)); [apply rev_involutive| |exact Hl].
  by apply Forall_rev.
Qed.

Lemma squeeze_whitespace_id b s :
  Forall (fun x => cleanRune x = true) s ->
  singleSpaced b s = true ->
  squeeze (in_set false class_s) [32] b s = s.
Proof.
  intros Hs. revert b.
  induction Hs as [|x s Hx Hs IH]; intros b Hsp; [reflexivity|].
  cbn [squeeze]. rewrite (cleanRune_ws x Hx).
  cbn [singleSpaced] in Hsp.
  destruct (N.eqb_spec x 32) as [->|Hne].
  - apply andb_true_iff in Hsp as [Hb Hsp].
    apply negb_true_iff in Hb. subst b. cbn. by rewrite IH.
  - by rewrite IH.
Qed.

Lemma squeeze_nonAlphanumeric_id b s :
  Forall (fun x => cleanRune x = true) s ->
  squeeze (in_set true alnum_s) [32] b s = s.
Proof.
  intros Hs. revert b.
  induction Hs as [|x s Hx Hs IH]; intros b; [reflexivity|].
  cbn [squeeze]. rewrite (cleanRune_alnum_s x Hx). by rewrite IH.
Qed.

Lemma cleanRune_suffix t s :
  Forall (fun x => cleanRune x = true) s -> t `suffix_of` s ->
  Forall (fun x => cleanRune x = true) t.
Proof. intros Hs [pre ->]. by apply Forall_app in Hs as [_ Hs]. Qed.

Lemma featRegex_no_match s :
  Forall (fun x => cleanRune x = true) s ->
  forall t, t `suffix_of` s -> matchAt featRegex t = None.
Proof.
  intros Hs t Ht. pose proof (cleanRune_suffix t s Hs Ht) as Hc.
  destruct Hc as [|x t Hx _]; [reflexivity|].
  unfold featRegex. rewrite matchAt_alt.
  rewrite !matchAt_lit_head; [reflexivity| |];
    intros ->; revert Hx; by vm_compute.
Qed.

Lemma tagsRegex_no_match s :
  Forall (fun x => cleanRune x = true) s ->
  forall t, t `suffix_of` s -> matchAt tagsRegex t = None.
Proof.
  intros Hs t Ht. pose proof (cleanRune_suffix t s Hs Ht) as Hc.
  destruct Hc as [|x t Hx _]; [reflexivity|].
  unfold tagsRegex. apply matchAt_set_head.
  apply not_true_is_false. intros Hb.
  unfold oneOf, in_set, in_ranges in Hb. cbn in Hb. runes_lia.
Qed.

Lemma ToLower_id lowerTable s :
  Forall (fun x => cleanRune x = true) s -> ToLower lowerTable s = s.
Proof.
  induction 1 as [|x s Hx Hs IH]; [reflexivity|].
  unfold ToLower in *. cbn [map]. by rewrite IH, cleanRune_lower.
Qed.

Lemma sampleStripMarks_ascii s :
  Forall (fun x => x < 128) s -> sampleStripMarks s = s.
Proof.
  induction 1 as [|x s Hx Hs IH]; [reflexivity|].
  unfold sampleStripMarks in *. cbn [List.filter].
  assert (Hlow : forall lo, 128 <= lo -> (lo <=? x) = false).
  { intros lo Hlo. apply N.leb_gt. lia. }
  rewrite (Hlow 768) by lia. cbn [andb negb map]. rewrite IH. f_equal.
  unfold latin1Base, latin1Bases. cbn [List.find].
  by repeat (rewrite Hlow by lia; cbn [andb]).
Qed.

Section Clean.

Variable lowerTable : rune -> rune.
Variable stripMarks : text -> text.

(** What the cleaner needs of the transformer of golang.org/x/text: a
    string of ASCII runes has no mark to remove and is in normal form. *)
Hypothesis stripMarks_ascii :
  forall s, Forall (fun x => x < 128) s -> stripMarks s = s.

Lemma Clean_cleaned s : cleaned (Clean lowerTable stripMarks s).
Proof.
  unfold Clean, nonAlphanumericRegex, extraWhitespaceRegex, ws.
  rewrite !ReplaceAllString_plus_class.
  change (runes " ") with [32].
  apply TrimSpace_cleaned.
  - apply squeeze_whitespace_runes, squeeze_nonAlphanumeric.
  - apply squeeze_whitespace_spaced.
Qed.

Lemma Clean_of_cleaned s :
  cleaned s -> Clean lowerTable stripMarks s = s.
Proof using stripMarks_ascii.
  intros Hc. pose proof Hc as (Hs & Hsp & _).
  unfold Clean, nonAlphanumericRegex, extraWhitespaceRegex, ws.
  rewrite !ReplaceAllString_plus_class.
  change (runes " ") with [32].
  rewrite (ToLower_id lowerTable s Hs).
  rewrite stripMarks_ascii
    by (eapply Forall_impl; [exact Hs|]; intros x Hx; by apply cleanRune_ascii).
  unfold ReplaceAllString.
  rewrite (replaceAll_no_match featRegex) by (by apply featRegex_no_match).
  rewrite (replaceAll_no_match tagsRegex) by (by apply tagsRegex_no_match).
  rewrite squeeze_nonAlphanumeric_id by exact Hs.
  rewrite squeeze_whitespace_id by assumption.
  by apply TrimSpace_id.
Qed.

(** C7. Clean is idempotent: its output is made of lower-case ASCII
    letters, digits and single spaces, with no space at either end (so
    it has no diacritic, no bracket and no other rune left), and a
    second application changes nothing. *)
Theorem Clean_idempotent s :
  cleaned (Clean lowerTable stripMarks s)
  /\ Clean lowerTable stripMarks (Clean lowerTable stripMarks s)
     = Clean lowerTable stripMarks s.
Proof using stripMarks_ascii.
  split; [apply Clean_cleaned|].
  apply Clean_of_cleaned, Clean_cleaned.
Qed.

End Clean.

(** "Beyoncé  (feat. Someone) -- Halo [Live]", cleaned twice. *)
Lemma Clean_idempotent_witness :
  let s := runes "Beyonc" ++ [233] ++ runes "  (feat. Someone) -- Halo [Live]" in
  cleaned (Clean sampleLowerTable sampleStripMarks s)
  /\ Clean sampleLowerTable sampleStripMarks (Clean sampleLowerTable sampleStripMarks s)
     = Clean sampleLowerTable sampleStripMarks s.
Proof.
  exact (Clean_idempotent sampleLowerTable sampleStripMarks sampleStripMarks_ascii _).
Defined.

End CleanerFacts.

(** ** Comparisons of float64 values *)

Module FloatFacts.

Lemma SFcompare_antisym a b :
  SpecFloat.SFcompare b a = option_map CompOpp (SpecFloat.SFcompare a b).
Proof.
  destruct a as [sa|sa| |sa ma ea], b as [sb|sb| |sb mb eb]; cbn;
    try reflexivity;
    try (destruct sa; reflexivity); try (destruct sb; reflexivity);
    try (destruct sa, sb; reflexivity).
  pose proof (Pos.compare_cont_antisym ma mb Eq) as Hm. cbn in Hm.
  destruct sa, sb; cbn; try reflexivity;
    rewrite (Z.compare_antisym ea eb);
    destruct (ea ?= eb)%Z; cbn; try reflexivity;
    rewrite <- Hm; by destruct (Pos.compare_cont Eq ma mb).
Qed.

Lemma is_nan_compare x :
  PrimFloat.is_nan x = false ->
  SpecFloat.SFcompare (Prim2SF x) (Prim2SF x) = Some Eq.
Proof.
  unfold PrimFloat.is_nan. rewrite negb_false_iff, FloatAxioms.eqb_spec.
  unfold SpecFloat.SFeqb.
  by destruct (SpecFloat.SFcompare (Prim2SF x) (Prim2SF x)) as [[]|].
Qed.

Lemma SFcompare_ordered a b :
  SpecFloat.SFcompare a a = Some Eq -> SpecFloat.SFcompare b b = Some Eq ->
  exists c, SpecFloat.SFcompare a b = Some c.
Proof.
  destruct a as [sa|sa| |sa ma ea]; try discriminate;
    destruct b as [sb|sb| |sb mb eb]; try discriminate;
    intros _ _; cbn; eauto.
Qed.

(** Away from NaN, [x >= t] fails exactly when [x < t]. *)
Lemma geb_false_ltb (x t : float) :
  PrimFloat.is_nan x = false -> PrimFloat.is_nan t = false ->
  negb (t <=? x)%float = (x <? t)%float.
Proof.
  intros Hx%is_nan_compare Ht%is_nan_compare.
  rewrite FloatAxioms.leb_spec, FloatAxioms.ltb_spec.
  unfold SpecFloat.SFleb, SpecFloat.SFltb.
  rewrite (SFcompare_antisym (Prim2SF x) (Prim2SF t)).
  destruct (SFcompare_ordered _ _ Hx Ht) as [c ->].
  by destruct c.
Qed.

Lemma is_nan_Prim2SF x :
  PrimFloat.is_nan x = true -> Prim2SF x = SpecFloat.S754_nan.
Proof.
  unfold PrimFloat.is_nan. rewrite negb_true_iff, FloatAxioms.eqb_spec.
  unfold SpecFloat.SFeqb.
  destruct (Prim2SF x) as [sx|sx| |sx mx ex]; [by destruct sx..|done|].
  cbn. rewrite Z.compare_refl, Pos.compare_cont_refl. by destruct sx.
Qed.

(** A comparison with NaN is false. *)
Lemma leb_nan_l x y : PrimFloat.is_nan x = true -> (x <=? y)%float = false.
Proof.
  intros Hx%is_nan_Prim2SF. by rewrite FloatAxioms.leb_spec, Hx.
Qed.

Lemma leb_nan_r x y : PrimFloat.is_nan y = true -> (x <=? y)%float = false.
Proof.
  intros Hy%is_nan_Prim2SF. rewrite FloatAxioms.leb_spec, Hy.
  unfold SpecFloat.SFleb. by destruct (Prim2SF x) as [[]|[]| |[] ? ?].
Qed.

Lemma ltb_nan_l x y : PrimFloat.is_nan x = true -> (x <? y)%float = false.
Proof.
  intros Hx%is_nan_Prim2SF. by rewrite FloatAxioms.ltb_spec, Hx.
Qed.

Lemma ltb_nan_r x y : PrimFloat.is_nan y = true -> (x <? y)%float = false.
Proof.
  intros Hy%is_nan_Prim2SF. rewrite FloatAxioms.ltb_spec, Hy.
  unfold SpecFloat.SFltb. by destruct (Prim2SF x) as [[]|[]| |[] ? ?].
Qed.

(** On all of float64, [x >= t] fails exactly when [x < t] or one of the
    two is NaN. *)
Lemma geb_false_ltb_or_nan (x t : float) :
  negb (t <=? x)%float
  = (x <? t)%float || PrimFloat.is_nan x || PrimFloat.is_nan t.
Proof.
  destruct (PrimFloat.is_nan x) eqn:Hx.
  { by rewrite (leb_nan_r _ _ Hx), (ltb_nan_l _ _ Hx). }
  destruct (PrimFloat.is_nan t) eqn:Ht.
  { by rewrite (leb_nan_l _ _ Ht), (ltb_nan_r _ _ Ht). }
  by rewrite geb_false_ltb, !orb_false_r.
Qed.

End FloatFacts.

(** ** song_matcher.go: the scores *)

Module MatcherFacts.
Import Matching.

Lemma LevenshteinDistance_cons a s b t :
  LevenshteinDistance (a :: s) (b :: t) =
  Nat.min (Nat.min (LevenshteinDistance s (b :: t) + 1)
                   (LevenshteinDistance (a :: s) t + 1))
          (LevenshteinDistance s t + (if (a =? b)%N then 0 else 1))%nat.
Proof. reflexivity. Qed.

Lemma LevenshteinDistance_nil_r s : LevenshteinDistance s [] = length s.
Proof. destruct s; reflexivity. Qed.

Lemma LevenshteinDistance_sym s t :
  LevenshteinDistance s t = LevenshteinDistance t s.
Proof.
  revert t. induction s as [|a s IHs]; intros t.
  - rewrite LevenshteinDistance_nil_r. by destruct t.
  - induction t as [|b t IHt]; [reflexivity|].
    rewrite !LevenshteinDistance_cons.
    rewrite IHt, (IHs (b :: t)), (IHs t), (N.eqb_sym a b).
    f_equal. apply Nat.min_comm.
Qed.

Lemma normalizedLevenshtein_sym s1 s2 :
  normalizedLevenshtein s1 s2 = normalizedLevenshtein s2 s1.
Proof.
  unfold normalizedLevenshtein.
  by rewrite (LevenshteinDistance_sym s1 s2), (Nat.max_comm (len s1) (len s2)).
Qed.

Lemma filter_elem_of_intersection (X Y : gset text) :
  filter (fun word => word ∈ Y) X = X ∩ Y.
Proof. apply set_eq. intros w. rewrite elem_of_filter, elem_of_intersection. tauto. Qed.

Lemma tokenSetRatio_sym s1 s2 : tokenSetRatio s1 s2 = tokenSetRatio s2 s1.
Proof.
  unfold tokenSetRatio.
  rewrite !filter_elem_of_intersection.
  rewrite (andb_comm (IsEmpty (ToSet (Fields s1)))).
  rewrite (orb_comm (IsEmpty (ToSet (Fields s1)))).
  rewrite (comm_L (∩) (ToSet (Fields s1))), (comm_L (∪) (ToSet (Fields s1))).
  reflexivity.
Qed.

Lemma sameIsrc_sym songA songB : sameIsrc songA songB = sameIsrc songB songA.
Proof.
  unfold sameIsrc.
  destruct (decide (GetIsrc songA = GetIsrc songB)) as [->|Hne]; [reflexivity|].
  rewrite !(bool_decide_eq_false_2 (_ = _)) by congruence.
  by rewrite !andb_false_r.
Qed.

Section Scores.

Variable lowerTable : rune -> rune.
Variable stripMarks : text -> text.
Variable albumOf : Song -> text.

Lemma titleScore_sym songA songB :
  titleScore lowerTable stripMarks songA songB
  = titleScore lowerTable stripMarks songB songA.
Proof. apply normalizedLevenshtein_sym. Qed.

Lemma albumScore_sym songA songB :
  albumScore lowerTable stripMarks songA songB
  = albumScore lowerTable stripMarks songB songA.
Proof. apply normalizedLevenshtein_sym. Qed.

Lemma artistScore_sym songA songB :
  artistScore lowerTable stripMarks songA songB
  = artistScore lowerTable stripMarks songB songA.
Proof. apply tokenSetRatio_sym. Qed.

(** C8. The similarity score is symmetric, on the branch of the exact
    identifier and on the weighted branch, in the revision with the
    fixed weights and in the one of server/matching/song_matcher.go. *)
Theorem CalculateSimilarity_symmetric songA songB :
  Weighted.CalculateSimilarity lowerTable stripMarks songA songB
  = Weighted.CalculateSimilarity lowerTable stripMarks songB songA
  /\ Penalised.CalculateSimilarity lowerTable stripMarks albumOf songA songB
     = Penalised.CalculateSimilarity lowerTable stripMarks albumOf songB songA.
Proof.
  unfold Weighted.CalculateSimilarity, Penalised.CalculateSimilarity.
  rewrite (sameIsrc_sym songA songB), (titleScore_sym songA songB),
    (artistScore_sym songA songB), (albumScore_sym songA songB).
  rewrite (andb_comm (bool_decide (albumOf songA <> []))).
  split; reflexivity.
Qed.

(** C3, as amended.  Two songs with the same non-empty ISRC score 100.
    Otherwise the revision with the fixed weights returns 0.45 * title
    + 0.45 * artist + 0.10 * album; server/matching/song_matcher.go
    returns half the artist score when that score is below 50, and else
    the weighted sum with the title weight lowered to 0.30 when both
    album texts are non-empty and the album score is below 70.  Two
    empty strings have edit similarity 100. *)
Theorem CalculateSimilarity_scoring songA songB :
  let title := titleScore lowerTable stripMarks songA songB in
  let artist := artistScore lowerTable stripMarks songA songB in
  let album := albumScore lowerTable stripMarks songA songB in
  let titleWeight :=
    if bool_decide (albumOf songA <> []) && bool_decide (albumOf songB <> [])
       && (album <? 70)%float
    then 0.30%float else 0.45%float in
  (sameIsrc songA songB = true ->
     Weighted.CalculateSimilarity lowerTable stripMarks songA songB = 100%float
     /\ Penalised.CalculateSimilarity lowerTable stripMarks albumOf songA songB = 100%float)
  /\ (sameIsrc songA songB = false ->
       Weighted.CalculateSimilarity lowerTable stripMarks songA songB
       = weightedSum title artist album)
  /\ (sameIsrc songA songB = false -> (artist <? 50)%float = true ->
       Penalised.CalculateSimilarity lowerTable stripMarks albumOf songA songB
       = (artist * 0.5)%float)
  /\ (sameIsrc songA songB = false -> (artist <? 50)%float = false ->
       Penalised.CalculateSimilarity lowerTable stripMarks albumOf songA songB
       = ((title * titleWeight) + (artist * 0.45) + (album * 0.10))%float)
  /\ normalizedLevenshtein [] [] = 100%float.
Proof.
  cbv zeta. unfold Weighted.CalculateSimilarity, Penalised.CalculateSimilarity.
  split; [|split; [|split; [|split]]].
  - by intros ->.
  - by intros ->.
  - by intros -> ->.
  - by intros -> ->.
  - reflexivity.
Qed.

(** C10.  When the two songs have no common non-empty ISRC: if neither
    cleaned artist string has a word, the artist score is 100 and adds
    the full 45 points to the score (in both revisions); if exactly one
    has no word, the artist score is 0 (and server/matching/song_matcher.go
    returns 0). *)
Theorem artistScore_without_words songA songB :
  sameIsrc songA songB = false ->
  let title := titleScore lowerTable stripMarks songA songB in
  let artist := artistScore lowerTable stripMarks songA songB in
  let album := albumScore lowerTable stripMarks songA songB in
  let wordsA := artistWords lowerTable stripMarks songA in
  let wordsB := artistWords lowerTable stripMarks songB in
  let titleWeight :=
    if bool_decide (albumOf songA <> []) && bool_decide (albumOf songB <> [])
       && (album <? 70)%float
    then 0.30%float else 0.45%float in
  (wordsA = [] -> wordsB = [] ->
     artist = 100%float
     /\ Weighted.CalculateSimilarity lowerTable stripMarks songA songB
        = ((title * 0.45) + 45 + (album * 0.10))%float
     /\ Penalised.CalculateSimilarity lowerTable stripMarks albumOf songA songB
        = ((title * titleWeight) + 45 + (album * 0.10))%float)
  /\ ((wordsA = [] /\ wordsB <> []) \/ (wordsA <> [] /\ wordsB = []) ->
      artist = 0%float
      /\ Weighted.CalculateSimilarity lowerTable stripMarks songA songB
         = ((title * 0.45) + 0 + (album * 0.10))%float
      /\ Penalised.CalculateSimilarity lowerTable stripMarks albumOf songA songB
         = 0%float).
Proof.
  intros Hisrc. cbv zeta.
  unfold Weighted.CalculateSimilarity, Penalised.CalculateSimilarity. rewrite Hisrc.
  unfold artistScore, artistWords, tokenSetRatio, ToSet, IsEmpty.
  split.
  - intros -> ->. by repeat split.
  - assert (Hne : forall l : list text, l <> [] ->
              bool_decide (list_to_set (C:=gset text) l = ∅) = false).
    { intros [|w l] Hl; [done|]. apply bool_decide_eq_false_2.
      intros Hempty. apply (not_elem_of_empty (C:=gset text) w).
      rewrite <- Hempty. set_solver. }
    intros [[-> Hb]|[Ha ->]].
    + rewrite (Hne _ Hb). by repeat split.
    + rewrite (Hne _ Ha). by repeat split.
Qed.

End Scores.

(** C3: in server/matching/song_matcher.go, "Halo" by two different
    artists, without ISRC, does not score the weighted sum (55) but 0. *)
Lemma CalculateSimilarity_not_weighted :
  let title := titleScore sampleLowerTable sampleStripMarks Samples.halo Samples.haloCover in
  let artist := artistScore sampleLowerTable sampleStripMarks Samples.halo Samples.haloCover in
  let album := albumScore sampleLowerTable sampleStripMarks Samples.halo Samples.haloCover in
  sameIsrc Samples.halo Samples.haloCover = false
  /\ weightedSum title artist album = 55%float
  /\ Penalised.CalculateSimilarity sampleLowerTable sampleStripMarks GetAlbum
       Samples.halo Samples.haloCover = 0%float
  /\ Penalised.CalculateSimilarity sampleLowerTable sampleStripMarks GetAlbum
       Samples.halo Samples.haloCover
     <> weightedSum title artist album.
Proof.
  cbv zeta. split; [|split; [|split]]; [by vm_compute..|].
  intros H. apply (f_equal (fun x => PrimFloat.eqb x 0)) in H.
  vm_compute in H. discriminate.
Qed.

(** Two songs whose artist lists clean to no word. *)
Lemma artistScore_without_words_witness :
  artistScore sampleLowerTable sampleStripMarks Samples.untitled Samples.untitledToo
  = 100%float.
Proof.
  refine (proj1 (proj1 (artistScore_without_words sampleLowerTable sampleStripMarks
                          GetAlbum Samples.untitled Samples.untitledToo _) _ _));
    by vm_compute.
Defined.

End MatcherFacts.

(** ** Words: strings.Fields on cleaned strings, tokenSetRatio *)

Module WordFacts.
Import Matching CleanerFacts.

Lemma Join_cons e rest sep :
  rest <> [] -> Join (e :: rest) sep = e ++ sep ++ Join rest sep.
Proof. by destruct rest. Qed.

Lemma fieldsFrom_nonempty word s : word <> [] -> fieldsFrom word s <> [].
Proof.
  revert word. induction s as [|x s IH]; intros word Hword; cbn [fieldsFrom].
  - by destruct word.
  - destruct (unicode_IsSpace x); [by destruct word|]. by apply IH.
Qed.

(** Reading a word that holds no white space. *)
Lemma fieldsFrom_word w word s :
  Forall (fun x => unicode_IsSpace x = false) w ->
  fieldsFrom word (w ++ s) = fieldsFrom (rev w ++ word) s.
Proof.
  revert word. induction w as [|x w IH]; intros word Hw; [done|].
  apply Forall_cons in Hw as [Hx Hw]. cbn [app fieldsFrom]. rewrite Hx, IH by done.
  cbn [rev]. by rewrite <- app_assoc.
Qed.

Lemma Fields_Join words :
  Forall (fun w => w <> [] /\ Forall (fun x => unicode_IsSpace x = false) w) words ->
  Fields (Join words (runes " ")) = words.
Proof.
  unfold Fields. change (runes " ") with [32].
  induction words as [|w words IH]; intros Hwords; [done|].
  apply Forall_cons in Hwords as [[Hne Hw] Hwords].
  assert (Hrev : rev w <> []).
  { intros Hnil. apply Hne. by rewrite <- (rev_involutive w), Hnil. }
  assert (Hend : fieldsFrom (rev w) [] = [w]).
  { cbn [fieldsFrom]. destruct (rev w) eqn:Hr; [done|]. by rewrite <- Hr, rev_involutive. }
  assert (Hsep : forall rest, fieldsFrom (rev w) (32 :: rest) = w :: fieldsFrom [] rest).
  { intros rest. cbn [fieldsFrom]. change (unicode_IsSpace 32) with true. cbn match.
    destruct (rev w) eqn:Hr; [done|]. by rewrite <- Hr, rev_involutive. }
  destruct words as [|w' words].
  - cbn [Join]. rewrite <- (app_nil_r w) at 1.
    by rewrite fieldsFrom_word, app_nil_r.
  - rewrite Join_cons by done. rewrite fieldsFrom_word, app_nil_r by done.
    cbn [app]. rewrite Hsep. f_equal. by apply IH.
Qed.

(** The words of a string of letters, digits and single spaces. *)
Lemma fieldsFrom_cleaned word s :
  Forall (fun x => cleanRune x = true) s ->
  singleSpaced (bool_decide (word = [])) s = true ->
  noSpaceAtHead (rev s) = true ->
  Join (fieldsFrom word s) [32] = rev word ++ s.
Proof.
  revert word. induction s as [|x s IH]; intros word Hs Hsp Hend; cbn [fieldsFrom].
  - rewrite app_nil_r. by destruct word.
  - apply Forall_cons in Hs as [Hx Hs].
    rewrite (cleanRune_space x Hx). cbn [singleSpaced] in Hsp.
    assert (Hend' : s <> [] -> noSpaceAtHead (rev s) = true).
    { intros Hne. cbn [rev] in Hend. destruct (rev s) eqn:Hr; [|exact Hend].
      exfalso. apply Hne. by rewrite <- (rev_involutive s), Hr. }
    destruct (N.eqb_spec x 32) as [->|Hne].
    + apply andb_true_iff in Hsp as [Hword Hsp].
      destruct word as [|y word]; [by rewrite bool_decide_eq_true_2 in Hword|].
      destruct s as [|z s]; [by cbn in Hend|].
      rewrite Join_cons.
      * rewrite (IH []); [done|done|by rewrite bool_decide_eq_true_2|by apply Hend'].
      * cbn [singleSpaced] in Hsp. cbn [fieldsFrom].
        apply Forall_cons in Hs as [Hz _]. rewrite (cleanRune_space z Hz).
        destruct (z =? 32); [done|]. by apply fieldsFrom_nonempty.
    + rewrite (IH (x :: word)).
      * cbn [rev]. by rewrite <- app_assoc.
      * done.
      * by rewrite bool_decide_eq_false_2.
      * destruct s as [|z s]; [done|]. by apply Hend'.
Qed.

Lemma fieldsFrom_alnum word s :
  Forall (fun x => cleanRune x = true) s ->
  Forall (fun x => isAlnum x = true) word ->
  Forall (fun w => w <> [] /\ Forall (fun x => isAlnum x = true) w) (fieldsFrom word s).
Proof.
  revert word. induction s as [|x s IH]; intros word Hs Hword; cbn [fieldsFrom].
  - destruct word as [|y word]; [constructor|].
    constructor; [|constructor]. split.
    + cbn. by destruct (rev word).
    + by apply Forall_rev.
  - apply Forall_cons in Hs as [Hx Hs]. rewrite (cleanRune_space x Hx).
    destruct (N.eqb_spec x 32) as [->|Hne].
    + destruct word as [|y word]; [by apply IH|].
      constructor; [|by apply IH]. split.
      * cbn. by destruct (rev word).
      * by apply Forall_rev.
    + apply IH; [done|]. constructor; [|done].
      unfold cleanRune in Hx. apply orb_true_iff in Hx as [Hx|Hx]; [done|].
      by apply N.eqb_eq in Hx.
Qed.

Section Words.

Variable lowerTable : rune -> rune.
Variable stripMarks : text -> text.

(** X4.  What Clean returns is its words joined by single spaces: every
    word that strings.Fields finds in it is a non-empty run of lower-case
    ASCII letters and digits, and joining the words with one space gives
    the cleaned string back. *)
Theorem Clean_words s :
  let words := Fields (Clean lowerTable stripMarks s) in
  Join words (runes " ") = Clean lowerTable stripMarks s
  /\ Forall (fun w => w <> [] /\ Forall (fun x => isAlnum x = true) w) words
  /\ Fields (Join words (runes " ")) = words.
Proof.
  cbv zeta. destruct (Clean_cleaned lowerTable stripMarks s) as (Hs & Hsp & Hhead & Hend).
  assert (Hjoin : Join (Fields (Clean lowerTable stripMarks s)) (runes " ")
                  = Clean lowerTable stripMarks s).
  { unfold Fields. change (runes " ") with [32].
    rewrite fieldsFrom_cleaned; [done|done| |done].
    rewrite bool_decide_eq_true_2 by done.
    destruct (Clean lowerTable stripMarks s) as [|x t]; [done|].
    cbn [singleSpaced noSpaceAtHead] in *. by destruct (x =? 32). }
  split; [exact Hjoin|]. split; [by apply fieldsFrom_alnum|].
  by rewrite Hjoin.
Qed.

End Words.

(** X5.  tokenSetRatio depends on its arguments through their sets of
    words only: two strings made of the same words, in any order and
    with any repetition, each joined by single spaces, score the same
    against every other string, on either side. *)
Theorem tokenSetRatio_word_sets words words' s :
  Forall (fun w => w <> [] /\ Forall (fun x => unicode_IsSpace x = false) w) words ->
  Forall (fun w => w <> [] /\ Forall (fun x => unicode_IsSpace x = false) w) words' ->
  (forall w, w ∈ words <-> w ∈ words') ->
  tokenSetRatio (Join words (runes " ")) s = tokenSetRatio (Join words' (runes " ")) s
  /\ tokenSetRatio s (Join words (runes " ")) = tokenSetRatio s (Join words' (runes " ")).
Proof.
  intros Hwords Hwords' Hsame. unfold tokenSetRatio.
  rewrite !Fields_Join by done.
  assert (Hset : ToSet words = ToSet words').
  { unfold ToSet. apply set_eq. intros w. rewrite !elem_of_list_to_set. apply Hsame. }
  by rewrite Hset.
Qed.

Lemma tokenSetRatio_word_sets_witness :
  tokenSetRatio (runes "simon and garfunkel") (runes "garfunkel simon")
  = tokenSetRatio (runes "garfunkel and simon and simon") (runes "garfunkel simon").
Proof.
  refine (proj1 (tokenSetRatio_word_sets
                   [runes "simon"; runes "and"; runes "garfunkel"]
                   [runes "garfunkel"; runes "and"; runes "simon"; runes "and"; runes "simon"]
                   (runes "garfunkel simon") _ _ _)).
  - repeat constructor; try discriminate.
  - repeat constructor; try discriminate.
  - intros w. rewrite !elem_of_cons, !elem_of_nil. tauto.
Defined.

End WordFacts.

(** ** song_matcher.go: DeduplicateSongs *)

Module DedupFacts.
Import Matching.

Section Greedy.

Variable dup : Song -> Song -> bool.

Local Abbreviation pass := (fold_left (keepUnique dup)).

Lemma pass_grows songs acc :
  exists sel, pass songs acc = acc ++ sel /\ sel `sublist_of` songs.
Proof.
  revert acc. induction songs as [|s songs IH]; intros acc.
  - exists []. split; [by rewrite app_nil_r|constructor].
  - cbn [fold_left]. destruct (IH (keepUnique dup acc s)) as (sel & -> & Hsub).
    unfold keepUnique. destruct (negb _).
    + exists (s :: sel). split; [by rewrite <- app_assoc|by constructor].
    + exists sel. split; [reflexivity|by constructor].
Qed.

Lemma pass_prefix songs acc : acc `prefix_of` pass songs acc.
Proof. destruct (pass_grows songs acc) as (sel & -> & _). by exists sel. Qed.

Lemma pass_snoc pre s acc :
  pass (pre ++ [s]) acc = keepUnique dup (pass pre acc) s.
Proof. by rewrite fold_left_app. Qed.

Lemma pass_split pre s post acc :
  pass (pre ++ [s]) acc `prefix_of` pass (pre ++ s :: post) acc.
Proof.
  rewrite (cons_middle s pre post), app_assoc, (fold_left_app _ (pre ++ [s])).
  apply pass_prefix.
Qed.

Lemma fresh_existsb s kept :
  forallb (fun u => negb (dup s u)) kept = negb (existsb (fun u => dup s u) kept).
Proof.
  induction kept as [|u kept IH]; [reflexivity|].
  cbn. rewrite IH. by destruct (dup s u).
Qed.

Lemma keepUnique_fresh s kept :
  keepUnique dup kept s =
  if forallb (fun u => negb (dup s u)) kept then kept ++ [s] else kept.
Proof. unfold keepUnique. by rewrite fresh_existsb. Qed.

Lemma not_fresh_duplicate s kept :
  forallb (fun u => negb (dup s u)) kept = false ->
  exists u, u ∈ kept /\ dup s u = true.
Proof.
  rewrite fresh_existsb, negb_false_iff. intros (u & Hin & Hu)%existsb_exists.
  exists u. split; [by apply list_elem_of_In|exact Hu].
Qed.

Lemma pass_no_duplicate songs acc :
  (forall s u, dup s u = false) -> pass songs acc = acc ++ songs.
Proof.
  intros Hdup. revert acc. induction songs as [|s songs IH]; intros acc.
  - by rewrite app_nil_r.
  - cbn [fold_left]. rewrite IH. unfold keepUnique.
    assert (Hnone : existsb (fun u => dup s u) acc = false).
    { clear IH. induction acc as [|u acc IHacc]; [done|]. cbn. by rewrite Hdup. }
    rewrite Hnone. cbn [negb]. by rewrite <- app_assoc.
Qed.

(** The greedy pass, position by position. *)
Lemma pass_greedy songs :
  let D l := pass l [] in
  let fresh s kept := forallb (fun u => negb (dup s u)) kept in
  D [] = []
  /\ (forall pre s post, songs = pre ++ s :: post ->
        D (pre ++ [s]) = (if fresh s (D pre) then D pre ++ [s] else D pre)
        /\ D (pre ++ [s]) `prefix_of` D songs)
  /\ D songs `sublist_of` songs
  /\ (length (D songs) <= length songs)%nat
  /\ (forall pre s post, songs = pre ++ s :: post -> fresh s (D pre) = false ->
        exists u, u ∈ D pre /\ dup s u = true)
  /\ (forall s rest, songs = s :: rest -> exists sel, D songs = s :: sel).
Proof.
  cbv zeta. split; [reflexivity|].
  assert (Hsub : pass songs [] `sublist_of` songs).
  { by destruct (pass_grows songs []) as (sel & -> & Hsub). }
  repeat split.
  - by rewrite pass_snoc, keepUnique_fresh.
  - subst songs. apply pass_split.
  - exact Hsub.
  - by apply sublist_length.
  - intros pre s post _. apply not_fresh_duplicate.
  - intros s rest ->. cbn [fold_left].
    change (keepUnique dup [] s) with [s].
    destruct (pass_grows rest [s]) as (sel & -> & _). by exists sel.
Qed.

End Greedy.

Section Revisions.

Variable lowerTable : rune -> rune.
Variable stripMarks : text -> text.
Variable albumOf : Song -> text.

Local Abbreviation Score := (Weighted.CalculateSimilarity lowerTable stripMarks).
Local Abbreviation AreDuplicates := (Weighted.AreDuplicates lowerTable stripMarks).
Local Abbreviation DeduplicateSongs := (Weighted.DeduplicateSongs lowerTable stripMarks).

(** C5 (as amended).  DeduplicateSongs never fails and returns the
    greedy selection in the original order: the song at a position is
    selected exactly when the test [Score >= threshold] fails against
    every song selected before it, that is, when each such score is
    strictly below the threshold or the score or the threshold is NaN;
    with a NaN threshold every song is kept.  The songs selected so far
    stay a prefix of the result, the result is a subsequence of the
    input, no longer than it, a song that is dropped duplicates a song
    selected before it, and the first song is always selected. *)
Theorem DeduplicateSongs_greedy songs threshold :
  let D l := fst (DeduplicateSongs l threshold) in
  let fresh s kept := forallb (fun u => negb (AreDuplicates s u threshold)) kept in
  snd (DeduplicateSongs songs threshold) = None
  /\ D [] = []
  /\ (forall pre s post, songs = pre ++ s :: post ->
        D (pre ++ [s]) = (if fresh s (D pre) then D pre ++ [s] else D pre)
        /\ D (pre ++ [s]) `prefix_of` D songs)
  /\ D songs `sublist_of` songs
  /\ (length (D songs) <= length songs)%nat
  /\ (forall pre s post, songs = pre ++ s :: post -> fresh s (D pre) = false ->
        exists u, u ∈ D pre /\ AreDuplicates s u threshold = true)
  /\ (forall s rest, songs = s :: rest -> exists sel, D songs = s :: sel)
  /\ (forall s u,
        negb (AreDuplicates s u threshold)
        = (Score s u <? threshold)%float
          || PrimFloat.is_nan (Score s u) || PrimFloat.is_nan threshold)
  /\ (forall s kept,
        fresh s kept
        = forallb (fun u => (Score s u <? threshold)%float
                            || PrimFloat.is_nan (Score s u)
                            || PrimFloat.is_nan threshold) kept)
  /\ (PrimFloat.is_nan threshold = true -> D songs = songs).
Proof.
  cbv zeta. split; [reflexivity|].
  pose proof (pass_greedy (fun s u => AreDuplicates s u threshold) songs)
    as (H1 & H2 & H3 & H4 & H5 & H6).
  do 6 (split; [try assumption; try (by eapply H2); try (by eapply H5)|]).
  split; [intros s u; apply FloatFacts.geb_false_ltb_or_nan|].
  split.
  - intros s kept. induction kept as [|u kept IH]; [reflexivity|].
    cbn [forallb]. rewrite IH. f_equal. apply FloatFacts.geb_false_ltb_or_nan.
  - intros Hnan.
    apply (pass_no_duplicate (fun s u => AreDuplicates s u threshold) songs []).
    intros s u. by apply FloatFacts.leb_nan_l.
Qed.

(** The same holds of server/matching/song_matcher.go, whose loop is
    the same. *)
Lemma DeduplicateSongs_greedy_penalised songs threshold :
  let D l := fst (Penalised.DeduplicateSongs lowerTable stripMarks albumOf l threshold) in
  let fresh s kept :=
    forallb (fun u => negb (Penalised.AreDuplicates lowerTable stripMarks albumOf s u threshold))
            kept in
  D [] = []
  /\ (forall pre s post, songs = pre ++ s :: post ->
        D (pre ++ [s]) = (if fresh s (D pre) then D pre ++ [s] else D pre)
        /\ D (pre ++ [s]) `prefix_of` D songs)
  /\ D songs `sublist_of` songs
  /\ (length (D songs) <= length songs)%nat
  /\ (forall pre s post, songs = pre ++ s :: post -> fresh s (D pre) = false ->
        exists u, u ∈ D pre
          /\ Penalised.AreDuplicates lowerTable stripMarks albumOf s u threshold = true)
  /\ (forall s rest, songs = s :: rest -> exists sel, D songs = s :: sel).
Proof.
  exact (pass_greedy
           (fun s u => Penalised.AreDuplicates lowerTable stripMarks albumOf s u threshold)
           songs).
Qed.

End Revisions.

(** *** What the selection looks like *)

Section Selection.

Variable dup : Song -> Song -> bool.

Local Abbreviation pass := (fold_left (keepUnique dup)).

Lemma existsb_false_elem s kept :
  existsb (fun u => dup s u) kept = false <-> forall u, u ∈ kept -> dup s u = false.
Proof.
  split.
  - intros Hnone u Hin. destruct (dup s u) eqn:Hd; [|done].
    rewrite <- Hnone. symmetry. apply existsb_exists. exists u.
    split; [by apply list_elem_of_In|done].
  - intros Hall. destruct (existsb _ kept) eqn:He; [|done].
    apply existsb_exists in He as (u & Hin%list_elem_of_In & Hd).
    by rewrite (Hall u Hin) in Hd.
Qed.

Lemma noDuplicates_nil : noDuplicates dup [].
Proof. intros pre s post Heq. by destruct pre. Qed.

Lemma noDuplicates_snoc l s :
  noDuplicates dup l -> (forall u, u ∈ l -> dup s u = false) -> noDuplicates dup (l ++ [s]).
Proof.
  intros Hl Hs pre x post Heq u Hu.
  destruct post as [|y post _] using rev_ind.
  - apply (app_inj_tail l pre s x) in Heq as [-> ->]. by apply Hs.
  - rewrite app_comm_cons, app_assoc in Heq.
    apply app_inj_tail in Heq as [-> _]. by eapply Hl.
Qed.

Lemma pass_noDuplicates songs acc :
  noDuplicates dup acc -> noDuplicates dup (pass songs acc).
Proof.
  revert acc. induction songs as [|s songs IH]; intros acc Hacc; [done|].
  cbn [fold_left]. apply IH. unfold keepUnique.
  destruct (existsb _ acc) eqn:He; cbn; [done|].
  apply noDuplicates_snoc; [done|]. by apply existsb_false_elem.
Qed.

Lemma pass_fixed songs acc :
  noDuplicates dup (acc ++ songs) -> pass songs acc = acc ++ songs.
Proof.
  revert acc. induction songs as [|s songs IH]; intros acc Hall.
  - by rewrite app_nil_r.
  - cbn [fold_left]. unfold keepUnique.
    assert (Hs : existsb (fun u => dup s u) acc = false).
    { apply existsb_false_elem. intros u Hu. by eapply Hall. }
    rewrite Hs. cbn. rewrite IH; rewrite <- app_assoc; done.
Qed.

Lemma pass_fixed_iff songs : pass songs [] = songs <-> noDuplicates dup songs.
Proof.
  split.
  - intros <-. apply pass_noDuplicates, noDuplicates_nil.
  - intros Hall. by rewrite pass_fixed.
Qed.

End Selection.

Section Selected.

Variable lowerTable : rune -> rune.
Variable stripMarks : text -> text.
Variable albumOf : Song -> text.

Lemma DeduplicateSongs_no_duplicates_aux songs threshold :
  noDuplicates (fun s u => Weighted.AreDuplicates lowerTable stripMarks s u threshold)
    (fst (Weighted.DeduplicateSongs lowerTable stripMarks songs threshold))
  /\ noDuplicates
       (fun s u => Penalised.AreDuplicates lowerTable stripMarks albumOf s u threshold)
       (fst (Penalised.DeduplicateSongs lowerTable stripMarks albumOf songs threshold)).
Proof.
  split.
  - apply (pass_noDuplicates
             (fun s u => Weighted.AreDuplicates lowerTable stripMarks s u threshold)).
    apply noDuplicates_nil.
  - apply (pass_noDuplicates
             (fun s u => Penalised.AreDuplicates lowerTable stripMarks albumOf s u threshold)).
    apply noDuplicates_nil.
Qed.

(** X1.  No song that DeduplicateSongs returns is a duplicate, at the
    threshold, of a song returned before it: if the result is
    [pre ++ s :: post], the test [Score >= threshold] fails for [s]
    against every song of [pre]; this holds of the revision with the
    fixed weights and of server/matching/song_matcher.go. *)
Theorem DeduplicateSongs_no_duplicates songs threshold pre s post u :
  u ∈ pre ->
  (fst (Weighted.DeduplicateSongs lowerTable stripMarks songs threshold) = pre ++ s :: post ->
   Weighted.AreDuplicates lowerTable stripMarks s u threshold = false)
  /\ (fst (Penalised.DeduplicateSongs lowerTable stripMarks albumOf songs threshold)
      = pre ++ s :: post ->
      Penalised.AreDuplicates lowerTable stripMarks albumOf s u threshold = false).
Proof.
  intros Hu. destruct (DeduplicateSongs_no_duplicates_aux songs threshold) as [HW HP].
  split; intros Hout; [by eapply HW|by eapply HP].
Qed.

(** X2.  DeduplicateSongs returns its input unchanged exactly when no
    song of the input duplicates an earlier one, and so a second pass
    over its result changes nothing (both revisions). *)
Theorem DeduplicateSongs_idempotent songs threshold :
  let D := fun l => fst (Weighted.DeduplicateSongs lowerTable stripMarks l threshold) in
  let D' := fun l =>
    fst (Penalised.DeduplicateSongs lowerTable stripMarks albumOf l threshold) in
  (D songs = songs <->
   noDuplicates (fun s u => Weighted.AreDuplicates lowerTable stripMarks s u threshold) songs)
  /\ D (D songs) = D songs
  /\ (D' songs = songs <->
      noDuplicates
        (fun s u => Penalised.AreDuplicates lowerTable stripMarks albumOf s u threshold) songs)
  /\ D' (D' songs) = D' songs.
Proof.
  cbv zeta.
  pose proof (pass_fixed_iff
                (fun s u => Weighted.AreDuplicates lowerTable stripMarks s u threshold)) as HW.
  pose proof (pass_fixed_iff
                (fun s u => Penalised.AreDuplicates lowerTable stripMarks albumOf s u threshold))
    as HP.
  split; [apply HW|]. split.
  { apply HW, (pass_noDuplicates
                 (fun s u => Weighted.AreDuplicates lowerTable stripMarks s u threshold)).
    apply noDuplicates_nil. }
  split; [apply HP|].
  apply HP, (pass_noDuplicates
               (fun s u => Penalised.AreDuplicates lowerTable stripMarks albumOf s u threshold)).
  apply noDuplicates_nil.
Qed.

(** X3.  At a threshold of at most 100, DeduplicateSongs never returns
    two songs with the same non-empty ISRC (both revisions). *)
Theorem DeduplicateSongs_one_per_isrc songs threshold pre s post u :
  (threshold <=? 100)%float = true ->
  (fst (Weighted.DeduplicateSongs lowerTable stripMarks songs threshold) = pre ++ s :: post
   \/ fst (Penalised.DeduplicateSongs lowerTable stripMarks albumOf songs threshold)
      = pre ++ s :: post) ->
  u ∈ pre ->
  GetIsrc s <> [] ->
  GetIsrc s <> GetIsrc u.
Proof.
  intros Hmax Hout Hu Hisrc Heq.
  destruct (DeduplicateSongs_no_duplicates_aux songs threshold) as [HW HP].
  assert (Hsame : sameIsrc s u = true).
  { unfold sameIsrc. by rewrite !bool_decide_eq_true_2. }
  destruct Hout as [Hout|Hout].
  - specialize (HW pre s post Hout u Hu).
    unfold Weighted.AreDuplicates, Weighted.CalculateSimilarity in HW.
    rewrite Hsame in HW. congruence.
  - specialize (HP pre s post Hout u Hu).
    unfold Penalised.AreDuplicates, Penalised.CalculateSimilarity in HP.
    rewrite Hsame in HP. congruence.
Qed.

End Selected.

(** C5: with a NaN threshold the second of two equal songs is selected
    although its score against the first, which is selected, is not
    strictly below the threshold; at 90 it is dropped. *)
Lemma DeduplicateSongs_nan_threshold :
  fst (Weighted.DeduplicateSongs sampleLowerTable sampleStripMarks
         [Samples.halo; Samples.halo] PrimFloat.nan)
  = [Samples.halo; Samples.halo]
  /\ (Weighted.CalculateSimilarity sampleLowerTable sampleStripMarks
        Samples.halo Samples.halo <? PrimFloat.nan)%float = false
  /\ (90 <=? Weighted.CalculateSimilarity sampleLowerTable sampleStripMarks
               Samples.halo Samples.halo)%float = true
  /\ fst (Weighted.DeduplicateSongs sampleLowerTable sampleStripMarks
            [Samples.halo; Samples.halo] 90)
     = [Samples.halo].
Proof. repeat split; vm_compute; reflexivity. Qed.

Lemma DeduplicateSongs_no_duplicates_witness :
  Weighted.AreDuplicates sampleLowerTable sampleStripMarks
    Samples.haloCover Samples.halo 90 = false.
Proof.
  refine (proj1 (DeduplicateSongs_no_duplicates sampleLowerTable sampleStripMarks GetAlbum
                   [Samples.halo; Samples.haloCover] 90
                   [Samples.halo] Samples.haloCover [] Samples.halo _) _).
  - apply list_elem_of_singleton. reflexivity.
  - vm_compute. reflexivity.
Defined.

Lemma DeduplicateSongs_one_per_isrc_witness :
  GetIsrc Samples.heySingle <> GetIsrc Samples.haloSingle.
Proof.
  apply (DeduplicateSongs_one_per_isrc sampleLowerTable sampleStripMarks GetAlbum
           [Samples.haloSingle; Samples.heySingle; Samples.haloSingle] 90
           [Samples.haloSingle] Samples.heySingle [] Samples.haloSingle).
  - vm_compute. reflexivity.
  - left. vm_compute. reflexivity.
  - apply list_elem_of_singleton. reflexivity.
  - discriminate.
Defined.

End DedupFacts.

(** ** sync_status_broadcaster.go *)

Module BroadcasterFacts.
Import Broadcaster.

Lemma trySend_open syncRun ch chans c :
  chans !! ch = Some c -> closed c = false ->
  trySend syncRun ch chans =
  Some (if hasRoom c then <[ch := deliver syncRun c]> chans else chans,
        negb (hasRoom c)).
Proof.
  intros Hc Hopen. unfold trySend, hasRoom, deliver. rewrite Hc, Hopen.
  by destruct (_ <? _)%nat.
Qed.

Lemma sendAll_cons syncRun ch rest chans :
  sendAll syncRun (ch :: rest) chans =
  match trySend syncRun ch chans with
  | Some (chans1, skipped) =>
      match sendAll syncRun rest chans1 with
      | Some (chans2, skippedRest) =>
          Some (chans2, if skipped then ch :: skippedRest else skippedRest)
      | None => None
      end
  | None => None
  end.
Proof.
  cbn [sendAll]. destruct (trySend syncRun ch chans) as [[chans1 skipped]|]; [|reflexivity].
  cbn. by destruct (sendAll syncRun rest chans1) as [[chans2 skippedRest]|].
Qed.

(** The loop of Broadcast over distinct open channels. *)
Lemma sendAll_spec syncRun chs chans :
  NoDup chs ->
  (forall ch, ch ∈ chs -> exists c, chans !! ch = Some c /\ closed c = false) ->
  exists chans' skipped,
    sendAll syncRun chs chans = Some (chans', skipped)
    /\ (forall ch,
          chans' !! ch =
          match chans !! ch with
          | Some c =>
              Some (if bool_decide (ch ∈ chs) && hasRoom c then deliver syncRun c else c)
          | None => None
          end)
    /\ (forall ch, ch ∈ skipped <->
          ch ∈ chs /\ exists c, chans !! ch = Some c /\ hasRoom c = false).
Proof.
  intros Hnd. revert chans.
  induction Hnd as [|ch0 rest Hnotin Hnd IH]; intros chans Hopen.
  - exists chans, []. split; [reflexivity|]. split.
    + intros ch. by destruct (chans !! ch).
    + intros ch. split; [by intros ?%elem_of_nil|by intros [?%elem_of_nil _]].
  - destruct (Hopen ch0) as (c0 & Hc0 & Hopen0); [by left|].
    rewrite sendAll_cons, (trySend_open _ _ _ c0 Hc0 Hopen0).
    set (chans1 := if hasRoom c0 then <[ch0 := deliver syncRun c0]> chans else chans).
    assert (Hother : forall ch, ch <> ch0 -> chans1 !! ch = chans !! ch).
    { intros ch Hne. unfold chans1. destruct (hasRoom c0); [|reflexivity].
      by rewrite lookup_insert_ne. }
    assert (Hself : chans1 !! ch0 = Some (if hasRoom c0 then deliver syncRun c0 else c0)).
    { unfold chans1. destruct (hasRoom c0); [by rewrite lookup_insert_eq|exact Hc0]. }
    destruct (IH chans1) as (chans2 & skippedRest & -> & Hlook & Hskip).
    { intros ch Hin. destruct (Hopen ch) as (c & Hc & Hcl); [by right|].
      exists c. rewrite Hother; [done|]. intros ->. contradiction. }
    eexists _, _. split; [reflexivity|]. split.
    + intros ch. rewrite Hlook. destruct (decide (ch = ch0)) as [->|Hne].
      * rewrite Hself, Hc0. rewrite (bool_decide_eq_false_2 _ Hnotin).
        rewrite bool_decide_eq_true_2 by by left. cbn. by destruct (hasRoom c0).
      * rewrite (Hother ch Hne). destruct (chans !! ch) as [c|]; [|reflexivity].
        assert (Hdec : bool_decide (ch ∈ rest) = bool_decide (ch ∈ ch0 :: rest))
          by (apply bool_decide_ext; rewrite elem_of_cons; naive_solver).
        by rewrite Hdec.
    + intros ch.
      assert (Hrest : ch ∈ skippedRest <->
                ch ∈ rest /\ exists c, chans !! ch = Some c /\ hasRoom c = false).
      { rewrite Hskip. split; intros [Hin (c & Hc & Hfull)]; (split; [exact Hin|]);
          exists c; (split; [|exact Hfull]).
        - rewrite <- Hother; [exact Hc|]. intros ->. contradiction.
        - rewrite Hother; [exact Hc|]. intros ->. contradiction. }
      destruct (hasRoom c0) eqn:Hroom; cbn [negb].
      * rewrite Hrest, elem_of_cons. split; [naive_solver|].
        intros [Hcase (c & Hc & Hfull)].
        destruct Hcase as [Heq|Hin]; [subst ch|eauto].
        exfalso. rewrite Hc0 in Hc. apply (inj Some) in Hc. subst c.
        rewrite Hroom in Hfull. discriminate.
      * rewrite elem_of_cons, Hrest, elem_of_cons. split.
        -- intros [->|[Hin Hc]]; eauto.
        -- intros [[->|Hin] Hc]; eauto.
Qed.

(** *** The invariant holds in every state *)

Lemma wf_new : wf NewSyncStatusBroadcaster.
Proof. split; intros *; cbn; by rewrite lookup_empty. Qed.

(** A state whose registry only lost channels, all still open. *)
Lemma wf_shrink b b' :
  wf b ->
  (forall syncId chs', subscribers b' !! syncId = Some chs' ->
     exists chs, subscribers b !! syncId = Some chs
       /\ NoDup chs'
       /\ forall ch, ch ∈ chs' ->
            ch ∈ chs /\ exists c, channels b' !! ch = Some c /\ closed c = false) ->
  wf b'.
Proof.
  intros [Hreg Hone] Hsub. split.
  - intros syncId chs' Hl. destruct (Hsub _ _ Hl) as (chs & _ & Hnd & Hin).
    split; [exact Hnd|]. intros ch Hch. by apply Hin.
  - intros id1 id2 chs1 chs2 ch H1 H2 Hin1 Hin2.
    destruct (Hsub _ _ H1) as (l1 & Hl1 & _ & Hm1).
    destruct (Hsub _ _ H2) as (l2 & Hl2 & _ & Hm2).
    eapply (Hone id1 id2 l1 l2 ch); [done|done|by apply Hm1|by apply Hm2].
Qed.

Lemma wf_subscribe b syncId : wf b -> wf (fst (Subscribe b syncId)).
Proof.
  intros [Hreg Hone]. unfold Subscribe. cbn [fst].
  set (ch := fresh (dom (channels b))).
  assert (Hfresh : channels b !! ch = None).
  { apply not_elem_of_dom. apply is_fresh. }
  assert (Hnew : forall id chs, subscribers b !! id = Some chs -> ch ∉ chs).
  { intros id chs Hl Hin. destruct (Hreg _ _ Hl) as [_ Hc].
    destruct (Hc _ Hin) as (c & Hc' & _). congruence. }
  assert (Hold : ch ∉ default [] (subscribers b !! syncId)).
  { destruct (subscribers b !! syncId) as [chs|] eqn:Hl; cbn; [by eapply Hnew|].
    apply not_elem_of_nil. }
  split; cbn.
  - intros id chs Hl. destruct (decide (syncId = id)) as [<-|Hne].
    + rewrite lookup_insert_eq in Hl. injection Hl as <-. split.
      * apply NoDup_app. split; [|split; [|apply NoDup_singleton]].
        -- destruct (subscribers b !! syncId) as [chs|] eqn:Hl; cbn;
             [by apply (Hreg _ _ Hl)|constructor].
        -- intros x Hx ->%list_elem_of_singleton. contradiction.
      * intros x [Hx| ->%list_elem_of_singleton]%elem_of_app.
        -- destruct (subscribers b !! syncId) as [chs|] eqn:Hl; cbn in Hx;
             [|by apply elem_of_nil in Hx].
           destruct (Hreg _ _ Hl) as [_ Hc]. destruct (Hc _ Hx) as (c & Hc' & Hcl).
           exists c. rewrite lookup_insert_ne; [done|]. intros <-. congruence.
        -- eexists. rewrite lookup_insert_eq. done.
    + rewrite lookup_insert_ne in Hl by done.
      destruct (Hreg _ _ Hl) as [Hnd Hc]. split; [exact Hnd|].
      intros x Hx. destruct (Hc _ Hx) as (c & Hc' & Hcl).
      exists c. rewrite lookup_insert_ne; [done|]. intros <-. congruence.
  - intros id1 id2 chs1 chs2 x H1 H2 Hin1 Hin2.
    destruct (decide (syncId = id1)) as [<-|Hne1];
      destruct (decide (syncId = id2)) as [<-|Hne2]; [done| | |].
    + rewrite lookup_insert_eq in H1. injection H1 as <-.
      rewrite lookup_insert_ne in H2 by done.
      apply elem_of_app in Hin1 as [Hin1| ->%list_elem_of_singleton].
      * destruct (subscribers b !! syncId) as [chs|] eqn:Hl; cbn in Hin1;
          [|by apply elem_of_nil in Hin1].
        by eapply (Hone syncId id2).
      * exfalso. by eapply Hnew.
    + rewrite lookup_insert_eq in H2. injection H2 as <-.
      rewrite lookup_insert_ne in H1 by done.
      apply elem_of_app in Hin2 as [Hin2| ->%list_elem_of_singleton].
      * destruct (subscribers b !! syncId) as [chs|] eqn:Hl; cbn in Hin2;
          [|by apply elem_of_nil in Hin2].
        by eapply (Hone id1 syncId).
      * exfalso. by eapply Hnew.
    + rewrite lookup_insert_ne in H1 by done.
      rewrite lookup_insert_ne in H2 by done.
      by eapply Hone.
Qed.

Lemma removeFirst_sublist ch l : removeFirst ch l `sublist_of` l.
Proof.
  induction l as [|x l IH]; [constructor|].
  cbn. case_bool_decide; by constructor.
Qed.

Lemma removeFirst_not_elem ch l : NoDup l -> ch ∉ removeFirst ch l.
Proof.
  induction 1 as [|x l Hx Hnd IH]; cbn; [apply not_elem_of_nil|].
  case_bool_decide as Heq; [by subst|].
  rewrite not_elem_of_cons. split; [congruence|exact IH].
Qed.

Lemma wf_delete b syncId :
  wf b -> wf {| channels := channels b; subscribers := delete syncId (subscribers b) |}.
Proof.
  intros Hwf. apply (wf_shrink b); [exact Hwf|]. cbn.
  intros id chs' [Hne Hl]%lookup_delete_Some. exists chs'.
  destruct Hwf as [Hreg _]. destruct (Hreg _ _ Hl) as [Hnd Hc].
  split; [done|]. split; [done|]. intros x Hx. split; [done|by apply Hc].
Qed.

Lemma wf_remove b syncId ch chans :
  wf b -> ch ∈ registered b syncId ->
  closeChannel ch (channels b) = Some chans ->
  wf {| channels := chans;
        subscribers := <[syncId := removeFirst ch (registered b syncId)]> (subscribers b) |}.
Proof.
  intros Hwf Hin Hclose. pose proof Hwf as [Hreg Hone].
  unfold registered in *.
  destruct (subscribers b !! syncId) as [reg|] eqn:Hl; cbn in Hin |- *;
    [|by apply elem_of_nil in Hin].
  destruct (Hreg _ _ Hl) as [Hnd Hopen].
  unfold closeChannel in Hclose.
  destruct (channels b !! ch) as [c|] eqn:Hc; [|done].
  destruct (closed c); [done|]. injection Hclose as <-.
  apply (wf_shrink b); [exact Hwf|]. cbn. intros id chs' Hl'.
  destruct (decide (syncId = id)) as [<-|Hne].
  - rewrite lookup_insert_eq in Hl'. injection Hl' as <-.
    exists reg. split; [done|]. split.
    { eapply sublist_NoDup; [done|apply removeFirst_sublist]. }
    intros x Hx.
    assert (Hxr : x ∈ reg) by (eapply elem_of_sublist; [done|apply removeFirst_sublist]).
    split; [done|]. destruct (Hopen _ Hxr) as (cx & Hcx & Hcl).
    exists cx. rewrite lookup_insert_ne; [done|].
    intros <-. by apply (removeFirst_not_elem ch reg).
  - rewrite lookup_insert_ne in Hl' by done. exists chs'.
    destruct (Hreg _ _ Hl') as [Hnd' Hopen'].
    split; [done|]. split; [done|]. intros x Hx. split; [done|].
    destruct (Hopen' _ Hx) as (cx & Hcx & Hcl).
    exists cx. rewrite lookup_insert_ne; [done|].
    intros <-. apply Hne. by eapply (Hone syncId id reg chs' ch).
Qed.

Lemma wf_unsubscribe b syncId ch b' :
  wf b -> Unsubscribe b syncId ch = Some b' -> wf b'.
Proof.
  intros Hwf. unfold Unsubscribe.
  fold (registered b syncId).
  case_bool_decide as Hin.
  - destruct (closeChannel ch (channels b)) as [chans|] eqn:Hclose; cbn; [|done].
    pose proof (wf_remove b syncId ch chans Hwf Hin Hclose) as Hwf1.
    case_bool_decide; intros [= <-]; [by apply (wf_delete _ syncId Hwf1)|done].
  - cbn. case_bool_decide; intros [= <-]; [by apply wf_delete|done].
Qed.

(** Sends and receives leave the registry and the open channels open. *)
Lemma wf_channels b chans :
  wf b ->
  (forall ch c, channels b !! ch = Some c -> closed c = false ->
     exists c', chans !! ch = Some c' /\ closed c' = false) ->
  wf {| channels := chans; subscribers := subscribers b |}.
Proof.
  intros Hwf Hkeep. apply (wf_shrink b); [exact Hwf|]. cbn.
  intros id chs Hl. exists chs. destruct Hwf as [Hreg _].
  destruct (Hreg _ _ Hl) as [Hnd Hopen].
  split; [done|]. split; [done|]. intros x Hx. split; [done|].
  destruct (Hopen _ Hx) as (c & Hc & Hcl). by eapply Hkeep.
Qed.

Lemma wf_receive b ch : wf b -> wf (Receive b ch).
Proof.
  intros Hwf. unfold Receive.
  destruct (channels b !! ch) as [c|] eqn:Hc; [|done].
  apply wf_channels; [done|]. intros x cx Hx Hcl.
  destruct (decide (ch = x)) as [<-|Hne].
  - rewrite lookup_insert_eq. eexists. split; [done|]. cbn. congruence.
  - rewrite lookup_insert_ne by done. eauto.
Qed.

Lemma wf_close b b' : Close b = Some b' -> wf b'.
Proof.
  unfold Close. destruct (closeAll _ _); cbn; [|done].
  intros [= <-]. split; intros *; cbn; by rewrite lookup_empty.
Qed.

Lemma wf_broadcast b syncRun b' skipped :
  wf b -> Broadcast b syncRun = Some (b', skipped) -> wf b'.
Proof.
  intros Hwf. unfold Broadcast.
  destruct (subscribers b !! GetSyncId syncRun) as [chs|] eqn:Hl; [|by intros [= <- _]].
  pose proof Hwf as [Hreg _]. destruct (Hreg _ _ Hl) as [Hnd Hopen].
  destruct (sendAll_spec syncRun chs (channels b) Hnd Hopen)
    as (chans & sk & -> & Hlook & _).
  cbn. intros [= <- _]. apply wf_channels; [done|].
  intros ch c Hc Hcl. rewrite Hlook, Hc. eexists. split; [done|].
  by destruct (_ && _).
Qed.

Lemma reachable_wf b : reachable b -> wf b.
Proof.
  induction 1;
    eauto using wf_new, wf_subscribe, wf_unsubscribe, wf_broadcast, wf_receive, wf_close.
Qed.

(** Broadcast does not panic: it never sends on a closed channel. *)
Lemma Broadcast_total b syncRun :
  reachable b -> exists b' skipped, Broadcast b syncRun = Some (b', skipped).
Proof.
  intros [Hreg _]%reachable_wf. unfold Broadcast.
  destruct (subscribers b !! GetSyncId syncRun) as [chs|] eqn:Hl; cbn; [|eauto].
  destruct (Hreg _ _ Hl) as [Hnd Hopen].
  destruct (sendAll_spec syncRun chs (channels b) Hnd Hopen) as (chans & sk & -> & _).
  cbn. eauto.
Qed.

(** C9.  In every state of the broadcaster, Broadcast returns at once
    (it waits for no subscriber and does not panic): the update is
    appended to the buffer of each channel registered under its sync id
    that has room, a full channel is skipped (with a warning) and keeps
    its buffer, every other channel, and so every channel registered
    under another sync id, is left as it was, and the registry is
    unchanged. *)
Theorem Broadcast_send_or_drop b syncRun :
  reachable b ->
  let chs := registered b (GetSyncId syncRun) in
  exists b' skipped,
    Broadcast b syncRun = Some (b', skipped)
    /\ subscribers b' = subscribers b
    /\ (forall ch,
          channels b' !! ch =
          match channels b !! ch with
          | Some c =>
              Some (if bool_decide (ch ∈ chs) && hasRoom c then deliver syncRun c else c)
          | None => None
          end)
    /\ (forall ch, ch ∈ skipped <->
          ch ∈ chs /\ exists c, channels b !! ch = Some c /\ hasRoom c = false)
    /\ (forall syncId ch, syncId <> GetSyncId syncRun -> ch ∈ registered b syncId ->
          channels b' !! ch = channels b !! ch).
Proof.
  intros Hwf%reachable_wf. cbv zeta. unfold Broadcast, registered.
  pose proof Hwf as [Hreg Hone].
  destruct (subscribers b !! GetSyncId syncRun) as [chs|] eqn:Hl; cbn.
  - destruct (Hreg _ _ Hl) as [Hnd Hopen].
    destruct (sendAll_spec syncRun chs (channels b) Hnd Hopen)
      as (chans & sk & -> & Hlook & Hskip).
    cbn. exists {| channels := chans; subscribers := subscribers b |}, sk.
    split; [done|]. split; [done|]. split; [exact Hlook|]. split; [exact Hskip|].
    intros id ch Hne Hin. cbn. rewrite Hlook.
    destruct (channels b !! ch) as [c|]; [|done].
    destruct (subscribers b !! id) as [chs'|] eqn:Hl'; cbn in Hin;
      [|by apply elem_of_nil in Hin].
    rewrite bool_decide_eq_false_2; [done|].
    intros Hin'. apply Hne. by eapply (Hone id _ chs' chs ch).
  - exists b, []. split; [done|]. split; [done|]. split.
    { intros ch. destruct (channels b !! ch) as [c|]; [|done].
      rewrite bool_decide_eq_false_2; [done|apply not_elem_of_nil]. }
    split; [|done].
    intros ch. split; [by intros ?%elem_of_nil|by intros [?%elem_of_nil _]].
Qed.

(** *** The channels stay bounded *)

Lemma bounded_insert chans ch c :
  boundedChannels chans ->
  capacity c = 10%nat -> (length (buffer c) <= capacity c)%nat ->
  boundedChannels (<[ch := c]> chans).
Proof.
  intros Hb Hcap Hlen x cx. destruct (decide (ch = x)) as [<-|Hne].
  - rewrite lookup_insert_eq. by intros [= <-].
  - rewrite lookup_insert_ne by done. apply Hb.
Qed.

Lemma closeChannel_bounded ch chans chans' :
  boundedChannels chans -> closeChannel ch chans = Some chans' ->
  boundedChannels chans'.
Proof.
  intros Hb. unfold closeChannel.
  destruct (chans !! ch) as [c|] eqn:Hc; [|done].
  destruct (closed c); [done|]. intros [= <-].
  destruct (Hb _ _ Hc). by apply bounded_insert.
Qed.

Lemma closeAll_bounded chs chans chans' :
  boundedChannels chans -> closeAll chs chans = Some chans' ->
  boundedChannels chans'.
Proof.
  revert chans. induction chs as [|ch chs IH]; intros chans Hb; cbn.
  - by intros [= <-].
  - destruct (closeChannel ch chans) as [chans1|] eqn:Hc; cbn; [|done].
    apply IH. by eapply closeChannel_bounded.
Qed.

Lemma trySend_bounded syncRun ch chans chans' skipped :
  boundedChannels chans -> trySend syncRun ch chans = Some (chans', skipped) ->
  boundedChannels chans'.
Proof.
  intros Hb. unfold trySend.
  destruct (chans !! ch) as [c|] eqn:Hc; [|by intros [= <- _]].
  destruct (closed c); [done|].
  destruct (length (buffer c) <? capacity c)%nat eqn:Hroom; [|by intros [= <- _]].
  intros [= <- _]. destruct (Hb _ _ Hc) as [Hcap _].
  apply bounded_insert; [done|done|]. cbn.
  apply Nat.ltb_lt in Hroom. rewrite length_app. cbn. lia.
Qed.

Lemma sendAll_bounded syncRun chs chans chans' skipped :
  boundedChannels chans -> sendAll syncRun chs chans = Some (chans', skipped) ->
  boundedChannels chans'.
Proof.
  revert chans skipped. induction chs as [|ch chs IH]; intros chans skipped Hb.
  - by intros [= <- _].
  - rewrite sendAll_cons.
    destruct (trySend syncRun ch chans) as [[chans1 sk]|] eqn:Ht; [|done].
    destruct (sendAll syncRun chs chans1) as [[chans2 skr]|] eqn:Hs; [|done].
    intros [= <- _]. eapply IH; [|exact Hs]. by eapply trySend_bounded.
Qed.

(** X6.  In every state of the broadcaster every channel is one for ten
    updates and holds at most ten: whatever the subscribers read or fail
    to read, a channel never grows beyond its buffer. *)
Lemma reachable_bounded b : reachable b -> bounded b.
Proof.
  unfold bounded. induction 1 as [|b syncId _ IH|b syncId ch b' _ IH Hu
    |b syncRun b' skipped _ IH Hb|b ch _ IH|b b' _ IH Hc].
  - intros ch c. cbn. by rewrite lookup_empty.
  - cbn. apply bounded_insert; [done|done|cbn; lia].
  - unfold Unsubscribe in Hu. revert Hu. case_bool_decide.
    + destruct (closeChannel ch (channels b)) as [chans|] eqn:Hclose; cbn; [|done].
      pose proof (closeChannel_bounded _ _ _ IH Hclose).
      by case_bool_decide; intros [= <-].
    + cbn. by case_bool_decide; intros [= <-].
  - unfold Broadcast in Hb.
    destruct (subscribers b !! GetSyncId syncRun) as [chs|]; [|by injection Hb as <- _].
    destruct (sendAll syncRun chs (channels b)) as [[chans sk]|] eqn:Hs; [|done].
    injection Hb as <- _. by eapply sendAll_bounded.
  - unfold Receive. destruct (channels b !! ch) as [c|] eqn:Hc; [|done].
    destruct (IH _ _ Hc) as [Hcap Hlen]. cbn.
    apply bounded_insert; [done|done|]. cbn.
    destruct (buffer c); cbn in *; lia.
  - unfold Close in Hc.
    destruct (closeAll _ (channels b)) as [chans|] eqn:Hcl; [|done].
    injection Hc as <-. by eapply closeAll_bounded.
Qed.

(** *** Leaving: Unsubscribe and Close *)

Lemma removeFirst_nil_inv ch l : NoDup l -> ch ∈ l -> removeFirst ch l = [] -> l = [ch].
Proof.
  destruct l as [|x l]; cbn; [by intros _ ?%elem_of_nil|].
  case_bool_decide as Hx; [by intros _ _ ->; subst|done].
Qed.

Lemma removeFirst_elem ch l x : x <> ch -> x ∈ removeFirst ch l <-> x ∈ l.
Proof.
  intros Hne. induction l as [|y l IH]; cbn; [done|].
  case_bool_decide as Hy.
  - subst y. rewrite elem_of_cons. naive_solver.
  - rewrite !elem_of_cons, IH. done.
Qed.

Lemma removeFirst_snoc ch l : ch ∉ l -> removeFirst ch (l ++ [ch]) = l.
Proof.
  induction l as [|x l IH]; intros Hnotin; cbn.
  - by rewrite bool_decide_eq_true_2.
  - apply not_elem_of_cons in Hnotin as [Hne Hnotin].
    rewrite bool_decide_eq_false_2 by done. by rewrite IH.
Qed.

Lemma noEmptyEntry_unsubscribe b syncId ch b' :
  noEmptyEntry b -> Unsubscribe b syncId ch = Some b' -> noEmptyEntry b'.
Proof.
  intros Hne. unfold Unsubscribe.
  assert (Hdel : forall b1, (forall id chs, id <> syncId ->
                               subscribers b1 !! id = Some chs -> chs <> []) ->
                 forall b2,
                   (if bool_decide (length (default [] (subscribers b1 !! syncId)) = 0%nat)
                    then Some {| channels := channels b1;
                                 subscribers := delete syncId (subscribers b1) |}
                    else Some b1) = Some b2 -> noEmptyEntry b2).
  { intros b1 Hb1 b2. case_bool_decide as Hlen; intros [= <-]; intros id chs; cbn.
    - intros [Hid Hl]%lookup_delete_Some. by eapply Hb1.
    - destruct (decide (id = syncId)) as [->|Hid]; [|by apply Hb1].
      intros Hl Hnil. apply Hlen. by rewrite Hl, Hnil. }
  case_bool_decide as Hin.
  - destruct (closeChannel ch (channels b)) as [chans|]; cbn [mbind option_bind]; [|done].
    apply (Hdel {| channels := chans;
                   subscribers := <[syncId := removeFirst ch (default [] (subscribers b !! syncId))]>
                                    (subscribers b) |}).
    cbn. intros id chs Hid. rewrite lookup_insert_ne by done. apply Hne.
  - cbn [mbind option_bind]. apply Hdel. intros id chs _. apply Hne.
Qed.

Lemma reachable_noEmptyEntry b : reachable b -> noEmptyEntry b.
Proof.
  induction 1 as [|b syncId _ IH|b syncId ch b' _ IH Hu
    |b syncRun b' skipped _ IH Hb|b ch _ IH|b b' _ IH Hc].
  - intros id chs. cbn. by rewrite lookup_empty.
  - intros id chs. cbn. destruct (decide (syncId = id)) as [->|Hid].
    + rewrite lookup_insert_eq. intros [= <-]. by destruct (default [] _).
    + rewrite lookup_insert_ne by done. apply IH.
  - by eapply noEmptyEntry_unsubscribe.
  - unfold Broadcast in Hb.
    destruct (subscribers b !! GetSyncId syncRun) as [chs|]; [|by injection Hb as <- _].
    destruct (sendAll syncRun chs (channels b)) as [[chans sk]|]; [|done].
    by injection Hb as <- _.
  - unfold Receive. by destruct (channels b !! ch).
  - unfold Close in Hc. destruct (closeAll _ _); [|done].
    injection Hc as <-. intros id chs. cbn. by rewrite lookup_empty.
Qed.

(** X7.  In every state of the broadcaster Unsubscribe returns without
    closing a closed channel.  For a channel that is not registered under
    the sync id it changes nothing.  For a registered one it closes the
    channel, which keeps its buffer, removes it from the subscribers of
    the sync id and leaves every other channel and every other sync id
    as they were; the sync id leaves the registry with its last
    subscriber. *)
Theorem Unsubscribe_closes_once b syncId ch :
  reachable b ->
  exists b',
    Unsubscribe b syncId ch = Some b'
    /\ (ch ∉ registered b syncId -> b' = b)
    /\ (ch ∈ registered b syncId ->
        (exists c, channels b !! ch = Some c /\ closed c = false
                   /\ channels b' !! ch = Some (closedChannel c))
        /\ (forall x, x <> ch -> channels b' !! x = channels b !! x)
        /\ (ch ∉ registered b' syncId)
        /\ (forall x, x <> ch -> x ∈ registered b' syncId <-> x ∈ registered b syncId)
        /\ (forall id, id <> syncId -> subscribers b' !! id = subscribers b !! id)
        /\ (subscribers b' !! syncId = None <-> registered b syncId = [ch])).
Proof.
  intros Hreach. pose proof (reachable_wf b Hreach) as [Hreg Hone].
  pose proof (reachable_noEmptyEntry b Hreach) as Hne.
  unfold Unsubscribe, registered.
  destruct (subscribers b !! syncId) as [reg|] eqn:Hl; cbn [default].
  - destruct (Hreg _ _ Hl) as [Hnd Hopen].
    case_bool_decide as Hin.
    + destruct (Hopen _ Hin) as (c & Hc & Hcl).
      unfold closeChannel. rewrite Hc, Hcl. cbn. rewrite lookup_insert_eq. cbn.
      assert (Hnotin : ch ∉ removeFirst ch reg) by by apply removeFirst_not_elem.
      case_bool_decide as Hlen; eexists; (split; [reflexivity|]); (split; [done|]);
        intros _; cbn.
      * apply nil_length_inv in Hlen.
        split; [exists c; by rewrite lookup_insert_eq|].
        split; [intros x Hx; by rewrite lookup_insert_ne|].
        rewrite lookup_delete_eq. cbn.
        split; [apply not_elem_of_nil|].
        split. { intros x Hx. rewrite <- (removeFirst_elem ch reg x Hx), Hlen. done. }
        split; [intros id Hid; by rewrite lookup_delete_ne, lookup_insert_ne|].
        split; [intros _; by apply removeFirst_nil_inv|done].
      * split; [exists c; by rewrite lookup_insert_eq|].
        split; [intros x Hx; by rewrite lookup_insert_ne|].
        rewrite lookup_insert_eq. cbn.
        split; [done|]. split; [intros x Hx; by apply removeFirst_elem|].
        split; [intros id Hid; by rewrite lookup_insert_ne|].
        split; [done|]. intros ->. exfalso. apply Hlen. cbn.
        by rewrite bool_decide_eq_true_2.
    + cbn. rewrite Hl. cbn.
      rewrite bool_decide_eq_false_2.
      * eexists. split; [reflexivity|]. split; done.
      * intros Hlen%nil_length_inv. by eapply Hne.
  - rewrite bool_decide_eq_false_2 by apply not_elem_of_nil. cbn. rewrite Hl. cbn.
    eexists. split; [reflexivity|]. split.
    + intros _. rewrite delete_id by done. by destruct b.
    + by intros ?%elem_of_nil.
Qed.

Lemma Subscribe_fresh b syncId : channels b !! snd (Subscribe b syncId) = None.
Proof. cbn. apply not_elem_of_dom, is_fresh. Qed.

(** X8.  Subscribe makes a new, empty, open channel for ten updates and
    registers it last under the sync id; unsubscribing that channel
    right away closes it and puts the registry back as it was. *)
Theorem Subscribe_then_Unsubscribe b syncId :
  reachable b ->
  let b1 := fst (Subscribe b syncId) in
  let ch := snd (Subscribe b syncId) in
  channels b !! ch = None
  /\ channels b1 !! ch = Some (mkChannel [] 10 false)
  /\ registered b1 syncId = registered b syncId ++ [ch]
  /\ (forall id, id <> syncId -> registered b1 id = registered b id)
  /\ exists b2,
       Unsubscribe b1 syncId ch = Some b2
       /\ subscribers b2 = subscribers b
       /\ channels b2 = <[ch := mkChannel [] 10 true]> (channels b).
Proof.
  intros Hreach. cbv zeta.
  pose proof (reachable_wf b Hreach) as [Hreg _].
  pose proof (reachable_noEmptyEntry b Hreach) as Hne.
  pose proof (Subscribe_fresh b syncId) as Hfresh.
  set (ch := snd (Subscribe b syncId)) in *.
  assert (Hnotin : ch ∉ registered b syncId).
  { unfold registered. destruct (subscribers b !! syncId) as [reg|] eqn:Hl; cbn [default];
      [|apply not_elem_of_nil].
    intros Hin. destruct (Hreg _ _ Hl) as [_ Hopen].
    destruct (Hopen _ Hin) as (c & Hc & _). congruence. }
  split; [exact Hfresh|]. split; [cbn; by rewrite lookup_insert_eq|].
  split; [unfold registered; cbn; by rewrite lookup_insert_eq|].
  split; [intros id Hid; unfold registered; cbn; by rewrite lookup_insert_ne|].
  unfold Unsubscribe. cbn [fst Subscribe channels subscribers]. fold ch.
  fold (registered b syncId). rewrite lookup_insert_eq. cbn [default].
  rewrite bool_decide_eq_true_2 by (apply elem_of_app; right; by apply list_elem_of_singleton).
  unfold closeChannel. rewrite lookup_insert_eq. cbn.
  rewrite lookup_insert_eq. cbn. rewrite removeFirst_snoc by done.
  rewrite !insert_insert_eq.
  unfold registered in *.
  destruct (subscribers b !! syncId) as [reg|] eqn:Hl; cbn [default] in *.
  - rewrite bool_decide_eq_false_2.
    + eexists. split; [reflexivity|]. cbn. split; [|done]. by rewrite insert_id.
    + intros Hlen%nil_length_inv. by eapply Hne.
  - rewrite bool_decide_eq_true_2 by done.
    eexists. split; [reflexivity|]. cbn. split; [|done].
    by rewrite delete_insert_eq, delete_id.
Qed.

Lemma closeAll_spec chs chans :
  NoDup chs ->
  (forall ch, ch ∈ chs -> exists c, chans !! ch = Some c /\ closed c = false) ->
  exists chans',
    closeAll chs chans = Some chans'
    /\ forall ch,
         chans' !! ch =
         match chans !! ch with
         | Some c => Some (if bool_decide (ch ∈ chs) then closedChannel c else c)
         | None => None
         end.
Proof.
  intros Hnd. revert chans.
  induction Hnd as [|ch0 rest Hnotin Hnd IH]; intros chans Hopen.
  - exists chans. split; [done|]. intros ch.
    rewrite bool_decide_eq_false_2 by apply not_elem_of_nil. by destruct (chans !! ch).
  - destruct (Hopen ch0) as (c0 & Hc0 & Hcl0); [by left|].
    cbn [closeAll]. unfold closeChannel at 1. rewrite Hc0, Hcl0. cbn.
    destruct (IH (<[ch0 := mkChannel (buffer c0) (capacity c0) true]> chans))
      as (chans' & -> & Hlook).
    { intros ch Hin. destruct (Hopen ch) as (c & Hc & Hcl); [by right|].
      exists c. rewrite lookup_insert_ne; [done|]. by intros <-. }
    exists chans'. split; [done|]. intros ch. rewrite Hlook.
    destruct (decide (ch0 = ch)) as [<-|Hne].
    + rewrite lookup_insert_eq, Hc0.
      rewrite bool_decide_eq_false_2 by done.
      rewrite bool_decide_eq_true_2 by by left. done.
    + rewrite lookup_insert_ne by done. destruct (chans !! ch) as [c|]; [|done].
      assert (Hsame : bool_decide (ch ∈ rest) = bool_decide (ch ∈ ch0 :: rest)).
      { apply bool_decide_ext. rewrite elem_of_cons. naive_solver. }
      by rewrite Hsame.
Qed.

Lemma elem_of_concat_snd {K} (l : list (K * list nat)) ch :
  ch ∈ concat (map snd l) <-> exists k chs, (k, chs) ∈ l /\ ch ∈ chs.
Proof.
  induction l as [|[k chs] l IH]; cbn.
  - split; [by intros ?%elem_of_nil|]. by intros (? & ? & ?%elem_of_nil & _).
  - rewrite elem_of_app, IH. split.
    + intros [Hin|(k' & chs' & Hin & Hch)].
      * exists k, chs. split; [by left|done].
      * exists k', chs'. split; [by right|done].
    + intros (k' & chs' & Hin & Hch). apply elem_of_cons in Hin as [[= -> ->]|Hin].
      * by left.
      * right. by exists k', chs'.
Qed.

Lemma NoDup_concat_snd {K} (l : list (K * list nat)) :
  NoDup (map fst l) ->
  (forall k chs, (k, chs) ∈ l -> NoDup chs) ->
  (forall k1 k2 chs1 chs2 ch,
     (k1, chs1) ∈ l -> (k2, chs2) ∈ l -> ch ∈ chs1 -> ch ∈ chs2 -> k1 = k2) ->
  NoDup (concat (map snd l)).
Proof.
  induction l as [|[k chs] l IH]; cbn; intros Hkeys Hnd Hone; [constructor|].
  apply NoDup_cons in Hkeys as [Hk Hkeys].
  apply NoDup_app. split; [by apply (Hnd k); left|]. split.
  - intros ch Hch (k' & chs' & Hin & Hch')%elem_of_concat_snd.
    assert (k = k') as <-.
    { apply (Hone k k' chs chs' ch); [by left|by right|done|done]. }
    apply Hk. apply list_elem_of_fmap. by exists (k, chs').
  - apply IH; [done| |].
    + intros k' chs' Hin. apply (Hnd k'). by right.
    + intros k1 k2 chs1 chs2 ch H1 H2. apply Hone; by right.
Qed.

(** X9.  In every state of the broadcaster Close returns without closing
    a closed channel: it closes every registered channel, which keeps
    its buffer, leaves the other channels as they were and empties the
    registry.  After it a Broadcast reaches no channel and an
    Unsubscribe changes nothing, and neither panics. *)
Theorem Close_closes_all b :
  reachable b ->
  exists b',
    Close b = Some b'
    /\ subscribers b' = ∅
    /\ (forall syncId ch, ch ∈ registered b syncId ->
          exists c, channels b !! ch = Some c /\ closed c = false
                    /\ channels b' !! ch = Some (closedChannel c))
    /\ (forall ch, (forall syncId, ch ∉ registered b syncId) ->
          channels b' !! ch = channels b !! ch)
    /\ (forall syncRun, Broadcast b' syncRun = Some (b', []))
    /\ (forall syncId ch, Unsubscribe b' syncId ch = Some b').
Proof.
  intros Hreach. pose proof (reachable_wf b Hreach) as [Hreg Hone].
  set (all := concat (map snd (map_to_list (subscribers b)))).
  assert (Hall : forall ch, ch ∈ all <-> exists syncId, ch ∈ registered b syncId).
  { intros ch. unfold all. rewrite elem_of_concat_snd. unfold registered. split.
    - intros (id & chs & Hin%elem_of_map_to_list & Hch). exists id. by rewrite Hin.
    - intros (id & Hch). destruct (subscribers b !! id) as [chs|] eqn:Hl;
        [|by apply elem_of_nil in Hch].
      exists id, chs. split; [by apply elem_of_map_to_list|done]. }
  assert (Hnd : NoDup all).
  { apply NoDup_concat_snd.
    - apply NoDup_fst_map_to_list.
    - intros id chs Hin%elem_of_map_to_list. by apply (Hreg id).
    - intros id1 id2 chs1 chs2 ch H1%elem_of_map_to_list H2%elem_of_map_to_list.
      by apply Hone. }
  destruct (closeAll_spec all (channels b) Hnd) as (chans & Hclose & Hlook).
  { intros ch (id & Hch)%Hall. unfold registered in Hch.
    destruct (subscribers b !! id) as [chs|] eqn:Hl; [|by apply elem_of_nil in Hch].
    by apply (Hreg id chs). }
  unfold Close. fold all. rewrite Hclose. cbn.
  eexists. split; [reflexivity|]. cbn. split; [done|]. split.
  { intros id ch Hch. assert (Hin : ch ∈ all) by (apply Hall; by exists id).
    unfold registered in Hch.
    destruct (subscribers b !! id) as [chs|] eqn:Hl; [|by apply elem_of_nil in Hch].
    destruct (Hreg id chs Hl) as [_ Hopen]. destruct (Hopen ch Hch) as (c & Hc & Hcl).
    exists c. split; [done|]. split; [done|].
    by rewrite Hlook, Hc, bool_decide_eq_true_2. }
  split.
  { intros ch Hch. rewrite Hlook. destruct (channels b !! ch) as [c|]; [|done].
    rewrite bool_decide_eq_false_2; [done|].
    intros (id & Hin)%Hall. by apply (Hch id). }
  split.
  { intros syncRun. unfold Broadcast. cbn. by rewrite lookup_empty. }
  intros id ch. unfold Unsubscribe. cbn. rewrite lookup_empty. cbn.
  rewrite bool_decide_eq_false_2 by apply not_elem_of_nil. cbn.
  rewrite lookup_empty. cbn. rewrite bool_decide_eq_true_2 by done.
  by rewrite delete_empty.
Qed.

(** *** What a subscriber finds on its channel *)

(** What Broadcast does to the channels, for the proofs below. *)
Lemma Broadcast_lookup b syncRun :
  reachable b ->
  exists b' skipped,
    Broadcast b syncRun = Some (b', skipped)
    /\ reachable b'
    /\ subscribers b' = subscribers b
    /\ forall ch,
         channels b' !! ch =
         match channels b !! ch with
         | Some c =>
             Some (if bool_decide (ch ∈ registered b (GetSyncId syncRun)) && hasRoom c
                   then deliver syncRun c else c)
         | None => None
         end.
Proof.
  intros Hreach. pose proof (reachable_wf b Hreach) as [Hreg _].
  assert (Hb : exists b' skipped,
             Broadcast b syncRun = Some (b', skipped)
             /\ subscribers b' = subscribers b
             /\ forall ch,
                  channels b' !! ch =
                  match channels b !! ch with
                  | Some c =>
                      Some (if bool_decide (ch ∈ registered b (GetSyncId syncRun))
                               && hasRoom c
                            then deliver syncRun c else c)
                  | None => None
                  end).
  { unfold Broadcast, registered.
    destruct (subscribers b !! GetSyncId syncRun) as [chs|] eqn:Hl; cbn.
    - destruct (Hreg _ _ Hl) as [Hnd Hopen].
      destruct (sendAll_spec syncRun chs (channels b) Hnd Hopen)
        as (chans & sk & -> & Hlook & _).
      cbn. by eexists _, _.
    - eexists _, _. split; [reflexivity|]. split; [done|]. intros ch.
      rewrite bool_decide_eq_false_2 by apply not_elem_of_nil.
      by destruct (channels b !! ch). }
  destruct Hb as (b' & sk & Hb & Hsub & Hlook).
  exists b', sk. split; [done|]. split; [by eapply reach_broadcast|]. by split.
Qed.

Lemma BroadcastAll_buffer b syncId ch c syncRuns :
  reachable b ->
  ch ∈ registered b syncId ->
  channels b !! ch = Some c ->
  exists b' c',
    BroadcastAll b syncRuns = Some b'
    /\ reachable b'
    /\ subscribers b' = subscribers b
    /\ channels b' !! ch = Some c'
    /\ capacity c' = capacity c
    /\ buffer c' =
       buffer c ++ take (capacity c - length (buffer c))
                        (List.filter (fun r => bool_decide (GetSyncId r = syncId)) syncRuns).
Proof.
  revert b c. induction syncRuns as [|syncRun rest IH]; intros b c Hreach Hin Hc.
  - exists b, c. cbn. rewrite take_nil, app_nil_r. done.
  - destruct (Broadcast_lookup b syncRun Hreach) as (b1 & sk & Hb & Hreach1 & Hsub & Hlook).
    cbn [BroadcastAll]. rewrite Hb. cbn.
    assert (Hin1 : ch ∈ registered b1 syncId) by (unfold registered; by rewrite Hsub).
    specialize (Hlook ch). rewrite Hc in Hlook.
    destruct (IH b1 _ Hreach1 Hin1 Hlook) as (b' & c' & -> & Hreach' & Hsub' & Hc' & Hcap & Hbuf).
    exists b', c'. split; [done|]. split; [done|]. split; [congruence|].
    split; [done|]. cbn [List.filter].
    pose proof (reachable_wf b Hreach) as [_ Hone].
    assert (Hreg : ch ∈ registered b (GetSyncId syncRun) <-> GetSyncId syncRun = syncId).
    { split; [|by intros ->]. unfold registered in Hin |- *. intros Hin2.
      destruct (subscribers b !! syncId) as [chs1|] eqn:H1; [|by apply elem_of_nil in Hin].
      destruct (subscribers b !! GetSyncId syncRun) as [chs2|] eqn:H2;
        [|by apply elem_of_nil in Hin2].
      by eapply (Hone _ _ chs2 chs1 ch). }
    destruct (decide (GetSyncId syncRun = syncId)) as [Hid|Hid].
    + rewrite (bool_decide_eq_true_2 (GetSyncId syncRun = syncId)) by done.
      rewrite bool_decide_eq_true_2 in Hcap, Hbuf by by apply Hreg.
      unfold hasRoom in *. destruct (length (buffer c) <? capacity c)%nat eqn:Hroom.
      * apply Nat.ltb_lt in Hroom. cbn in Hcap, Hbuf. split; [done|].
        rewrite Hbuf, length_app. cbn [length].
        replace (capacity c - length (buffer c))%nat
          with (S (capacity c - (length (buffer c) + 1)))%nat by lia.
        cbn [take]. by rewrite <- app_assoc.
      * apply Nat.ltb_ge in Hroom. cbn in Hcap, Hbuf. split; [done|].
        rewrite Hbuf. replace (capacity c - length (buffer c))%nat with 0%nat by lia.
        by rewrite !take_0.
    + rewrite (bool_decide_eq_false_2 (GetSyncId syncRun = syncId)) by done.
      rewrite bool_decide_eq_false_2 in Hcap, Hbuf by by rewrite Hreg.
      cbn in Hcap, Hbuf. done.
Qed.

(** X10.  A new subscriber that reads nothing finds on its channel the
    first ten of the updates broadcast for its sync id since it
    subscribed, in the order of the broadcasts: later ones are dropped,
    updates of other sync ids never reach it, and no broadcast panics. *)
Theorem Subscribe_first_ten b syncId syncRuns :
  reachable b ->
  let b1 := fst (Subscribe b syncId) in
  let ch := snd (Subscribe b syncId) in
  exists b2 c,
    BroadcastAll b1 syncRuns = Some b2
    /\ channels b2 !! ch = Some c
    /\ closed c = false
    /\ buffer c =
       take 10 (List.filter (fun r => bool_decide (GetSyncId r = syncId)) syncRuns).
Proof.
  intros Hreach. cbv zeta.
  assert (Hreach1 : reachable (fst (Subscribe b syncId))) by by apply reach_subscribe.
  destruct (BroadcastAll_buffer (fst (Subscribe b syncId)) syncId
              (snd (Subscribe b syncId)) (mkChannel [] 10 false) syncRuns Hreach1)
    as (b2 & c & Hall & Hreach2 & Hsub & Hc & _ & Hbuf).
  { unfold registered. cbn. rewrite lookup_insert_eq. cbn.
    apply elem_of_app. right. by apply list_elem_of_singleton. }
  { cbn. by rewrite lookup_insert_eq. }
  exists b2, c. split; [done|]. split; [done|]. split; [|exact Hbuf].
  pose proof (reachable_wf b2 Hreach2) as [Hreg _].
  assert (Hl : subscribers b2 !! syncId
               = Some (default [] (subscribers b !! syncId) ++ [snd (Subscribe b syncId)])).
  { rewrite Hsub. cbn. by rewrite lookup_insert_eq. }
  destruct (Hreg _ _ Hl) as [_ Hopen].
  destruct (Hopen (snd (Subscribe b syncId))) as (c' & Hc' & Hcl).
  { apply elem_of_app. right. by apply list_elem_of_singleton. }
  congruence.
Qed.

Lemma threeSubscribers_reachable : reachable Samples.threeSubscribers.
Proof. repeat apply reach_subscribe. apply reach_new. Qed.

Lemma reachable_bounded_witness : bounded Samples.threeSubscribers.
Proof. apply reachable_bounded. repeat apply reach_subscribe. apply reach_new. Defined.

Lemma Unsubscribe_closes_once_witness :
  exists b', Unsubscribe Samples.threeSubscribers (runes "sync-1") 1 = Some b'.
Proof.
  destruct (Unsubscribe_closes_once Samples.threeSubscribers (runes "sync-1") 1)
    as (b' & Hb' & _).
  - repeat apply reach_subscribe. apply reach_new.
  - by exists b'.
Defined.

Lemma Subscribe_then_Unsubscribe_witness :
  exists b2,
    Unsubscribe (fst (Subscribe Samples.threeSubscribers (runes "sync-1")))
      (runes "sync-1") (snd (Subscribe Samples.threeSubscribers (runes "sync-1"))) = Some b2
    /\ subscribers b2 = subscribers Samples.threeSubscribers.
Proof.
  destruct (Subscribe_then_Unsubscribe Samples.threeSubscribers (runes "sync-1"))
    as (_ & _ & _ & _ & b2 & Hb2 & Hsub & _).
  - repeat apply reach_subscribe. apply reach_new.
  - by exists b2.
Defined.

Lemma Close_closes_all_witness :
  exists b', Close Samples.threeSubscribers = Some b' /\ subscribers b' = ∅.
Proof.
  destruct (Close_closes_all Samples.threeSubscribers) as (b' & Hb' & Hsub & _).
  - repeat apply reach_subscribe. apply reach_new.
  - exists b'. split; [exact Hb'|exact Hsub].
Defined.

Lemma Subscribe_first_ten_witness :
  exists b2 c,
    BroadcastAll (fst (Subscribe Samples.threeSubscribers (runes "sync-1")))
      [Samples.runOf "sync-1" SYNC_STATUS_PENDING; Samples.runOf "sync-2" SYNC_STATUS_PENDING;
       Samples.runOf "sync-1" SYNC_STATUS_RUNNING] = Some b2
    /\ channels b2 !! snd (Subscribe Samples.threeSubscribers (runes "sync-1")) = Some c
    /\ buffer c = [Samples.runOf "sync-1" SYNC_STATUS_PENDING;
                   Samples.runOf "sync-1" SYNC_STATUS_RUNNING].
Proof.
  destruct (Subscribe_first_ten Samples.threeSubscribers (runes "sync-1")
              [Samples.runOf "sync-1" SYNC_STATUS_PENDING;
               Samples.runOf "sync-2" SYNC_STATUS_PENDING;
               Samples.runOf "sync-1" SYNC_STATUS_RUNNING])
    as (b2 & c & Hb2 & Hc & _ & Hbuf).
  - repeat apply reach_subscribe. apply reach_new.
  - exists b2, c. split; [done|]. split; [done|]. rewrite Hbuf. vm_compute. reflexivity.
Defined.

(** An update for two subscribers with room. *)
Lemma Broadcast_send_or_drop_witness :
  exists b' skipped,
    Broadcast Samples.threeSubscribers (Samples.runOf "sync-1" SYNC_STATUS_PENDING)
    = Some (b', skipped)
    /\ subscribers b' = subscribers Samples.threeSubscribers.
Proof.
  destruct (Broadcast_send_or_drop Samples.threeSubscribers
              (Samples.runOf "sync-1" SYNC_STATUS_PENDING)
              threeSubscribers_reachable)
    as (b' & skipped & H1 & H2 & _).
  exists b', skipped. by split.
Defined.

(** Ten updates fill the channels of both subscribers of sync-1; once
    the first has read one update, the eleventh reaches it and is
    dropped for the second only, and the subscriber of sync-2 has got
    nothing. *)
Example Broadcast_full_channel :
  let b := Receive Samples.tenUpdates 0 in
  exists b',
    Broadcast b (Samples.runOf "sync-1" SYNC_STATUS_COMPLETED) = Some (b', [1%nat])
    /\ (length ∘ buffer <$> channels b) = {[ 0%nat := 9%nat; 1%nat := 10%nat; 2%nat := 0%nat ]}
    /\ (length ∘ buffer <$> channels b') = {[ 0%nat := 10%nat; 1%nat := 10%nat; 2%nat := 0%nat ]}.
Proof. cbv zeta. eexists. split; [by vm_compute|]. split; by vm_compute. Qed.

End BroadcasterFacts.

(** ** sync_engine_impl.go *)

Module EngineFacts.
Import Broadcaster BroadcasterFacts SyncEngine.
Local Open Scope engine_scope.

Lemma appendTrace_nil w : appendTrace w [] = w.
Proof. destruct w. unfold appendTrace. cbn. by rewrite app_nil_r. Qed.

Lemma appendTrace_app w t1 t2 :
  appendTrace (appendTrace w t1) t2 = appendTrace w (t1 ++ t2).
Proof. unfold appendTrace. cbn. by rewrite app_assoc. Qed.

Lemma oblivious_ret {A} (a : A) : oblivious (ret a).
Proof.
  exists (Ret a), []. split; [constructor|].
  intros w. by rewrite appendTrace_nil.
Qed.

Lemma oblivious_panic {A} msg : oblivious (panic (A:=A) msg).
Proof.
  exists (Panic msg), []. split; [constructor|].
  intros w. by rewrite appendTrace_nil.
Qed.

Lemma oblivious_emit e : isStrategyEvent e = true -> oblivious (emit e).
Proof. intros He. exists (Ret tt), [e]. split; [by repeat constructor|done]. Qed.

Lemma oblivious_bind {A B} (m : M A) (k : A -> M B) :
  oblivious m -> (forall a, oblivious (k a)) -> oblivious (bind m k).
Proof.
  intros (r & t & Ht & Hm) Hk. destruct r as [a|msg].
  - destruct (Hk a) as (r' & t' & Ht' & Hk').
    exists r', (t ++ t'). split; [by apply Forall_app|].
    intros w. unfold bind. by rewrite Hm, Hk', appendTrace_app.
  - exists (Panic msg), t. split; [done|].
    intros w. unfold bind. by rewrite Hm.
Qed.

Lemma oblivious_call {A} e (o : outcome A) :
  isStrategyEvent e = true -> oblivious (call e o).
Proof.
  intros He. unfold call. apply oblivious_bind; [by apply oblivious_emit|].
  intros _. destruct o; [apply oblivious_ret|apply oblivious_ret|apply oblivious_panic].
Qed.

Create HintDb oblivious.
#[local] Hint Resolve oblivious_ret oblivious_panic oblivious_emit
  oblivious_call oblivious_bind : oblivious.

Ltac oblivious_step :=
  match goal with
  | |- oblivious (bind _ _) => apply oblivious_bind; [|intros ?]
  | |- oblivious (ret _) => apply oblivious_ret
  | |- oblivious (panic _) => apply oblivious_panic
  | |- oblivious (emit _) => apply oblivious_emit; reflexivity
  | |- oblivious (call _ _) => apply oblivious_call; reflexivity
  | |- oblivious (match ?x with _ => _ end) => destruct x
  | |- oblivious (if ?x then _ else _) => destruct x
  end.

Section Strategies.

Variable env : Env.
Variable DeduplicateSongs : list Song -> float -> list Song * option error.
Variable userInfo : User.

Lemma searchSongs_oblivious songs datasource r :
  oblivious (searchSongs env songs datasource r).
Proof.
  revert r. induction songs as [|song rest IH]; intros r; cbn [searchSongs].
  - apply oblivious_ret.
  - repeat oblivious_step; apply IH.
Qed.

Lemma getSearchedSongs_oblivious songs datasource :
  oblivious (getSearchedSongs env userInfo songs datasource).
Proof.
  unfold getSearchedSongs. oblivious_step; [apply searchSongs_oblivious|].
  apply oblivious_ret.
Qed.

Lemma runOneWaySync_oblivious sync : oblivious (runOneWaySync env userInfo sync).
Proof.
  unfold runOneWaySync, shouldNormalize.
  repeat (first [apply getSearchedSongs_oblivious | oblivious_step]).
Qed.

Lemma collectSongs_oblivious sources allSongs :
  oblivious (collectSongs env sources allSongs).
Proof.
  revert allSongs. induction sources as [|source rest IH]; intros allSongs;
    cbn [collectSongs].
  - apply oblivious_ret.
  - repeat oblivious_step; apply IH.
Qed.

Lemma runPlaylistMergeSync_oblivious sync :
  oblivious (runPlaylistMergeSync env DeduplicateSongs userInfo sync).
Proof.
  unfold runPlaylistMergeSync.
  repeat (first [apply getSearchedSongs_oblivious | apply collectSongs_oblivious
                | oblivious_step]).
Qed.

Lemma executeSync_oblivious sync :
  oblivious (executeSync env DeduplicateSongs userInfo sync).
Proof.
  unfold executeSync. destruct (GetSyncVariant sync).
  - apply runOneWaySync_oblivious.
  - apply runPlaylistMergeSync_oblivious.
  - apply oblivious_ret.
Qed.

End Strategies.

(** *** Storing and broadcasting one status *)

Section Store.

Variable env : Env.

Lemma sameRun_refl run : sameRun run run.
Proof. by repeat split. Qed.

Lemma sameRun_stamped run now : sameRun (stamped run now) run.
Proof. by repeat split. Qed.

Lemma BroadcastRun_reachable run w :
  reachable (broadcaster w) ->
  exists b' skipped,
    reachable b'
    /\ BroadcastRun run w =
       (Ret tt,
        {| rows := rows w; clock := clock w; persisted := persisted w;
           writes := writes w; reads := reads w; broadcaster := b';
           trace := trace w ++ [EvBroadcast run skipped] |}).
Proof.
  intros Hr. destruct (Broadcast_total _ run Hr) as (b' & skipped & Hb).
  exists b', skipped. split; [by eapply reach_broadcast|].
  unfold BroadcastRun. by rewrite Hb.
Qed.

Lemma storeAndBroadcast_rejected run isCreate w err :
  storeWriteErr env (writes w) = Some err ->
  exists wrapped,
    storeAndBroadcastSyncRun env run isCreate w =
    (Ret (None, Some wrapped),
     {| rows := rows w; clock := S (clock w); persisted := persisted w;
        writes := S (writes w); reads := reads w; broadcaster := broadcaster w;
        trace := trace w ++ [writeEvent isCreate run (Some err)] |}).
Proof.
  intros Herr. unfold storeAndBroadcastSyncRun, bind.
  destruct isCreate; unfold CreateSyncRun, UpdateSyncRun; rewrite Herr;
    cbn; eexists; reflexivity.
Qed.

Lemma storeAndBroadcast_accepted run isCreate w :
  storeWriteErr env (writes w) = None ->
  reachable (broadcaster w) ->
  exists run' w1 found log skipped,
    storeAndBroadcastSyncRun env run isCreate w = (Ret (Some run', None), w1)
    /\ sameRun run' run
    /\ writes w1 = S (writes w)
    /\ persisted w1 =
       persisted w ++ (if written isCreate run w
                       then [(GetRunId run, GetSyncStatus run)] else [])
    /\ (written isCreate run w = true -> is_Some (rows w1 !! GetRunId run))
    /\ reachable (broadcaster w1)
    /\ trace w1 = trace w ++ storeBlock isCreate run found log run' skipped.
Proof.
  intros Herr Hreach.
  unfold storeAndBroadcastSyncRun, bind, written.
  set (wrote := isCreate || bool_decide (is_Some (rows w !! GetRunId run))).
  set (w' := {| rows := if wrote
                        then <[GetRunId run := stamped run (S (clock w))]> (rows w)
                        else rows w;
                clock := S (clock w);
                persisted := if wrote
                             then persisted w ++ [(GetRunId run, GetSyncStatus run)]
                             else persisted w;
                writes := S (writes w); reads := reads w;
                broadcaster := broadcaster w;
                trace := trace w ++ [writeEvent isCreate run None] |}).
  assert (Hwrite : (if isCreate then CreateSyncRun env run else UpdateSyncRun env run) w
                   = (Ret None, w')).
  { unfold w', wrote. destruct isCreate; unfold CreateSyncRun, UpdateSyncRun;
      rewrite Herr; [reflexivity|].
    destruct (rows w !! GetRunId run) as [old|] eqn:Hrow.
    - rewrite bool_decide_eq_true_2 by eauto. reflexivity.
    - rewrite bool_decide_eq_false_2 by (by intros [? ?]). reflexivity. }
  rewrite Hwrite.
  assert (Hrow : rows w' !! GetRunId run =
                 if wrote then Some (stamped run (S (clock w))) else None).
  { unfold w', wrote. cbn. destruct isCreate; cbn.
    - by rewrite lookup_insert_eq.
    - case_bool_decide as Hsome; [by rewrite lookup_insert_eq|].
      destruct (rows w !! GetRunId run) eqn:Hl; [|done]. exfalso. apply Hsome. eauto. }
  assert (Hpers : persisted w' =
                  persisted w ++ (if wrote then [(GetRunId run, GetSyncStatus run)] else [])).
  { unfold w'. cbn. destruct wrote; [done|by rewrite app_nil_r]. }
  assert (Hwrites : writes w' = S (writes w)) by reflexivity.
  assert (Htrace : trace w' = trace w ++ [writeEvent isCreate run None]) by reflexivity.
  assert (Hreach' : reachable (broadcaster w')) by exact Hreach.
  clearbody w'. clear Hwrite.
  unfold GetSyncs, emit.
  (* the run that is broadcast: the row read back, or the object in memory *)
  destruct (storeReadErr env (reads w')) as [rerr|] eqn:Hread;
    [|rewrite Hrow; destruct wrote eqn:Hw];
    cbn -[BroadcastRun];
    match goal with |- context [BroadcastRun ?r ?w2] =>
      destruct (BroadcastRun_reachable r w2 Hreach') as (b' & skipped & Hb' & ->) end;
    cbn; eexists _, _, _, _, skipped;
    (split; [reflexivity|]); cbn;
    rewrite ?Hwrites, ?Hpers, ?Htrace, <- ?app_assoc; cbn;
    repeat split; try done;
    try (intros Hwrote; rewrite Hrow, ?Hwrote; eauto).
Qed.

End Store.

(** *** RunSync, path by path *)

Section Run.

Variable env : Env.
Variable DeduplicateSongs : list Song -> float -> list Song * option error.
Variable userInfo : User.
Variable sync : Sync.

Local Abbreviation runId := (uuid_NewString env).
Local Abbreviation RunSync := (RunSync env DeduplicateSongs userInfo sync).

(** The deferred function when the store rejects the final write. *)
Lemma deferred_rejected body syncRun w err :
  storeWriteErr env (writes w) = Some err ->
  let final := match body with
               | Panic _ => withStatus SYNC_STATUS_FAILED syncRun
               | Ret _ => syncRun
               end in
  let recovered := match body with
                   | Panic _ => [EvLog "Recovered from panic in RunSync"]
                   | Ret _ => []
                   end in
  exists w1,
    RunSync_deferred env body syncRun w = (Ret final, w1)
    /\ persisted w1 = persisted w
    /\ trace w1 =
       trace w ++ recovered
         ++ [EvUpdateSyncRun final (Some err);
             EvLog "CRITICAL: failed to store final sync run state"].
Proof.
  intros Herr. cbv zeta. unfold RunSync_deferred, bind.
  destruct body as [e|msg]; cbn -[storeAndBroadcastSyncRun].
  - destruct (storeAndBroadcast_rejected env syncRun false w err Herr) as [wrapped ->].
    cbn. eexists. split; [reflexivity|]. cbn. split; [done|].
    by rewrite <- app_assoc.
  - match goal with |- context [storeAndBroadcastSyncRun env ?r false ?w0] =>
      destruct (storeAndBroadcast_rejected env r false w0 err Herr) as [wrapped ->] end.
    cbn. eexists. split; [reflexivity|]. cbn. split; [done|].
    by rewrite <- !app_assoc.
Qed.

(** The deferred function when the store accepts the final write. *)
Lemma deferred_accepted body syncRun w :
  storeWriteErr env (writes w) = None ->
  reachable (broadcaster w) ->
  let final := match body with
               | Panic _ => withStatus SYNC_STATUS_FAILED syncRun
               | Ret _ => syncRun
               end in
  let recovered := match body with
                   | Panic _ => [EvLog "Recovered from panic in RunSync"]
                   | Ret _ => []
                   end in
  exists w1 found log sent skipped,
    RunSync_deferred env body syncRun w = (Ret final, w1)
    /\ sameRun sent final
    /\ persisted w1 =
       persisted w ++ (if written false final w
                       then [(GetRunId final, GetSyncStatus final)] else [])
    /\ trace w1 = trace w ++ recovered ++ storeBlock false final found log sent skipped.
Proof.
  intros Herr Hreach. cbv zeta. unfold RunSync_deferred, bind.
  destruct body as [e|msg]; cbn -[storeAndBroadcastSyncRun].
  - destruct (storeAndBroadcast_accepted env syncRun false w Herr Hreach)
      as (sent & w1 & found & log & skipped & -> & Hsame & _ & Hp & _ & _ & Ht).
    cbn. exists w1, found, log, sent, skipped.
    split; [done|]. split; [done|]. split; [exact Hp|exact Ht].
  - match goal with |- context [storeAndBroadcastSyncRun env ?r false ?w0] =>
      destruct (storeAndBroadcast_accepted env r false w0 Herr Hreach)
        as (sent & w1 & found & log & skipped & -> & Hsame & _ & Hp & _ & _ & Ht) end.
    cbn. exists w1, found, log, sent, skipped.
    split; [done|]. split; [done|]. split; [exact Hp|].
    rewrite Ht. cbn. by rewrite <- app_assoc.
Qed.

Lemma appendTrace_writes w t : writes (appendTrace w t) = writes w.
Proof. reflexivity. Qed.

(** The body up to the strategy, when the store accepts PENDING and
    RUNNING: both are stored and broadcast, in this order, and then the
    strategy runs. *)
Lemma body_started w r t :
  storeWriteErr env (writes w) = None ->
  storeWriteErr env (S (writes w)) = None ->
  reachable (broadcaster w) ->
  (forall w0, executeSync env DeduplicateSongs userInfo sync w0 = (r, appendTrace w0 t)) ->
  exists w2 pending running foundP logP sentP skippedP foundR logR sentR skippedR,
    RunSync_body env DeduplicateSongs userInfo sync (initialRun env sync) w =
      (match r with
       | Ret (Some syncErr) => Ret (Some (WrappedError syncErr "sync execution failed"))
       | Ret None => Ret None
       | Panic msg => Panic msg
       end,
       match r with
       | Ret (Some _) => withStatus SYNC_STATUS_FAILED sentR
       | Ret None => withStatus SYNC_STATUS_COMPLETED sentR
       | Panic _ => sentR
       end,
       appendTrace w2 t)
    /\ sameRun pending (initialRun env sync)
    /\ sameRun sentP pending
    /\ sameRun running (withStatus SYNC_STATUS_RUNNING (initialRun env sync))
    /\ sameRun sentR running
    /\ writes w2 = S (S (writes w))
    /\ persisted w2 =
       persisted w ++ [(runId, SYNC_STATUS_PENDING); (runId, SYNC_STATUS_RUNNING)]
    /\ is_Some (rows w2 !! runId)
    /\ reachable (broadcaster w2)
    /\ trace w2 =
       trace w ++ storeBlock true pending foundP logP sentP skippedP
               ++ storeBlock false running foundR logR sentR skippedR.
Proof.
  intros He0 He1 Hreach Hexec. unfold RunSync_body.
  destruct (storeAndBroadcast_accepted env (initialRun env sync) true w He0 Hreach)
    as (sentP & w1 & foundP & logP & skippedP & -> & HsameP & Hw1 & Hp1 & Hrow1 & Hreach1 & Ht1).
  cbv beta iota zeta.
  rewrite <- Hw1 in He1.
  destruct (storeAndBroadcast_accepted env (withStatus SYNC_STATUS_RUNNING sentP)
              false w1 He1 Hreach1)
    as (sentR & w2 & foundR & logR & skippedR & -> & HsameR & Hw2 & Hp2 & Hrow2 & Hreach2 & Ht2).
  cbv beta iota zeta. rewrite Hexec.
  destruct HsameP as (HP1 & HP2 & HP3 & HP4).
  assert (Hid : GetRunId (withStatus SYNC_STATUS_RUNNING sentP) = runId) by exact HP2.
  assert (Hwritten : written false (withStatus SYNC_STATUS_RUNNING sentP) w1 = true).
  { unfold written. rewrite Hid. cbn. apply bool_decide_eq_true_2. by apply Hrow1. }
  rewrite Hwritten in Hp2. specialize (Hrow2 Hwritten). rewrite Hid in Hrow2.
  exists w2, (initialRun env sync), (withStatus SYNC_STATUS_RUNNING sentP),
    foundP, logP, sentP, skippedP, foundR, logR, sentR, skippedR.
  split; [by destruct r as [[e|]|msg]|].
  split; [by repeat split|]. split; [by repeat split|].
  split; [by repeat split|]. split; [exact HsameR|].
  split; [lia|]. split.
  { rewrite Hp2, Hp1, Hid. cbn. by rewrite <- app_assoc. }
  split; [exact Hrow2|]. split; [exact Hreach2|].
  rewrite Ht2, Ht1. by rewrite <- app_assoc.
Qed.

(** RunSync when the store accepts PENDING and RUNNING: the strategy
    runs, its outcome [r] fixes the final status, and the deferred
    function stores and broadcasts it. *)
Lemma RunSync_started w r t :
  storeWriteErr env (writes w) = None ->
  storeWriteErr env (S (writes w)) = None ->
  reachable (broadcaster w) ->
  (forall w0, executeSync env DeduplicateSongs userInfo sync w0 = (r, appendTrace w0 t)) ->
  let final := match r with Ret None => SYNC_STATUS_COMPLETED | _ => SYNC_STATUS_FAILED end in
  let returned := match r with
                  | Ret (Some syncErr) => Some (WrappedError syncErr "sync execution failed")
                  | _ => None
                  end in
  let recovered := match r with
                   | Panic _ => [EvLog "Recovered from panic in RunSync"]
                   | Ret _ => []
                   end in
  exists run w' blockP blockR finalEvents,
    RunSync w = (Ret (returned, run), w')
    /\ GetSyncStatus run = final /\ GetRunId run = runId
    /\ GetSyncId run = GetId sync /\ GetUnmatchedSongs run = []
    /\ isStoreBlock true SYNC_STATUS_PENDING runId blockP
    /\ isStoreBlock false SYNC_STATUS_RUNNING runId blockR
    /\ trace w' = trace w ++ blockP ++ blockR ++ t ++ recovered ++ finalEvents
    /\ match storeWriteErr env (S (S (writes w))) with
       | None =>
           persisted w' =
             persisted w ++ [(runId, SYNC_STATUS_PENDING); (runId, SYNC_STATUS_RUNNING);
                             (runId, final)]
           /\ exists found log sent skipped,
               finalEvents = storeBlock false run found log sent skipped
               /\ sameRun sent run
       | Some err =>
           persisted w' =
             persisted w ++ [(runId, SYNC_STATUS_PENDING); (runId, SYNC_STATUS_RUNNING)]
           /\ finalEvents =
              [EvUpdateSyncRun run (Some err);
               EvLog "CRITICAL: failed to store final sync run state"]
       end.
Proof.
  intros He0 He1 Hreach Hexec. cbv zeta.
  destruct (body_started w r t He0 He1 Hreach Hexec)
    as (w2 & pending & running & foundP & logP & sentP & skippedP
        & foundR & logR & sentR & skippedR
        & Hbody & HsP & HsP' & HsR & HsR' & Hw2 & Hp2 & Hrow2 & Hreach2 & Ht2).
  unfold SyncEngine.RunSync. fold (initialRun env sync). rewrite Hbody.
  set (body := match r with
               | Ret (Some syncErr) => Ret (Some (WrappedError syncErr "sync execution failed"))
               | Ret None => Ret None
               | Panic msg => Panic msg
               end).
  set (left := match r with
               | Ret (Some _) => withStatus SYNC_STATUS_FAILED sentR
               | Ret None => withStatus SYNC_STATUS_COMPLETED sentR
               | Panic _ => sentR
               end).
  set (run := match body with
              | Panic _ => withStatus SYNC_STATUS_FAILED left
              | Ret _ => left
              end).
  destruct HsP as (P1 & P2 & P3 & P4), HsP' as (P1' & P2' & P3' & P4'),
    HsR as (R1 & R2 & R3 & R4), HsR' as (R1' & R2' & R3' & R4').
  assert (Hrun : GetSyncStatus run =
                 match r with Ret None => SYNC_STATUS_COMPLETED | _ => SYNC_STATUS_FAILED end
                 /\ GetRunId run = runId /\ GetSyncId run = GetId sync
                 /\ GetUnmatchedSongs run = []).
  { unfold run, body, left. destruct r as [[e|]|msg]; cbn;
      rewrite ?R1', ?R2', ?R4', ?R1, ?R2, ?R4; by repeat split. }
  destruct Hrun as (Hst & Hid & Hsid & Hun).
  assert (HblockP : isStoreBlock true SYNC_STATUS_PENDING runId
                      (storeBlock true pending foundP logP sentP skippedP)).
  { exists pending, foundP, logP, sentP, skippedP. rewrite P2, P3. by repeat split. }
  assert (HblockR : isStoreBlock false SYNC_STATUS_RUNNING runId
                      (storeBlock false running foundR logR sentR skippedR)).
  { exists running, foundR, logR, sentR, skippedR. rewrite R2, R3. by repeat split. }
  assert (Hrec : match body with
                 | Panic _ => [EvLog "Recovered from panic in RunSync"]
                 | Ret _ => []
                 end =
                 match r with
                 | Panic _ => [EvLog "Recovered from panic in RunSync"]
                 | Ret _ => []
                 end) by (unfold body; by destruct r as [[e|]|msg]).
  assert (Hret : match body with Ret err => err | Panic _ => None end =
                 match r with
                 | Ret (Some syncErr) => Some (WrappedError syncErr "sync execution failed")
                 | _ => None
                 end) by (unfold body; by destruct r as [[e|]|msg]).
  destruct (storeWriteErr env (S (S (writes w)))) as [err|] eqn:He2.
  - destruct (deferred_rejected body left (appendTrace w2 t) err) as (w' & -> & Hp' & Ht').
    { by rewrite appendTrace_writes, Hw2. }
    fold run in Ht'. rewrite Hrec in Ht'.
    exists run, w', (storeBlock true pending foundP logP sentP skippedP),
      (storeBlock false running foundR logR sentR skippedR),
      [EvUpdateSyncRun run (Some err);
       EvLog "CRITICAL: failed to store final sync run state"].
    split; [by rewrite Hret|]. do 4 (split; [done|]).
    split; [exact HblockP|]. split; [exact HblockR|]. split.
    { rewrite Ht'. cbn [trace appendTrace]. rewrite Ht2. rewrite <- !app_assoc. reflexivity. }
    split; [by rewrite Hp'|reflexivity].
  - destruct (deferred_accepted body left (appendTrace w2 t))
      as (w' & found & log & sent & skipped & -> & Hsame & Hp' & Ht').
    { by rewrite appendTrace_writes, Hw2. }
    { exact Hreach2. }
    fold run in Hsame, Hp', Ht'. rewrite Hrec in Ht'.
    assert (Hwritten : written false run (appendTrace w2 t) = true).
    { unfold written. rewrite Hid. cbn. by apply bool_decide_eq_true_2. }
    rewrite Hwritten, Hid, Hst in Hp'.
    exists run, w', (storeBlock true pending foundP logP sentP skippedP),
      (storeBlock false running foundR logR sentR skippedR),
      (storeBlock false run found log sent skipped).
    split; [by rewrite Hret|]. do 4 (split; [done|]).
    split; [exact HblockP|]. split; [exact HblockR|]. split.
    { rewrite Ht'. cbn [trace appendTrace]. rewrite Ht2. rewrite <- !app_assoc. reflexivity. }
    split.
    { rewrite Hp'. cbn [persisted appendTrace]. rewrite Hp2. by rewrite <- app_assoc. }
    exists found, log, sent, skipped. split; [done|exact Hsame].
Qed.

Lemma storeBlock_noProviderCall isCreate run found log sent skipped :
  noProviderCall (storeBlock isCreate run found log sent skipped).
Proof. unfold noProviderCall, storeBlock. by destruct isCreate; repeat constructor. Qed.

Lemma rejected_noProviderCall isCreate run err evs :
  noProviderCall evs -> noProviderCall (writeEvent isCreate run (Some err) :: evs).
Proof. intros H. constructor; [by destruct isCreate|exact H]. Qed.

(** RunSync when the store rejects the creation of the run: the error is
    returned, no status of the run reaches the store, no provider is
    called. *)
Lemma RunSync_create_rejected w err :
  storeWriteErr env (writes w) = Some err ->
  reachable (broadcaster w) ->
  exists wrapped run w' events,
    RunSync w = (Ret (Some wrapped, run), w')
    /\ GetSyncStatus run = SYNC_STATUS_PENDING
    /\ (persisted w' = persisted w
        \/ persisted w' = persisted w ++ [(runId, SYNC_STATUS_PENDING)])
    /\ (rows w !! runId = None -> persisted w' = persisted w)
    /\ trace w' = trace w ++ events
    /\ noProviderCall events.
Proof.
  intros He0 Hreach.
  unfold SyncEngine.RunSync, RunSync_body. fold (initialRun env sync).
  destruct (storeAndBroadcast_rejected env (initialRun env sync) true w err He0)
    as [wrapped ->].
  set (w1 := {| rows := rows w; clock := S (clock w); persisted := persisted w;
                writes := S (writes w); reads := reads w; broadcaster := broadcaster w;
                trace := trace w ++ [writeEvent true (initialRun env sync) (Some err)] |}).
  cbv beta iota zeta.
  set (body := Ret (Some (WrappedError wrapped "failed to store initial sync run"))).
  destruct (storeWriteErr env (S (writes w))) as [err1|] eqn:He1.
  - destruct (deferred_rejected body (initialRun env sync) w1 err1 He1)
      as (w' & -> & Hp & Ht).
    eexists _, _, w', _. split; [reflexivity|]. split; [reflexivity|].
    split; [by left|]. split; [done|]. split.
    { rewrite Ht. unfold w1. cbn [trace body]. rewrite <- app_assoc. reflexivity. }
    apply rejected_noProviderCall. by repeat constructor.
  - destruct (deferred_accepted body (initialRun env sync) w1 He1 Hreach)
      as (w' & found & log & sent & skipped & -> & Hsame & Hp & Ht).
    eexists _, _, w', _. split; [reflexivity|]. split; [reflexivity|]. split.
    { rewrite Hp. cbn [body]. destruct (written false (initialRun env sync) w1).
      - by right.
      - left. by rewrite app_nil_r. }
    split.
    { intros Hfresh. rewrite Hp. unfold written. cbn. rewrite Hfresh.
      rewrite bool_decide_eq_false_2 by (by intros [? ?]). by rewrite app_nil_r. }
    split.
    { rewrite Ht. unfold w1. cbn [trace body]. rewrite <- app_assoc. reflexivity. }
    apply rejected_noProviderCall. cbn [app]. apply storeBlock_noProviderCall.
Qed.

(** RunSync when the store accepts PENDING and rejects RUNNING: the error
    is returned and no provider is called; the deferred function tries
    once more to store the run, which is RUNNING. *)
Lemma RunSync_running_rejected w err :
  storeWriteErr env (writes w) = None ->
  storeWriteErr env (S (writes w)) = Some err ->
  reachable (broadcaster w) ->
  exists wrapped run w' events,
    RunSync w = (Ret (Some wrapped, run), w')
    /\ GetSyncStatus run = SYNC_STATUS_RUNNING
    /\ persisted w' =
       persisted w ++ (runId, SYNC_STATUS_PENDING)
         :: match storeWriteErr env (S (S (writes w))) with
            | None => [(runId, SYNC_STATUS_RUNNING)]
            | Some _ => []
            end
    /\ trace w' = trace w ++ events
    /\ noProviderCall events.
Proof.
  intros He0 He1 Hreach.
  unfold SyncEngine.RunSync, RunSync_body. fold (initialRun env sync).
  destruct (storeAndBroadcast_accepted env (initialRun env sync) true w He0 Hreach)
    as (sentP & w1 & foundP & logP & skippedP & -> & HsameP & Hw1 & Hp1 & Hrow1 & Hreach1 & Ht1).
  cbv beta iota zeta. rewrite <- Hw1 in He1.
  destruct (storeAndBroadcast_rejected env (withStatus SYNC_STATUS_RUNNING sentP)
              false w1 err He1) as [wrapped ->].
  set (running := withStatus SYNC_STATUS_RUNNING sentP).
  set (w2 := {| rows := rows w1; clock := S (clock w1); persisted := persisted w1;
                writes := S (writes w1); reads := reads w1; broadcaster := broadcaster w1;
                trace := trace w1 ++ [writeEvent false running (Some err)] |}).
  cbv beta iota zeta.
  set (body := Ret (Some (WrappedError wrapped "failed to store running sync status"))).
  destruct HsameP as (HP1 & HP2 & HP3 & HP4).
  assert (Hid : GetRunId running = runId) by exact HP2.
  assert (Hrow2 : is_Some (rows w2 !! runId)) by (by apply Hrow1).
  assert (Hw2 : writes w2 = S (S (writes w))) by (unfold w2; cbn; lia).
  destruct (storeWriteErr env (S (S (writes w)))) as [err2|] eqn:He2.
  - destruct (deferred_rejected body running w2 err2) as (w' & -> & Hp & Ht).
    { by rewrite Hw2. }
    eexists _, _, w', _. split; [reflexivity|]. split; [reflexivity|]. split.
    { rewrite Hp. unfold w2. cbn [persisted]. exact Hp1. }
    split.
    { rewrite Ht. unfold w2. cbn [trace body]. rewrite Ht1, <- !app_assoc. reflexivity. }
    apply Forall_app. split; [apply storeBlock_noProviderCall|].
    apply rejected_noProviderCall. by repeat constructor.
  - destruct (deferred_accepted body running w2) as
      (w' & found & log & sent & skipped & -> & Hsame & Hp & Ht).
    { by rewrite Hw2. }
    { exact Hreach1. }
    assert (Hwritten : written false running w2 = true).
    { unfold written. rewrite Hid. cbn -[w2]. by apply bool_decide_eq_true_2. }
    eexists _, _, w', _. split; [reflexivity|]. split; [reflexivity|]. split.
    { rewrite Hp. cbn [body]. rewrite Hwritten, Hid. unfold w2. cbn [persisted].
      rewrite Hp1. cbn. by rewrite <- app_assoc. }
    split.
    { rewrite Ht. unfold w2. cbn [trace body]. rewrite Ht1, <- !app_assoc. reflexivity. }
    apply Forall_app. split; [apply storeBlock_noProviderCall|].
    apply rejected_noProviderCall. cbn [app]. apply storeBlock_noProviderCall.
Qed.

End Run.

(** *** The state machine of a run *)

(** C1 (as amended).  Every call of RunSync returns, and the statuses it
    writes to the run's row are, in order, a prefix of PENDING, RUNNING
    and one terminal status.  A provider is called only after PENDING and
    then RUNNING were each stored, read back and broadcast.  When the
    store accepts the three writes of the run, the statuses are exactly
    PENDING, RUNNING and the terminal status, which the run record
    returned carries and which is stored and broadcast last. *)
Theorem RunSync_status_sequence env DeduplicateSongs userInfo sync w :
  reachable (broadcaster w) ->
  let runId := uuid_NewString env in
  exists err run w' statuses final before after,
    RunSync env DeduplicateSongs userInfo sync w = (Ret (err, run), w')
    /\ isTerminal final = true
    /\ persisted w' = persisted w ++ map (pair runId) statuses
    /\ statuses `prefix_of` [SYNC_STATUS_PENDING; SYNC_STATUS_RUNNING; final]
    /\ trace w' = trace w ++ before ++ after
    /\ noProviderCall before
    /\ (after <> [] ->
        exists blockP blockR rest,
          before = blockP ++ blockR
          /\ isStoreBlock true SYNC_STATUS_PENDING runId blockP
          /\ isStoreBlock false SYNC_STATUS_RUNNING runId blockR
          /\ statuses = SYNC_STATUS_PENDING :: SYNC_STATUS_RUNNING :: rest)
    /\ (storeWriteErr env (writes w) = None ->
        storeWriteErr env (S (writes w)) = None ->
        storeWriteErr env (S (S (writes w))) = None ->
        statuses = [SYNC_STATUS_PENDING; SYNC_STATUS_RUNNING; final]
        /\ GetSyncStatus run = final
        /\ exists strategy finalEvents,
            after = strategy ++ finalEvents
            /\ isStoreBlock false final runId finalEvents).
Proof.
  intros Hreach. cbv zeta.
  destruct (storeWriteErr env (writes w)) as [err0|] eqn:He0.
  { destruct (RunSync_create_rejected env DeduplicateSongs userInfo sync w err0 He0 Hreach)
      as (wrapped & run & w' & events & Hrun & _ & Hp & _ & Ht & Hquiet).
    exists (Some wrapped), run, w',
      (if decide (persisted w' = persisted w) then [] else [SYNC_STATUS_PENDING]),
      SYNC_STATUS_FAILED, events, [].
    split; [exact Hrun|]. split; [done|]. split.
    { destruct (decide _) as [->|Hne]; [by rewrite app_nil_r|]. by destruct Hp. }
    split; [destruct (decide _); [apply prefix_nil|by eexists]|].
    split; [by rewrite app_nil_r|]. split; [exact Hquiet|]. split; done. }
  destruct (storeWriteErr env (S (writes w))) as [err1|] eqn:He1.
  { destruct (RunSync_running_rejected env DeduplicateSongs userInfo sync w err1
                He0 He1 Hreach)
      as (wrapped & run & w' & events & Hrun & _ & Hp & Ht & Hquiet).
    exists (Some wrapped), run, w',
      (SYNC_STATUS_PENDING :: match storeWriteErr env (S (S (writes w))) with
                              | None => [SYNC_STATUS_RUNNING]
                              | Some _ => []
                              end),
      SYNC_STATUS_FAILED, events, [].
    split; [exact Hrun|]. split; [done|]. split.
    { rewrite Hp. by destruct (storeWriteErr env (S (S (writes w)))). }
    split; [destruct (storeWriteErr env (S (S (writes w)))); by eexists|].
    split; [by rewrite app_nil_r|]. split; [exact Hquiet|]. split; done. }
  destruct (executeSync_oblivious env DeduplicateSongs userInfo sync) as (r & t & _ & Hexec).
  destruct (RunSync_started env DeduplicateSongs userInfo sync w r t He0 He1 Hreach Hexec)
    as (run & w' & blockP & blockR & finalEvents
        & Hrun & Hst & Hid & _ & _ & HblockP & HblockR & Ht & Hfinal).
  set (final := match r with Ret None => SYNC_STATUS_COMPLETED | _ => SYNC_STATUS_FAILED end)
    in *.
  set (recovered := match r with
                    | Panic _ => [EvLog "Recovered from panic in RunSync"]
                    | Ret _ => []
                    end) in *.
  assert (Hterm : isTerminal final = true) by (unfold final; by destruct r as [[e|]|msg]).
  assert (Hquiet : noProviderCall (blockP ++ blockR)).
  { destruct HblockP as (? & ? & ? & ? & ? & -> & _), HblockR as (? & ? & ? & ? & ? & -> & _).
    apply Forall_app. split; apply storeBlock_noProviderCall. }
  eexists _, run, w',
    (SYNC_STATUS_PENDING :: SYNC_STATUS_RUNNING
       :: match storeWriteErr env (S (S (writes w))) with
          | None => [final]
          | Some _ => []
          end),
    final, (blockP ++ blockR), (t ++ recovered ++ finalEvents).
  split; [exact Hrun|]. split; [exact Hterm|]. split.
  { destruct (storeWriteErr env (S (S (writes w)))); by destruct Hfinal as [-> _]. }
  split; [destruct (storeWriteErr env (S (S (writes w)))); by eexists|].
  split; [by rewrite Ht, <- !app_assoc|]. split; [exact Hquiet|]. split.
  { intros _. by eexists blockP, blockR, _. }
  intros _ _ He2. rewrite He2 in Hfinal |- *.
  destruct Hfinal as [_ (found & log & sent & skipped & -> & Hsame)].
  split; [done|]. split; [exact Hst|].
  eexists (t ++ recovered), _. split; [by rewrite <- app_assoc|].
  by exists run, found, log, sent, skipped.
Qed.

Lemma emptyWorld_reachable : reachable (broadcaster Samples.emptyWorld).
Proof. apply reach_subscribe, reach_new. Qed.

Lemma RunSync_status_sequence_witness :
  reachable (broadcaster Samples.emptyWorld)
  /\ exists err run w' statuses final,
       Samples.runOneWay Samples.storeUp Samples.searchByName = (Ret (err, run), w')
       /\ isTerminal final = true
       /\ persisted w' = map (pair (runes "run-1")) statuses
       /\ statuses `prefix_of` [SYNC_STATUS_PENDING; SYNC_STATUS_RUNNING; final].
Proof.
  assert (Hreach : reachable (broadcaster Samples.emptyWorld))
    by apply reach_subscribe, reach_new.
  split; [exact Hreach|].
  destruct (RunSync_status_sequence
              (Samples.collaborators Samples.storeUp Samples.searchByName)
              Samples.sampleDeduplicateSongs Samples.alice Samples.oneWay
              Samples.emptyWorld Hreach)
    as (err & run & w' & statuses & final & before & after
        & Hrun & Hterm & Hp & Hprefix & _).
  exists err, run, w', statuses, final. auto.
Defined.

(** C1: the store is lost after RUNNING was written: the strategy completes,
    RunSync returns nil with a COMPLETED run record, and the statuses in
    the store are PENDING and RUNNING, none of them terminal. *)
Lemma RunSync_no_terminal_status :
  validateSync Samples.oneWay = None
  /\ exists run w',
       Samples.runOneWay Samples.storeLost Samples.searchByName = (Ret (None, run), w')
       /\ GetSyncStatus run = SYNC_STATUS_COMPLETED
       /\ statusesOf (runes "run-1") (persisted w')
          = [SYNC_STATUS_PENDING; SYNC_STATUS_RUNNING]
       /\ ~ exists final, isTerminal final = true
                          /\ final ∈ statusesOf (runes "run-1") (persisted w').
Proof.
  split; [reflexivity|].
  eexists _, _. split; [vm_compute; reflexivity|].
  split; [reflexivity|]. split; [vm_compute; reflexivity|].
  intros (final & Hterm & Hin). vm_compute in Hin.
  apply elem_of_cons in Hin as [->|Hin]; [discriminate|].
  apply elem_of_cons in Hin as [->|Hin]; [discriminate|].
  by apply elem_of_nil in Hin.
Qed.

(** *** Songs that do not resolve on the destination *)

Section Search.

Variable env : Env.
Variable DeduplicateSongs : list Song -> float -> list Song * option error.
Variable userInfo : User.

Lemma call_Ok {A} e (a : A) w : call e (Ok a) w = (Ret (inl a), appendTrace w [e]).
Proof. reflexivity. Qed.

Lemma call_Fail {A} e err w :
  call (A:=A) e (Fail err) w = (Ret (inr err), appendTrace w [e]).
Proof. reflexivity. Qed.

Lemma call_Panics {A} e msg w :
  call (A:=A) e (Panics msg) w = (Panic msg, appendTrace w [e]).
Proof. reflexivity. Qed.

Lemma emit_appendTrace e w : emit e w = (Ret tt, appendTrace w [e]).
Proof. reflexivity. Qed.

(** The loop skips the songs that fail and keeps the others, in order. *)
Lemma searchSongs_resolved songs datasource r w :
  (forall song msg, song ∈ songs -> GetIdByDatasource env song datasource <> Panics msg) ->
  searchSongs env songs datasource r w =
  (Ret (r ++ resolvedSongs env songs datasource),
   appendTrace w (searchEvents env songs datasource)).
Proof.
  revert r w. induction songs as [|song rest IH]; intros r w Hsafe;
    cbn [searchSongs resolvedSongs searchEvents].
  - by rewrite app_nil_r, appendTrace_nil.
  - assert (Hrest : forall song' msg, song' ∈ rest ->
                      GetIdByDatasource env song' datasource <> Panics msg)
      by (intros ? ? ?; apply Hsafe; by right).
    unfold bind at 1.
    destruct (GetIdByDatasource env song datasource) as [id|err|msg] eqn:Hid.
    + rewrite call_Ok, IH by exact Hrest.
      by rewrite <- app_assoc, appendTrace_app.
    + rewrite call_Fail. unfold bind at 1. rewrite emit_appendTrace, IH by exact Hrest.
      by rewrite !appendTrace_app.
    + exfalso. eapply Hsafe; [by left|exact Hid].
Qed.

Lemma getSearchedSongs_resolved songs datasource w :
  (forall song msg, song ∈ songs -> GetIdByDatasource env song datasource <> Panics msg) ->
  getSearchedSongs env userInfo songs datasource w =
  (Ret (resolvedSongs env songs datasource, None),
   appendTrace w (searchEvents env songs datasource)).
Proof.
  intros Hsafe. unfold getSearchedSongs, bind.
  by rewrite searchSongs_resolved.
Qed.

Lemma songsAdded_app t1 t2 : songsAdded (t1 ++ t2) = songsAdded t1 ++ songsAdded t2.
Proof. apply omap_app. Qed.

Lemma songsAdded_searchEvents songs datasource :
  songsAdded (searchEvents env songs datasource) = [].
Proof.
  induction songs as [|song rest IH]; [done|].
  cbn [searchEvents]. change (?e :: ?l ++ ?t) with ((e :: l) ++ t).
  rewrite songsAdded_app, IH.
  by destruct (GetIdByDatasource env song datasource).
Qed.

Lemma songsAdded_storeBlock isCreate st runId evs :
  isStoreBlock isCreate st runId evs -> songsAdded evs = [].
Proof. intros (? & ? & ? & ? & ? & -> & _). by destruct isCreate. Qed.

Lemma getClient_supported datasource :
  datasource <> DATASOURCE_UNSPECIFIED -> getClient datasource = inl datasource.
Proof. by destruct datasource. Qed.

Lemma runOneWaySync_resolved v sourceSongs songs w :
  let source := OWS_Source v in
  let dest := OWS_Destination v in
  MS_Datasource source <> DATASOURCE_UNSPECIFIED ->
  MS_Datasource dest <> DATASOURCE_UNSPECIFIED ->
  GetPlaylistSongs env (MS_Datasource source) (MS_PlaylistId source) = Ok sourceSongs ->
  (if LlmEnabled env then NormalizeSongs env sourceSongs else Ok sourceSongs) = Ok songs ->
  (forall song msg, song ∈ songs ->
     GetIdByDatasource env song (MS_Datasource dest) <> Panics msg) ->
  (OWS_OverwriteExisting v = true ->
   ClearPlaylist env (MS_Datasource dest) (MS_PlaylistId dest) = Ok tt) ->
  AddToPlaylist env (MS_Datasource dest) (MS_PlaylistId dest)
    (resolvedSongs env songs (MS_Datasource dest)) = Ok tt ->
  runOneWaySync env userInfo v w =
  (Ret None, appendTrace w (oneWayEvents env v sourceSongs songs)).
Proof.
  cbv zeta. intros Hsrc Hdst Hfetch Hnorm Hsafe Hclear Hadd.
  unfold runOneWaySync, oneWayEvents, shouldNormalize.
  rewrite !getClient_supported by done.
  unfold bind at 1. rewrite Hfetch, call_Ok.
  unfold bind at 1.
  assert (Hn : (if LlmEnabled env
                then call (EvNormalizeSongs sourceSongs) (NormalizeSongs env sourceSongs)
                else ret (inl sourceSongs)) (appendTrace w
                  [EvGetPlaylistSongs (MS_Datasource (OWS_Source v))
                     (MS_PlaylistId (OWS_Source v))])
               = (Ret (inl songs),
                  appendTrace w
                    ([EvGetPlaylistSongs (MS_Datasource (OWS_Source v))
                        (MS_PlaylistId (OWS_Source v))]
                     ++ (if LlmEnabled env then [EvNormalizeSongs sourceSongs] else [])))).
  { destruct (LlmEnabled env).
    - by rewrite Hnorm, call_Ok, appendTrace_app.
    - injection Hnorm as ->. unfold ret. by rewrite app_nil_r. }
  rewrite Hn. clear Hn.
  unfold bind at 1. rewrite getSearchedSongs_resolved by exact Hsafe.
  rewrite appendTrace_app.
  unfold bind at 1.
  destruct (OWS_OverwriteExisting v).
  - unfold bind at 1. rewrite emit_appendTrace, Hclear, call_Ok by done.
    unfold bind at 1. rewrite Hadd, call_Ok. unfold ret.
    rewrite !appendTrace_app. by rewrite <- !app_assoc.
  - unfold ret at 1. unfold bind at 1. rewrite Hadd, call_Ok. unfold ret.
    rewrite !appendTrace_app. by rewrite <- !app_assoc.
Qed.

End Search.

(** X23.  In a one-way run in which the store accepts PENDING and
    RUNNING and no call fails but the search for some of the songs, no
    failed search aborts the run: each is logged and its song skipped,
    the destination playlist receives, in one call, exactly the songs
    that resolved, in order, and RunSync returns nil with a COMPLETED
    run record. *)
Theorem RunSync_skips_unresolved env DeduplicateSongs userInfo sync v sourceSongs songs w :
  let source := OWS_Source v in
  let dest := OWS_Destination v in
  reachable (broadcaster w) ->
  storeWriteErr env (writes w) = None ->
  storeWriteErr env (S (writes w)) = None ->
  GetSyncVariant sync = Sync_OneWaySync v ->
  MS_Datasource source <> DATASOURCE_UNSPECIFIED ->
  MS_Datasource dest <> DATASOURCE_UNSPECIFIED ->
  GetPlaylistSongs env (MS_Datasource source) (MS_PlaylistId source) = Ok sourceSongs ->
  (if LlmEnabled env then NormalizeSongs env sourceSongs else Ok sourceSongs) = Ok songs ->
  (forall song msg, song ∈ songs ->
     GetIdByDatasource env song (MS_Datasource dest) <> Panics msg) ->
  (OWS_OverwriteExisting v = true ->
   ClearPlaylist env (MS_Datasource dest) (MS_PlaylistId dest) = Ok tt) ->
  AddToPlaylist env (MS_Datasource dest) (MS_PlaylistId dest)
    (resolvedSongs env songs (MS_Datasource dest)) = Ok tt ->
  (forall w0,
     getSearchedSongs env userInfo songs (MS_Datasource dest) w0 =
     (Ret (resolvedSongs env songs (MS_Datasource dest), None),
      appendTrace w0 (searchEvents env songs (MS_Datasource dest))))
  /\ exists run w' before after,
    RunSync env DeduplicateSongs userInfo sync w = (Ret (None, run), w')
    /\ GetSyncStatus run = SYNC_STATUS_COMPLETED
    /\ trace w' = trace w ++ before ++ oneWayEvents env v sourceSongs songs ++ after
    /\ songsAdded (trace w') =
       songsAdded (trace w) ++ [resolvedSongs env songs (MS_Datasource dest)].
Proof.
  cbv zeta. intros Hreach He0 He1 Hv Hsrc Hdst Hfetch Hnorm Hsafe Hclear Hadd.
  split; [intros w0; by apply getSearchedSongs_resolved|].
  assert (Hexec : forall w0, executeSync env DeduplicateSongs userInfo sync w0 =
                             (Ret None, appendTrace w0 (oneWayEvents env v sourceSongs songs))).
  { intros w0. unfold executeSync. rewrite Hv. by apply runOneWaySync_resolved. }
  destruct (RunSync_started env DeduplicateSongs userInfo sync w (Ret None) _
              He0 He1 Hreach Hexec)
    as (run & w' & blockP & blockR & finalEvents
        & Hrun & Hst & _ & _ & _ & HblockP & HblockR & Ht & Hfinal).
  exists run, w', (blockP ++ blockR), finalEvents.
  split; [exact Hrun|]. split; [exact Hst|].
  split; [by rewrite Ht, <- !app_assoc|].
  rewrite Ht, !songsAdded_app.
  rewrite (songsAdded_storeBlock _ _ _ _ HblockP), (songsAdded_storeBlock _ _ _ _ HblockR).
  assert (Hlast : songsAdded finalEvents = []).
  { destruct (storeWriteErr env (S (S (writes w)))).
    - by destruct Hfinal as [_ ->].
    - by destruct Hfinal as [_ (? & ? & ? & ? & -> & _)]. }
  rewrite Hlast. unfold oneWayEvents. rewrite !songsAdded_app, songsAdded_searchEvents.
  cbn. by destruct (LlmEnabled env), (OWS_OverwriteExisting v).
Qed.

Lemma RunSync_skips_unresolved_witness :
  exists run w',
    Samples.runOneWay Samples.storeUp Samples.searchByName = (Ret (None, run), w')
    /\ GetSyncStatus run = SYNC_STATUS_COMPLETED
    /\ map (map GetName) (songsAdded (trace w')) = [[runes "Halo"; runes "Hey"]].
Proof.
  destruct (RunSync_skips_unresolved
              (Samples.collaborators Samples.storeUp Samples.searchByName)
              Samples.sampleDeduplicateSongs Samples.alice Samples.oneWay
              {| OWS_Source := {| MS_Datasource := DATASOURCE_SPOTIFY;
                                  MS_PlaylistId := runes "from" |};
                 OWS_Destination := {| MS_Datasource := DATASOURCE_YOUTUBE;
                                       MS_PlaylistId := runes "to" |};
                 OWS_OverwriteExisting := false |}
              Samples.threeSongs Samples.threeSongs Samples.emptyWorld)
    as (_ & run & w' & before & after & Hrun & Hst & _ & Hadded).
  - exact emptyWorld_reachable.
  - reflexivity.
  - reflexivity.
  - reflexivity.
  - discriminate.
  - discriminate.
  - reflexivity.
  - reflexivity.
  - intros song msg _. cbn. unfold Samples.searchByName. by case_bool_decide.
  - discriminate.
  - reflexivity.
  - exists run, w'. split; [exact Hrun|]. split; [exact Hst|].
    rewrite Hadded. vm_compute. reflexivity.
Defined.

(** C2.  A one-way run in which two of three songs resolve ends
    COMPLETED and two songs are added to the destination, but the song
    that was skipped is not recorded: the unmatched-songs list of the run
    record, and of the row in the store, is empty, where the list that
    the run details show should hold one song. *)
Lemma RunSync_unmatched_not_recorded :
  length (resolvedSongs (Samples.collaborators Samples.storeUp Samples.searchByName)
            Samples.threeSongs DATASOURCE_YOUTUBE) = 2%nat
  /\ length (unresolvedSongs (Samples.collaborators Samples.storeUp Samples.searchByName)
               Samples.threeSongs DATASOURCE_YOUTUBE) = 1%nat
  /\ exists run w',
       Samples.runOneWay Samples.storeUp Samples.searchByName = (Ret (None, run), w')
       /\ GetSyncStatus run = SYNC_STATUS_COMPLETED
       /\ map length (songsAdded (trace w')) = [2%nat]
       /\ length (GetUnmatchedSongs run) = 0%nat
       /\ length (GetUnmatchedSongs run) <> 1%nat
       /\ GetUnmatchedSongs <$> rows w' !! runes "run-1" = Some [].
Proof.
  split; [reflexivity|]. split; [reflexivity|].
  eexists _, _. split; [vm_compute; reflexivity|].
  split; [reflexivity|]. split; [vm_compute; reflexivity|].
  split; [reflexivity|]. split; [discriminate|].
  vm_compute. reflexivity.
Qed.

(** *** Panics of the strategy *)

(** C4 (as amended).  When the store has accepted PENDING and RUNNING
    and the strategy panics, RunSync recovers the panic and returns to
    its caller, the run record is FAILED, and after the events of the
    strategy and the log of the recovery its last step is to store that
    record: if the store accepts it, FAILED is the last status written
    and its broadcast is the last event; if the store rejects it, the
    rejection is logged, nothing is broadcast and RUNNING stays the last
    status written. *)
Theorem RunSync_recovers_panic env DeduplicateSongs userInfo sync w msg :
  reachable (broadcaster w) ->
  storeWriteErr env (writes w) = None ->
  storeWriteErr env (S (writes w)) = None ->
  fst (executeSync env DeduplicateSongs userInfo sync w) = Panic msg ->
  let runId := uuid_NewString env in
  exists run w' before strategy finalEvents,
    RunSync env DeduplicateSongs userInfo sync w = (Ret (None, run), w')
    /\ GetSyncStatus run = SYNC_STATUS_FAILED
    /\ GetRunId run = runId
    /\ Forall (fun e => isStrategyEvent e = true) strategy
    /\ trace w' =
       trace w ++ before ++ strategy
         ++ [EvLog "Recovered from panic in RunSync"] ++ finalEvents
    /\ match storeWriteErr env (S (S (writes w))) with
       | None =>
           persisted w' =
             persisted w ++ [(runId, SYNC_STATUS_PENDING); (runId, SYNC_STATUS_RUNNING);
                             (runId, SYNC_STATUS_FAILED)]
           /\ exists found log sent skipped,
               finalEvents =
                 [EvUpdateSyncRun run None; EvGetSyncs runId found; EvLog log;
                  EvBroadcast sent skipped]
               /\ sameRun sent run
       | Some err =>
           persisted w' =
             persisted w ++ [(runId, SYNC_STATUS_PENDING); (runId, SYNC_STATUS_RUNNING)]
           /\ finalEvents =
              [EvUpdateSyncRun run (Some err);
               EvLog "CRITICAL: failed to store final sync run state"]
       end.
Proof.
  intros Hreach He0 He1 Hpanic. cbv zeta.
  destruct (executeSync_oblivious env DeduplicateSongs userInfo sync)
    as (r & t & Hstrategy & Hexec).
  rewrite Hexec in Hpanic. cbn in Hpanic. subst r.
  destruct (RunSync_started env DeduplicateSongs userInfo sync w (Panic msg) t
              He0 He1 Hreach Hexec)
    as (run & w' & blockP & blockR & finalEvents
        & Hrun & Hst & Hid & _ & _ & _ & _ & Ht & Hfinal).
  exists run, w', (blockP ++ blockR), t, finalEvents.
  split; [exact Hrun|]. split; [exact Hst|]. split; [exact Hid|].
  split; [exact Hstrategy|]. split; [by rewrite Ht, <- !app_assoc|].
  destruct (storeWriteErr env (S (S (writes w)))) as [err|]; [exact Hfinal|].
  destruct Hfinal as [Hp (found & log & sent & skipped & -> & Hsame)].
  split; [exact Hp|]. exists found, log, sent, skipped.
  split; [|exact Hsame]. unfold storeBlock, writeEvent. by rewrite Hid.
Qed.

Lemma RunSync_recovers_panic_witness :
  exists run w',
    Samples.runOneWay Samples.storeUp Samples.searchPanics = (Ret (None, run), w')
    /\ GetSyncStatus run = SYNC_STATUS_FAILED
    /\ persisted w' =
       [(runes "run-1", SYNC_STATUS_PENDING); (runes "run-1", SYNC_STATUS_RUNNING);
        (runes "run-1", SYNC_STATUS_FAILED)].
Proof.
  destruct (RunSync_recovers_panic
              (Samples.collaborators Samples.storeUp Samples.searchPanics)
              Samples.sampleDeduplicateSongs Samples.alice Samples.oneWay
              Samples.emptyWorld "index out of range"
              emptyWorld_reachable eq_refl eq_refl eq_refl)
    as (run & w' & before & strategy & finalEvents & Hrun & Hst & _ & _ & _ & Hp & _).
  exists run, w'. auto.
Defined.

(** C4: the strategy panics and the store is lost after RUNNING was written:
    the panic is recovered and the run record is FAILED, but the write of
    FAILED is rejected and nothing is broadcast after the panic; the last
    status in the store is RUNNING. *)
Lemma RunSync_panic_left_running :
  fst (executeSync (Samples.collaborators Samples.storeLost Samples.searchPanics)
         Samples.sampleDeduplicateSongs Samples.alice Samples.oneWay Samples.emptyWorld)
  = Panic "index out of range"
  /\ exists run w',
       Samples.runOneWay Samples.storeLost Samples.searchPanics = (Ret (None, run), w')
       /\ GetSyncStatus run = SYNC_STATUS_FAILED
       /\ last (statusesOf (runes "run-1") (persisted w')) = Some SYNC_STATUS_RUNNING
       /\ last (trace w') = Some (EvLog "CRITICAL: failed to store final sync run state")
       /\ forall sent skipped,
            EvBroadcast sent skipped ∈ trace w' -> GetSyncStatus sent <> SYNC_STATUS_FAILED.
Proof.
  split; [reflexivity|].
  eexists _, _. split; [vm_compute; reflexivity|].
  split; [reflexivity|]. split; [vm_compute; reflexivity|].
  split; [vm_compute; reflexivity|].
  intros sent skipped Hin. vm_compute in Hin.
  repeat (apply elem_of_cons in Hin as [Heq|Hin];
          [try discriminate Heq; by injection Heq as -> _|]).
  by apply elem_of_nil in Hin.
Qed.

(** *** The playlists a run touches *)

Lemma confined_ret {A} P (a : A) : confined P (ret a).
Proof.
  exists (Ret a), []. split; [constructor|]. intros w. by rewrite appendTrace_nil.
Qed.

Lemma confined_panic {A} P msg : confined P (panic (A:=A) msg).
Proof.
  exists (Panic msg), []. split; [constructor|]. intros w. by rewrite appendTrace_nil.
Qed.

Lemma confined_emit (P : Event -> Prop) e : P e -> confined P (emit e).
Proof. intros He. exists (Ret tt), [e]. split; [by repeat constructor|done]. Qed.

Lemma confined_bind {A B} P (m : M A) (k : A -> M B) :
  confined P m -> (forall a, confined P (k a)) -> confined P (bind m k).
Proof.
  intros (r & t & Ht & Hm) Hk. destruct r as [a|msg].
  - destruct (Hk a) as (r' & t' & Ht' & Hk').
    exists r', (t ++ t'). split; [by apply Forall_app|].
    intros w. unfold bind. by rewrite Hm, Hk', appendTrace_app.
  - exists (Panic msg), t. split; [done|]. intros w. unfold bind. by rewrite Hm.
Qed.

Lemma confined_call {A} (P : Event -> Prop) e (o : outcome A) :
  P e -> confined P (call e o).
Proof.
  intros He. unfold call. apply confined_bind; [by apply confined_emit|].
  intros _. destruct o; [apply confined_ret|apply confined_ret|apply confined_panic].
Qed.

Lemma getClient_inl datasource client :
  getClient datasource = inl client -> client = datasource.
Proof. destruct datasource; cbn; congruence. Qed.

Section Within.

Variable env : Env.
Variable DeduplicateSongs : list Song -> float -> list Song * option error.
Variable userInfo : User.
Variable sync : Sync.

Local Abbreviation P := (withinSync sync).

Lemma searchSongs_within songs datasource r :
  (exists dest, destinationOf sync = Some dest /\ MS_Datasource dest = datasource) ->
  confined P (searchSongs env songs datasource r).
Proof.
  intros Hdest. revert r. induction songs as [|song rest IH]; intros r; cbn [searchSongs].
  - apply confined_ret.
  - apply confined_bind; [by apply confined_call|].
    intros [id|err]; [apply IH|].
    apply confined_bind; [by apply confined_emit|]. intros _. apply IH.
Qed.

Lemma getSearchedSongs_within songs datasource :
  (exists dest, destinationOf sync = Some dest /\ MS_Datasource dest = datasource) ->
  confined P (getSearchedSongs env userInfo songs datasource).
Proof.
  intros Hdest. unfold getSearchedSongs.
  apply confined_bind; [by apply searchSongs_within|]. intros r. apply confined_ret.
Qed.

Lemma runOneWaySync_within v :
  GetSyncVariant sync = Sync_OneWaySync v ->
  confined P (runOneWaySync env userInfo v).
Proof.
  intros Hv. unfold runOneWaySync, shouldNormalize.
  destruct (getClient (MS_Datasource (OWS_Source v))) as [sourceClient|err] eqn:Hs;
    [apply getClient_inl in Hs as ->|apply confined_ret].
  destruct (getClient (MS_Datasource (OWS_Destination v))) as [destClient|err] eqn:Hd;
    [apply getClient_inl in Hd as ->|apply confined_ret].
  assert (Hsource : P (EvGetPlaylistSongs (MS_Datasource (OWS_Source v))
                         (MS_PlaylistId (OWS_Source v)))).
  { unfold withinSync, sourcesOf. rewrite Hv. apply list_elem_of_singleton.
    by destruct (OWS_Source v). }
  assert (Hdest : destinationOf sync
                  = Some (mkMusicSource (MS_Datasource (OWS_Destination v))
                            (MS_PlaylistId (OWS_Destination v)))).
  { unfold destinationOf. rewrite Hv. by destruct (OWS_Destination v). }
  apply confined_bind; [by apply confined_call|]. intros [sourceSongs|err];
    [|apply confined_ret].
  apply confined_bind.
  { destruct (LlmEnabled env); [by apply confined_call|apply confined_ret]. }
  intros [normalizedSongs|err]; [|apply confined_ret].
  apply confined_bind.
  { apply getSearchedSongs_within. eexists. split; [exact Hdest|done]. }
  intros [searchedSongs [err|]]; [apply confined_ret|].
  apply confined_bind.
  { destruct (OWS_OverwriteExisting v) eqn:Hover; [|apply confined_ret].
    apply confined_bind; [by apply confined_emit|]. intros _.
    apply confined_call. split; [exact Hdest|]. unfold overwriteOf. by rewrite Hv. }
  intros [[]|err]; [|apply confined_ret].
  apply confined_bind; [by apply confined_call|].
  intros [[]|err]; apply confined_ret.
Qed.

Lemma collectSongs_within sources allSongs :
  (forall source, source ∈ sources -> source ∈ sourcesOf sync) ->
  confined P (collectSongs env sources allSongs).
Proof.
  revert allSongs. induction sources as [|source rest IH]; intros allSongs Hin;
    cbn [collectSongs]; [apply confined_ret|].
  destruct (getClient (MS_Datasource source)) as [sourceClient|err] eqn:Hs;
    [apply getClient_inl in Hs as ->|apply confined_ret].
  assert (Hrest : forall source', source' ∈ rest -> source' ∈ sourcesOf sync)
    by (intros ? ?; apply Hin; by right).
  apply confined_bind.
  { apply confined_call. unfold withinSync.
    replace (mkMusicSource (MS_Datasource source) (MS_PlaylistId source)) with source
      by by destruct source.
    apply Hin. by left. }
  intros [songs|err]; [by apply IH|].
  apply confined_bind; [by apply confined_emit|]. intros _. by apply IH.
Qed.

Lemma runPlaylistMergeSync_within v :
  GetSyncVariant sync = Sync_PlaylistMergeSync v ->
  confined P (runPlaylistMergeSync env DeduplicateSongs userInfo v).
Proof.
  intros Hv. unfold runPlaylistMergeSync.
  apply confined_bind.
  { apply collectSongs_within. intros source Hin. unfold sourcesOf. by rewrite Hv. }
  intros [allSongs|err]; [|apply confined_ret].
  destruct (DeduplicateSongs allSongs 90) as [uniqueSongs [err|]]; [apply confined_ret|].
  destruct (getClient (MS_Datasource (PMS_Destination v))) as [destClient|err] eqn:Hd;
    [apply getClient_inl in Hd as ->|apply confined_ret].
  assert (Hdest : destinationOf sync
                  = Some (mkMusicSource (MS_Datasource (PMS_Destination v))
                            (MS_PlaylistId (PMS_Destination v)))).
  { unfold destinationOf. rewrite Hv. by destruct (PMS_Destination v). }
  apply confined_bind.
  { destruct (PMS_OverwriteExisting v) eqn:Hover; [|apply confined_ret].
    apply confined_call. split; [exact Hdest|]. unfold overwriteOf. by rewrite Hv. }
  intros [[]|err]; [|apply confined_ret].
  apply confined_bind.
  { apply getSearchedSongs_within. eexists. split; [exact Hdest|done]. }
  intros [searchedSongs [err|]]; [apply confined_ret|].
  apply confined_bind; [by apply confined_call|].
  intros [[]|err]; apply confined_ret.
Qed.

Lemma executeSync_within :
  confined P (executeSync env DeduplicateSongs userInfo sync).
Proof.
  unfold executeSync. destruct (GetSyncVariant sync) as [v|v|] eqn:Hv.
  - by apply runOneWaySync_within.
  - by apply runPlaylistMergeSync_within.
  - apply confined_ret.
Qed.

Lemma noProviderCall_within t : noProviderCall t -> Forall P t.
Proof.
  unfold noProviderCall. intros Hquiet. eapply Forall_impl; [exact Hquiet|].
  intros e He. by destruct e.
Qed.

Lemma storeBlock_within isCreate st runId evs :
  isStoreBlock isCreate st runId evs -> Forall P evs.
Proof.
  intros (? & ? & ? & ? & ? & -> & _).
  apply noProviderCall_within, storeBlock_noProviderCall.
Qed.

(** X11.  Whatever the store, the providers and the normalizer answer,
    a run stays within its sync: every playlist it fetches is a source
    of the sync, every search is on the datasource of the destination,
    and the only playlist it clears or adds to is the destination, which
    it clears only when the sync asks to overwrite. *)
Theorem RunSync_within_sync w :
  reachable (broadcaster w) ->
  exists err run w' t,
    RunSync env DeduplicateSongs userInfo sync w = (Ret (err, run), w')
    /\ trace w' = trace w ++ t
    /\ Forall (withinSync sync) t.
Proof.
  intros Hreach.
  destruct (storeWriteErr env (writes w)) as [err0|] eqn:He0.
  { destruct (RunSync_create_rejected env DeduplicateSongs userInfo sync w err0 He0 Hreach)
      as (wrapped & run & w' & events & Hrun & _ & _ & _ & Ht & Hquiet).
    exists (Some wrapped), run, w', events.
    split; [done|]. split; [done|]. by apply noProviderCall_within. }
  destruct (storeWriteErr env (S (writes w))) as [err1|] eqn:He1.
  { destruct (RunSync_running_rejected env DeduplicateSongs userInfo sync w err1
                He0 He1 Hreach)
      as (wrapped & run & w' & events & Hrun & _ & _ & Ht & Hquiet).
    exists (Some wrapped), run, w', events.
    split; [done|]. split; [done|]. by apply noProviderCall_within. }
  destruct executeSync_within as (r & t & Hwithin & Hexec).
  destruct (RunSync_started env DeduplicateSongs userInfo sync w r t He0 He1 Hreach Hexec)
    as (run & w' & blockP & blockR & finalEvents
        & Hrun & _ & _ & _ & _ & HblockP & HblockR & Ht & Hfinal).
  eexists _, run, w', _. split; [exact Hrun|]. split; [exact Ht|].
  apply Forall_app. split; [by eapply storeBlock_within|].
  apply Forall_app. split; [by eapply storeBlock_within|].
  apply Forall_app. split; [exact Hwithin|].
  apply Forall_app. split; [by destruct r; repeat constructor|].
  destruct (storeWriteErr env (S (S (writes w)))).
  - destruct Hfinal as [_ ->]. by repeat constructor.
  - destruct Hfinal as [_ (? & ? & ? & ? & -> & _)].
    apply noProviderCall_within, storeBlock_noProviderCall.
Qed.

End Within.

Lemma RunSync_within_sync_witness :
  exists err run w' t,
    Samples.runOneWay Samples.storeUp Samples.searchByName = (Ret (err, run), w')
    /\ trace w' = t
    /\ Forall (withinSync Samples.oneWay) t.
Proof.
  destruct (RunSync_within_sync
              (Samples.collaborators Samples.storeUp Samples.searchByName)
              Samples.sampleDeduplicateSongs Samples.alice Samples.oneWay
              Samples.emptyWorld emptyWorld_reachable)
    as (err & run & w' & t & Hrun & Ht & Hwithin).
  exists err, run, w', t. split; [exact Hrun|]. split; [exact Ht|exact Hwithin].
Defined.

(** *** Merging playlists *)

Section Merge.

Variable env : Env.
Variable DeduplicateSongs : list Song -> float -> list Song * option error.
Variable userInfo : User.





End Merge.


(** *** Runs that fail *)

Section Failures.

Variable env : Env.
Variable DeduplicateSongs : list Song -> float -> list Song * option error.
Variable userInfo : User.
Variable sync : Sync.

(** X13.  storeAndBroadcastSyncRun fails exactly when the store rejects
    the write, and then reads and broadcasts nothing.  When the write is
    accepted, a failed or empty re-read is no error: the run in memory
    is broadcast and returned in place of the stored row; otherwise the
    row read back is.  What is broadcast is what is returned, and it has
    the ids and the status of the run that was written. *)
Theorem storeAndBroadcastSyncRun_result syncRun isCreate w :
  reachable (broadcaster w) ->
  exists res w' t,
    storeAndBroadcastSyncRun env syncRun isCreate w = (Ret res, w')
    /\ trace w' = trace w ++ t
    /\ match storeWriteErr env (writes w) with
       | Some err =>
           (exists wrapped, res = (None, Some wrapped))
           /\ t = [writeEvent isCreate syncRun (Some err)]
           /\ broadcaster w' = broadcaster w
       | None =>
           exists sent found log skipped,
             res = (Some sent, None)
             /\ t = [writeEvent isCreate syncRun None; EvGetSyncs (GetRunId syncRun) found;
                     EvLog log; EvBroadcast sent skipped]
             /\ sameRun sent syncRun
             /\ match found with
                | Some row => sent = row /\ storeReadErr env (reads w) = None
                | None => sent = syncRun
                end
       end.
Proof.
  intros Hreach.
  destruct (storeWriteErr env (writes w)) as [err|] eqn:Herr.
  { destruct (storeAndBroadcast_rejected env syncRun isCreate w err Herr) as [wrapped ->].
    eexists _, _, _. split; [reflexivity|]. cbn. split; [reflexivity|].
    split; [by eexists|done]. }
  unfold storeAndBroadcastSyncRun, bind.
  set (w1 := snd ((if isCreate then CreateSyncRun env syncRun
                   else UpdateSyncRun env syncRun) w)).
  assert (Hwrite : (if isCreate then CreateSyncRun env syncRun
                    else UpdateSyncRun env syncRun) w = (Ret None, w1)).
  { unfold w1. destruct isCreate; unfold CreateSyncRun, UpdateSyncRun; by rewrite Herr. }
  assert (Hreads : reads w1 = reads w).
  { unfold w1. by destruct isCreate. }
  assert (Htrace : trace w1 = trace w ++ [writeEvent isCreate syncRun None]).
  { unfold w1. destruct isCreate; unfold CreateSyncRun, UpdateSyncRun; by rewrite Herr. }
  assert (Hreach1 : reachable (broadcaster w1)).
  { unfold w1. by destruct isCreate. }
  assert (Hrow : forall row, rows w1 !! GetRunId syncRun = Some row -> sameRun row syncRun).
  { unfold w1. intros row.
    destruct isCreate; unfold CreateSyncRun, UpdateSyncRun; rewrite Herr; cbn.
    - rewrite lookup_insert_eq. intros [= <-]. apply sameRun_stamped.
    - destruct (rows w !! GetRunId syncRun) eqn:Hold; [|by rewrite Hold].
      rewrite lookup_insert_eq. intros [= <-]. apply sameRun_stamped. }
  rewrite Hwrite. clearbody w1. clear Hwrite.
  unfold GetSyncs, emit. rewrite Hreads.
  destruct (storeReadErr env (reads w)) as [rerr|] eqn:Hread;
    [|destruct (rows w1 !! GetRunId syncRun) as [row|] eqn:Hl];
    cbn -[BroadcastRun];
    match goal with |- context [BroadcastRun ?r ?w2] =>
      destruct (BroadcastRun_reachable r w2 Hreach1) as (b' & skipped & Hb' & ->) end;
    cbn; eexists _, _, _; (split; [reflexivity|]); cbn;
    rewrite Htrace, <- ?app_assoc; (split; [reflexivity|]);
    eexists _, _, _, skipped; (split; [reflexivity|]); (split; [reflexivity|]).
  - split; [apply sameRun_refl|done].
  - split; [by apply Hrow|done].
  - split; [apply sameRun_refl|done].
Qed.

(** X14.  A one-way run that cannot read its source leaves the
    destination alone: when the fetch of the source playlist fails or
    panics, or the normalizer is enabled and fails or panics, the run
    makes no search on the destination and neither clears it nor adds to
    it; RunSync returns to its caller with a FAILED run record, and with
    the error of the fetch wrapped when the fetch returned one. *)
Theorem RunSync_unreadable_source v w :
  let source := OWS_Source v in
  reachable (broadcaster w) ->
  storeWriteErr env (writes w) = None ->
  storeWriteErr env (S (writes w)) = None ->
  GetSyncVariant sync = Sync_OneWaySync v ->
  match GetPlaylistSongs env (MS_Datasource source) (MS_PlaylistId source) with
  | Ok sourceSongs =>
      LlmEnabled env = true /\ forall songs, NormalizeSongs env sourceSongs <> Ok songs
  | _ => True
  end ->
  exists err run w' t,
    RunSync env DeduplicateSongs userInfo sync w = (Ret (err, run), w')
    /\ GetSyncStatus run = SYNC_STATUS_FAILED
    /\ trace w' = trace w ++ t
    /\ Forall (fun e => touchesDestination e = false) t
    /\ (forall cause,
          MS_Datasource source <> DATASOURCE_UNSPECIFIED ->
          MS_Datasource (OWS_Destination v) <> DATASOURCE_UNSPECIFIED ->
          GetPlaylistSongs env (MS_Datasource source) (MS_PlaylistId source) = Fail cause ->
          err = Some (WrappedError (WrappedError cause "failed to fetch source playlist")
                        "sync execution failed")).
Proof.
  cbv zeta. intros Hreach He0 He1 Hv Hsource.
  assert (Hexec : exists r t,
             (forall w0, executeSync env DeduplicateSongs userInfo sync w0
                         = (r, appendTrace w0 t))
             /\ r <> Ret None
             /\ Forall (fun e => touchesDestination e = false) t
             /\ (forall cause,
                   MS_Datasource (OWS_Source v) <> DATASOURCE_UNSPECIFIED ->
                   MS_Datasource (OWS_Destination v) <> DATASOURCE_UNSPECIFIED ->
                   GetPlaylistSongs env (MS_Datasource (OWS_Source v))
                     (MS_PlaylistId (OWS_Source v)) = Fail cause ->
                   r = Ret (Some (WrappedError cause "failed to fetch source playlist")))).
  { unfold executeSync. rewrite Hv. unfold runOneWaySync, shouldNormalize.
    destruct (getClient (MS_Datasource (OWS_Source v))) as [sourceClient|err] eqn:Hs.
    2:{ exists (Ret (Some err)), []. split; [intros w0; by rewrite appendTrace_nil|].
        split; [done|]. split; [constructor|]. intros cause Hds.
        by rewrite getClient_supported in Hs. }
    apply getClient_inl in Hs as ->.
    destruct (getClient (MS_Datasource (OWS_Destination v))) as [destClient|err] eqn:Hd.
    2:{ exists (Ret (Some err)), []. split; [intros w0; by rewrite appendTrace_nil|].
        split; [done|]. split; [constructor|]. intros cause _ Hds.
        by rewrite getClient_supported in Hd. }
    destruct (GetPlaylistSongs env (MS_Datasource (OWS_Source v))
                (MS_PlaylistId (OWS_Source v))) as [sourceSongs|err|msg].
    - destruct Hsource as [-> Hnorm].
      destruct (NormalizeSongs env sourceSongs) as [songs|err|msg] eqn:Hn.
      + by destruct (Hnorm songs).
      + exists (Ret (Some (WrappedError err "failed to normalize songs"))),
          [EvGetPlaylistSongs (MS_Datasource (OWS_Source v)) (MS_PlaylistId (OWS_Source v));
           EvNormalizeSongs sourceSongs].
        split; [intros w0; unfold bind; rewrite call_Ok; cbv beta iota;
                by rewrite Hn, call_Fail, appendTrace_app|].
        split; [done|]. split; [by repeat constructor|done].
      + exists (Panic msg),
          [EvGetPlaylistSongs (MS_Datasource (OWS_Source v)) (MS_PlaylistId (OWS_Source v));
           EvNormalizeSongs sourceSongs].
        split; [intros w0; unfold bind; rewrite call_Ok; cbv beta iota;
                by rewrite Hn, call_Panics, appendTrace_app|].
        split; [done|]. split; [by repeat constructor|done].
    - exists (Ret (Some (WrappedError err "failed to fetch source playlist"))),
        [EvGetPlaylistSongs (MS_Datasource (OWS_Source v)) (MS_PlaylistId (OWS_Source v))].
      split; [intros w0; unfold bind; by rewrite call_Fail|].
      split; [done|]. split; [by repeat constructor|]. by intros cause _ _ [= ->].
    - exists (Panic msg),
        [EvGetPlaylistSongs (MS_Datasource (OWS_Source v)) (MS_PlaylistId (OWS_Source v))].
      split; [intros w0; reflexivity|].
      split; [done|]. split; [by repeat constructor|done]. }
  destruct Hexec as (r & t & Hexec & Hr & Ht & Hcause).
  destruct (RunSync_started env DeduplicateSongs userInfo sync w r t He0 He1 Hreach Hexec)
    as (run & w' & blockP & blockR & finalEvents
        & Hrun & Hst & _ & _ & _ & HblockP & HblockR & Htrace & Hfinal).
  eexists _, run, w', _. split; [exact Hrun|]. split.
  { rewrite Hst. by destruct r as [[e|]|msg]. }
  split; [exact Htrace|]. split.
  { destruct HblockP as (? & ? & ? & ? & ? & -> & _).
    destruct HblockR as (? & ? & ? & ? & ? & -> & _).
    apply Forall_app. split; [by destruct true; repeat constructor|].
    apply Forall_app. split; [by repeat constructor|].
    apply Forall_app. split; [exact Ht|].
    apply Forall_app. split; [by destruct r; repeat constructor|].
    destruct (storeWriteErr env (S (S (writes w)))).
    - destruct Hfinal as [_ ->]. by repeat constructor.
    - destruct Hfinal as [_ (? & ? & ? & ? & -> & _)]. by repeat constructor. }
  intros cause Hs Hd Hfetch. by rewrite (Hcause cause Hs Hd Hfetch).
Qed.

(** X15.  RunSync does not call validateSync: given a sync that
    validateSync rejects (one with no variant set), it still creates the
    run and stores PENDING and RUNNING, then fails in the strategy switch
    without calling any provider, and returns the error of the switch
    with a FAILED run record. *)
Theorem RunSync_invalid_sync w rejected :
  reachable (broadcaster w) ->
  storeWriteErr env (writes w) = None ->
  storeWriteErr env (S (writes w)) = None ->
  validateSync sync = Some rejected ->
  exists run w' t,
    RunSync env DeduplicateSongs userInfo sync w =
      (Ret (Some (WrappedError (NewError "unreachable: unknown sync variant: <nil>")
                    "sync execution failed"), run), w')
    /\ GetSyncStatus run = SYNC_STATUS_FAILED
    /\ trace w' = trace w ++ t
    /\ noProviderCall t
    /\ exists statuses,
         persisted w' = persisted w ++ map (pair (uuid_NewString env)) statuses
         /\ [SYNC_STATUS_PENDING; SYNC_STATUS_RUNNING] `prefix_of` statuses.
Proof.
  intros Hreach He0 He1 Hinvalid.
  assert (Hv : GetSyncVariant sync = Sync_Unset).
  { unfold validateSync in Hinvalid. by destruct (GetSyncVariant sync). }
  assert (Hexec : forall w0, executeSync env DeduplicateSongs userInfo sync w0 =
                    (Ret (Some (NewError "unreachable: unknown sync variant: <nil>")),
                     appendTrace w0 [])).
  { intros w0. unfold executeSync. rewrite Hv. unfold ret. by rewrite appendTrace_nil. }
  destruct (RunSync_started env DeduplicateSongs userInfo sync w _ _ He0 He1 Hreach Hexec)
    as (run & w' & blockP & blockR & finalEvents
        & Hrun & Hst & _ & _ & _ & HblockP & HblockR & Htrace & Hfinal).
  eexists run, w', _. split; [exact Hrun|]. split; [exact Hst|].
  split; [exact Htrace|]. split.
  { destruct HblockP as (? & ? & ? & ? & ? & -> & _).
    destruct HblockR as (? & ? & ? & ? & ? & -> & _).
    apply Forall_app. split; [apply storeBlock_noProviderCall|].
    apply Forall_app. split; [apply storeBlock_noProviderCall|]. cbn [app].
    destruct (storeWriteErr env (S (S (writes w)))).
    - destruct Hfinal as [_ ->]. by repeat constructor.
    - destruct Hfinal as [_ (? & ? & ? & ? & -> & _)]. apply storeBlock_noProviderCall. }
  destruct (storeWriteErr env (S (S (writes w)))).
  - destruct Hfinal as [-> _].
    exists [SYNC_STATUS_PENDING; SYNC_STATUS_RUNNING]. by split.
  - destruct Hfinal as [-> _].
    exists [SYNC_STATUS_PENDING; SYNC_STATUS_RUNNING; SYNC_STATUS_FAILED].
    split; [done|]. by exists [SYNC_STATUS_FAILED].
Qed.

End Failures.

Lemma storeAndBroadcastSyncRun_result_witness :
  exists res w',
    storeAndBroadcastSyncRun (Samples.collaborators Samples.storeUp Samples.searchByName)
      (initialRun (Samples.collaborators Samples.storeUp Samples.searchByName) Samples.oneWay)
      true Samples.emptyWorld = (Ret res, w').
Proof.
  destruct (storeAndBroadcastSyncRun_result
              (Samples.collaborators Samples.storeUp Samples.searchByName)
              (initialRun (Samples.collaborators Samples.storeUp Samples.searchByName)
                 Samples.oneWay)
              true Samples.emptyWorld emptyWorld_reachable)
    as (res & w' & t & Hres & _).
  exists res, w'. exact Hres.
Defined.

Lemma RunSync_unreadable_source_witness :
  exists err run w' t,
    RunSync Samples.mergeCollaborators Samples.sampleDeduplicateSongs Samples.alice
      Samples.workoutCopy Samples.emptyWorld = (Ret (err, run), w')
    /\ GetSyncStatus run = SYNC_STATUS_FAILED
    /\ trace w' = t
    /\ Forall (fun e => touchesDestination e = false) t.
Proof.
  destruct (RunSync_unreadable_source Samples.mergeCollaborators
              Samples.sampleDeduplicateSongs Samples.alice Samples.workoutCopy
              {| OWS_Source := Samples.workout; OWS_Destination := Samples.everything;
                 OWS_OverwriteExisting := true |}
              Samples.emptyWorld emptyWorld_reachable eq_refl eq_refl eq_refl I)
    as (err & run & w' & t & Hrun & Hst & Ht & Hquiet & _).
  exists err, run, w', t. split; [exact Hrun|]. split; [exact Hst|].
  split; [exact Ht|exact Hquiet].
Defined.

Lemma RunSync_invalid_sync_witness :
  exists run w',
    RunSync Samples.mergeCollaborators Samples.sampleDeduplicateSongs Samples.alice
      Samples.noVariant Samples.emptyWorld =
      (Ret (Some (WrappedError (NewError "unreachable: unknown sync variant: <nil>")
                    "sync execution failed"), run), w')
    /\ GetSyncStatus run = SYNC_STATUS_FAILED.
Proof.
  destruct (RunSync_invalid_sync Samples.mergeCollaborators
              Samples.sampleDeduplicateSongs Samples.alice Samples.noVariant
              Samples.emptyWorld (NewError "unknown sync variant")
              emptyWorld_reachable eq_refl eq_refl eq_refl)
    as (run & w' & t & Hrun & Hst & _).
  exists run, w'. split; [exact Hrun|exact Hst].
Defined.

End EngineFacts.

(** ** Creating a sync: duplicates *)

Module CreateSyncFacts.
Import CreateSync.

Lemma text_leb_refl a : text_leb a a = true.
Proof.
  induction a as [|x a IH]; [done|].
  cbn. by rewrite N.ltb_irrefl, N.eqb_refl.
Qed.

Lemma text_leb_cons x a y b :
  text_leb (x :: a) (y :: b) = true <-> x < y \/ (x = y /\ text_leb a b = true).
Proof.
  cbn. destruct (N.ltb_spec x y) as [Hlt|Hge]; [by intuition|].
  destruct (N.eqb_spec x y) as [->|Hne].
  - split; [by right|]. intros [?|[_ ?]]; [lia|done].
  - split; [done|]. intros [?|[? _]]; [lia|done].
Qed.

#[local] Instance text_le_trans : Transitive text_le.
Proof.
  unfold text_le. intros a. induction a as [|x a IH]; intros b c Hab Hbc; [done|].
  destruct b as [|y b]; [done|]. destruct c as [|z c]; [done|].
  apply text_leb_cons in Hab, Hbc. apply text_leb_cons.
  destruct Hab as [?|[-> Hab]], Hbc as [?|[-> Hbc]]; try (left; lia).
  right. split; [done|]. by apply (IH b).
Qed.

#[local] Instance text_le_antisym : AntiSymm (=) text_le.
Proof.
  unfold text_le. intros a. induction a as [|x a IH]; intros b Hab Hba.
  - by destruct b.
  - destruct b as [|y b]; [done|].
    apply text_leb_cons in Hab, Hba.
    destruct Hab as [?|[-> Hab]], Hba as [?|[? Hba]]; try lia.
    f_equal. by apply IH.
Qed.

Lemma text_leb_total a b : text_leb a b = false -> text_leb b a = true.
Proof.
  revert b. induction a as [|x a IH]; intros b; [done|].
  destruct b as [|y b]; [done|]. cbn.
  destruct (N.ltb_spec x y); [done|]. destruct (N.eqb_spec x y) as [->|Hne].
  - rewrite N.ltb_irrefl, N.eqb_refl. apply IH.
  - intros _. destruct (N.ltb_spec y x); [done|]. lia.
Qed.

Lemma insertKey_Permutation k keys : insertKey k keys ≡ₚ k :: keys.
Proof.
  induction keys as [|x rest IH]; [done|].
  cbn. destruct (text_leb k x); [done|].
  by rewrite IH, Permutation_swap.
Qed.

Lemma insertKey_HdRel x k keys :
  text_le x k -> HdRel text_le x keys -> HdRel text_le x (insertKey k keys).
Proof.
  intros Hk Hhd. destruct keys as [|y rest]; cbn; [by constructor|].
  destruct (text_leb k y); constructor; [done|]. by inversion Hhd.
Qed.

Lemma insertKey_Sorted k keys : Sorted text_le keys -> Sorted text_le (insertKey k keys).
Proof.
  induction 1 as [|x rest Hsorted IH Hhd]; cbn; [by repeat constructor|].
  destruct (text_leb k x) eqn:Hk.
  - constructor; [by constructor|]. by constructor.
  - constructor; [exact IH|]. apply insertKey_HdRel; [|exact Hhd].
    by apply text_leb_total.
Qed.

Lemma sort_Strings_Sorted keys : Sorted text_le (sort_Strings keys).
Proof.
  induction keys as [|k rest IH]; [constructor|]. by apply insertKey_Sorted.
Qed.

Lemma sort_Strings_Permutation keys : sort_Strings keys ≡ₚ keys.
Proof.
  induction keys as [|k rest IH]; [done|].
  cbn. by rewrite insertKey_Permutation, IH.
Qed.

(** Sorting forgets the order of the keys. *)
Lemma sort_Strings_order keys keys' :
  keys ≡ₚ keys' -> sort_Strings keys = sort_Strings keys'.
Proof.
  intros Hperm. apply (Sorted_unique text_le); try apply sort_Strings_Sorted.
  by rewrite !sort_Strings_Permutation.
Qed.

Section Handler.

Variable Datasource_number : Datasource -> Z.
Variable db : Db.
Variable userInfo : User.

Lemma canonicalSourceKey_order sources sources' :
  sources ≡ₚ sources' ->
  canonicalSourceKey Datasource_number sources = canonicalSourceKey Datasource_number sources'.
Proof.
  intros Hperm. unfold canonicalSourceKey. f_equal.
  apply sort_Strings_order. by apply Permutation_map.
Qed.

(** Whatever else it checks, the validation ends in an error once one of
    the existing syncs is a duplicate. *)
Lemma validatePlaylistMergeSync_duplicate req existingSyncs :
  existsb (isMergeDuplicate Datasource_number req) existingSyncs = true ->
  exists err,
    validatePlaylistMergeSync Datasource_number db userInfo req existingSyncs = Some err
    /\ (validatePlaylistMergeSync Datasource_number db userInfo req [] = None ->
        err = duplicateMergeError).
Proof.
  intros Hdup. unfold validatePlaylistMergeSync. rewrite Hdup.
  destruct (length (PMS_Sources req) <? 2)%nat; [by eexists|].
  case_bool_decide; [by eexists|]. case_bool_decide; [by eexists|].
  destruct (GetConnectedDatasources db) as [connected|err]; [|by eexists].
  destruct (negb _); [by eexists|].
  destruct (validateSources _ _ _); [by eexists|].
  by eexists.
Qed.

(** C6 (as amended).  The key of a list of merge sources is the key of
    each of its permutations, and a request for a merge sync whose
    sources are a permutation of those of a merge sync the user already
    has, with the same destination, is rejected whatever the order of
    its sources: the handler answers with a bad request, and the error
    of the validation is the duplicate error when the request is
    otherwise valid. *)
Theorem canonicalSourceKey_order_insensitive req pms existingSync existingSyncs :
  PMS_Sources req ≡ₚ PMS_Sources pms ->
  PMS_Destination req = PMS_Destination pms ->
  SyncStore_GetSyncs db = inl existingSyncs ->
  existingSync ∈ existingSyncs ->
  GetSyncVariant existingSync = Sync_PlaylistMergeSync pms ->
  canonicalSourceKey Datasource_number (PMS_Sources req)
  = canonicalSourceKey Datasource_number (PMS_Sources pms)
  /\ (exists err,
        validatePlaylistMergeSync Datasource_number db userInfo req existingSyncs = Some err
        /\ (validatePlaylistMergeSync Datasource_number db userInfo req [] = None ->
            err = duplicateMergeError))
  /\ exists err,
       ProcessRequest Datasource_number db userInfo (CreateSyncRequest_PlaylistMergeSync req)
       = BadRequest err.
Proof.
  intros Hperm Hdest Hsyncs Hin Hvariant.
  pose proof (canonicalSourceKey_order _ _ Hperm) as Hkey.
  assert (Hdup : existsb (isMergeDuplicate Datasource_number req) existingSyncs = true).
  { apply existsb_exists. exists existingSync. split; [by apply list_elem_of_In|].
    unfold isMergeDuplicate. rewrite Hvariant, Hkey, Hdest.
    by rewrite !bool_decide_eq_true_2. }
  destruct (validatePlaylistMergeSync_duplicate req existingSyncs Hdup) as (err & Herr & Hwhy).
  split; [exact Hkey|]. split; [by exists err|].
  unfold ProcessRequest, validateRequest. rewrite Hsyncs, Herr. by eexists.
Qed.

(** *** Which requests are accepted *)

Lemma length_zero_nil (t : text) : length t = 0%nat <-> t = [].
Proof. by destruct t. Qed.

Lemma validateSources_None connected i sources :
  validateSources connected i sources = None <-> Forall (validEndpoint connected) sources.
Proof.
  revert i. induction sources as [|source rest IH]; intros i; cbn [validateSources].
  - split; [constructor|done].
  - rewrite Forall_cons. unfold validEndpoint at 1.
    case_bool_decide as Hds; [split; [done|tauto]|].
    case_bool_decide as Hid; [split; [done|]|].
    { intros [(_ & Hne & _) _]. by apply length_zero_nil in Hid. }
    case_bool_decide as Hconn; cbn [negb].
    + rewrite IH. split; [|tauto]. intros Hrest. split; [|done].
      split; [done|]. split; [|done]. by rewrite <- length_zero_nil.
    + split; [done|tauto].
Qed.

(** X16.  The merge validation names the first source that is not
    valid, counting from one: the sources before it have a specified,
    connected datasource and a playlist id, and the error says which of
    the three it lacks, in this order of checks. *)
Theorem validateSources_first_invalid connected sources err :
  validateSources connected 0 sources = Some err ->
  exists pre source post,
    sources = pre ++ source :: post
    /\ Forall (validEndpoint connected) pre
    /\ let n := pretty (length pre + 1)%nat in
       (MS_Datasource source = DATASOURCE_UNSPECIFIED
        /\ err = NewError ("source datasource " +:+ n +:+ " must be specified"))
       \/ (MS_Datasource source <> DATASOURCE_UNSPECIFIED
           /\ MS_PlaylistId source = []
           /\ err = NewError ("source playlist id " +:+ n +:+ " must be specified"))
       \/ (MS_Datasource source <> DATASOURCE_UNSPECIFIED
           /\ MS_PlaylistId source <> []
           /\ (MS_Datasource source ∉ connected)
           /\ err = NewError ("source datasource " +:+ n +:+ " is not connected")).
Proof.
  assert (Hgen : forall i,
             validateSources connected i sources = Some err ->
             exists pre source post,
               sources = pre ++ source :: post
               /\ Forall (validEndpoint connected) pre
               /\ let n := pretty (i + length pre + 1)%nat in
                  (MS_Datasource source = DATASOURCE_UNSPECIFIED
                   /\ err = NewError ("source datasource " +:+ n +:+ " must be specified"))
                  \/ (MS_Datasource source <> DATASOURCE_UNSPECIFIED
                      /\ MS_PlaylistId source = []
                      /\ err = NewError ("source playlist id " +:+ n +:+ " must be specified"))
                  \/ (MS_Datasource source <> DATASOURCE_UNSPECIFIED
                      /\ MS_PlaylistId source <> []
                      /\ (MS_Datasource source ∉ connected)
                      /\ err = NewError ("source datasource " +:+ n
                                           +:+ " is not connected"))).
  { induction sources as [|source rest IH]; intros i; cbn [validateSources]; [done|].
    case_bool_decide as Hds.
    { intros [= <-]. exists [], source, rest. split; [done|]. split; [constructor|].
      cbn. rewrite Nat.add_0_r. by left. }
    case_bool_decide as Hid.
    { intros [= <-]. exists [], source, rest. split; [done|]. split; [constructor|].
      cbn. rewrite Nat.add_0_r. right; left. by apply length_zero_nil in Hid. }
    case_bool_decide as Hconn; cbn [negb].
    - intros Hrest. destruct (IH (S i) Hrest) as (pre & s & post & -> & Hpre & Herr).
      exists (source :: pre), s, post. split; [done|]. split.
      + constructor; [|done]. split; [done|]. split; [|done]. by rewrite <- length_zero_nil.
      + cbn [length]. by replace (i + S (length pre) + 1)%nat
          with (S i + length pre + 1)%nat by lia.
    - intros [= <-]. exists [], source, rest. split; [done|]. split; [constructor|].
      cbn. rewrite Nat.add_0_r. right; right. split; [done|]. split; [|done].
      by rewrite <- length_zero_nil. }
  intros Herr. exact (Hgen 0%nat Herr).
Qed.

Lemma existsb_isMergeDuplicate req existingSyncs :
  existsb (isMergeDuplicate Datasource_number req) existingSyncs = true <->
  exists existingSync pms,
    existingSync ∈ existingSyncs
    /\ GetSyncVariant existingSync = Sync_PlaylistMergeSync pms
    /\ canonicalSourceKey Datasource_number (PMS_Sources pms)
       = canonicalSourceKey Datasource_number (PMS_Sources req)
    /\ MS_PlaylistId (PMS_Destination pms) = MS_PlaylistId (PMS_Destination req)
    /\ MS_Datasource (PMS_Destination pms) = MS_Datasource (PMS_Destination req).
Proof.
  rewrite existsb_exists. split.
  - intros (existingSync & Hin%list_elem_of_In & Hdup). unfold isMergeDuplicate in Hdup.
    destruct (GetSyncVariant existingSync) as [|pms|] eqn:Hv; [done| |done].
    apply andb_true_iff in Hdup as [[Hk Hp]%andb_true_iff Hd].
    apply bool_decide_eq_true in Hk, Hp, Hd. by exists existingSync, pms.
  - intros (existingSync & pms & Hin & Hv & Hk & Hp & Hd).
    exists existingSync. split; [by apply list_elem_of_In|].
    unfold isMergeDuplicate. rewrite Hv. by rewrite !bool_decide_eq_true_2.
Qed.

(** X17.  A request for a merge sync is answered OK exactly when the
    user's syncs and connected datasources can be read, the request
    names at least two sources, the destination and every source are
    valid endpoints, no merge sync of the user has the same source key
    and destination, and the store accepts the new sync; the sync that
    is created is the request's, under a new id, owned by the user. *)
Theorem ProcessRequest_merge_accepted req sync :
  ProcessRequest Datasource_number db userInfo (CreateSyncRequest_PlaylistMergeSync req)
  = OK sync
  <->
  (exists existingSyncs connected,
     SyncStore_GetSyncs db = inl existingSyncs
     /\ GetConnectedDatasources db = inl connected
     /\ (2 <= length (PMS_Sources req))%nat
     /\ validEndpoint connected (PMS_Destination req)
     /\ Forall (validEndpoint connected) (PMS_Sources req)
     /\ ~ (exists existingSync pms,
             existingSync ∈ existingSyncs
             /\ GetSyncVariant existingSync = Sync_PlaylistMergeSync pms
             /\ canonicalSourceKey Datasource_number (PMS_Sources pms)
                = canonicalSourceKey Datasource_number (PMS_Sources req)
             /\ MS_PlaylistId (PMS_Destination pms) = MS_PlaylistId (PMS_Destination req)
             /\ MS_Datasource (PMS_Destination pms) = MS_Datasource (PMS_Destination req)))
  /\ SyncStore_CreateSync db = None
  /\ sync = {| GetId := uuid_NewString db; GetUserId := User_GetId userInfo;
               GetSyncVariant := Sync_PlaylistMergeSync req |}.
Proof.
  unfold ProcessRequest, validateRequest, createSyncFromRequest, NewSync_PlaylistMergeSync.
  destruct (SyncStore_GetSyncs db) as [existingSyncs|gerr];
    [|split; [done|by intros [(? & ? & ? & _) _]]].
  unfold validatePlaylistMergeSync.
  destruct (length (PMS_Sources req) <? 2)%nat eqn:Hlen.
  { split; [done|]. apply Nat.ltb_lt in Hlen.
    intros [(? & ? & _ & _ & ? & _) _]. lia. }
  apply Nat.ltb_ge in Hlen.
  case_bool_decide as Hds.
  { split; [done|]. by intros [(? & ? & _ & _ & _ & (? & _) & _) _]. }
  case_bool_decide as Hid.
  { split; [done|]. apply length_zero_nil in Hid.
    by intros [(? & ? & _ & _ & _ & (_ & ? & _) & _) _]. }
  destruct (GetConnectedDatasources db) as [connected|cerr];
    [|split; [done|by intros [(? & ? & _ & ? & _) _]]].
  case_bool_decide as Hconn; cbn [negb].
  2:{ split; [done|]. intros [(? & c & _ & [= <-] & _ & (_ & _ & ?) & _) _]. done. }
  destruct (validateSources connected 0 (PMS_Sources req)) as [verr|] eqn:Hsources.
  { split; [done|]. intros [(? & c & _ & [= <-] & _ & _ & Hall & _) _].
    apply (proj2 (validateSources_None connected 0%nat _)) in Hall. congruence. }
  apply validateSources_None in Hsources.
  destruct (existsb (isMergeDuplicate Datasource_number req) existingSyncs) eqn:Hdup.
  { split; [done|]. apply existsb_isMergeDuplicate in Hdup.
    intros [(e & c & [= <-] & _ & _ & _ & _ & Hnone) _]. by destruct Hnone. }
  assert (Hnone : ~ (exists existingSync pms,
             existingSync ∈ existingSyncs
             /\ GetSyncVariant existingSync = Sync_PlaylistMergeSync pms
             /\ canonicalSourceKey Datasource_number (PMS_Sources pms)
                = canonicalSourceKey Datasource_number (PMS_Sources req)
             /\ MS_PlaylistId (PMS_Destination pms) = MS_PlaylistId (PMS_Destination req)
             /\ MS_Datasource (PMS_Destination pms) = MS_Datasource (PMS_Destination req))).
  { intros Hex. apply existsb_isMergeDuplicate in Hex. congruence. }
  assert (Hdest : validEndpoint connected (PMS_Destination req)).
  { split; [done|]. split; [|done]. by rewrite <- length_zero_nil. }
  destruct (SyncStore_CreateSync db) as [serr|].
  { split; [done|]. by intros (_ & ? & _). }
  split.
  - intros [= <-]. split; [|done]. by exists existingSyncs, connected.
  - by intros (_ & _ & ->).
Qed.

Lemma sameEndpoints_eq ows req :
  sameEndpoints ows req = true <->
  OWS_Source ows = OWS_Source req /\ OWS_Destination ows = OWS_Destination req.
Proof.
  unfold sameEndpoints. rewrite !andb_true_iff, !bool_decide_eq_true.
  destruct (OWS_Source ows), (OWS_Source req), (OWS_Destination ows), (OWS_Destination req).
  cbn. split; [intros [[[-> ->] ->] ->]; done|intros [[= -> ->] [= -> ->]]; done].
Qed.

(** X18.  A request for a one-way sync is answered OK exactly when the
    user's syncs and connected datasources can be read, its source and
    its destination are valid endpoints, no one-way sync of the user
    has the same source and the same destination (whatever their
    overwrite flags), and the store accepts the new sync; the sync that
    is created is the request's, under a new id, owned by the user.
    Nothing asks that the source and the destination differ. *)
Theorem ProcessRequest_one_way_accepted req sync :
  ProcessRequest Datasource_number db userInfo (CreateSyncRequest_OneWaySync req) = OK sync
  <->
  (exists existingSyncs connected,
     SyncStore_GetSyncs db = inl existingSyncs
     /\ GetConnectedDatasources db = inl connected
     /\ validEndpoint connected (OWS_Source req)
     /\ validEndpoint connected (OWS_Destination req)
     /\ ~ (exists existingSync ows,
             existingSync ∈ existingSyncs
             /\ GetSyncVariant existingSync = Sync_OneWaySync ows
             /\ OWS_Source ows = OWS_Source req
             /\ OWS_Destination ows = OWS_Destination req))
  /\ SyncStore_CreateSync db = None
  /\ sync = {| GetId := uuid_NewString db; GetUserId := User_GetId userInfo;
               GetSyncVariant := Sync_OneWaySync req |}.
Proof.
  unfold ProcessRequest, validateRequest, createSyncFromRequest, NewSync_OneWaySync.
  destruct (SyncStore_GetSyncs db) as [existingSyncs|gerr];
    [|split; [done|by intros [(? & ? & ? & _) _]]].
  unfold validateOneWaySync.
  case_bool_decide as Hs.
  { split; [done|]. by intros [(? & ? & _ & _ & (? & _) & _) _]. }
  case_bool_decide as Hd.
  { split; [done|]. by intros [(? & ? & _ & _ & _ & (? & _) & _) _]. }
  destruct (GetConnectedDatasources db) as [connected|cerr];
    [|split; [done|by intros [(? & ? & _ & ? & _) _]]].
  case_bool_decide as Hsc; cbn [negb].
  2:{ split; [done|]. intros [(? & c & _ & [= <-] & (_ & _ & ?) & _) _]. done. }
  case_bool_decide as Hdc; cbn [negb].
  2:{ split; [done|]. intros [(? & c & _ & [= <-] & _ & (_ & _ & ?) & _) _]. done. }
  case_bool_decide as Hsid.
  { split; [done|]. apply length_zero_nil in Hsid.
    by intros [(? & ? & _ & _ & (_ & ? & _) & _) _]. }
  case_bool_decide as Hdid.
  { split; [done|]. apply length_zero_nil in Hdid.
    by intros [(? & ? & _ & _ & _ & (_ & ? & _) & _) _]. }
  assert (Hdup : existsb (isOneWayDuplicate req) existingSyncs = true <->
                 exists existingSync ows,
                   existingSync ∈ existingSyncs
                   /\ GetSyncVariant existingSync = Sync_OneWaySync ows
                   /\ OWS_Source ows = OWS_Source req
                   /\ OWS_Destination ows = OWS_Destination req).
  { rewrite existsb_exists. split.
    - intros (existingSync & Hin%list_elem_of_In & Hsame). unfold isOneWayDuplicate in Hsame.
      destruct (GetSyncVariant existingSync) as [ows| |] eqn:Hv; [|done|done].
      apply sameEndpoints_eq in Hsame as [? ?]. by exists existingSync, ows.
    - intros (existingSync & ows & Hin & Hv & Hsrc & Hdst).
      exists existingSync. split; [by apply list_elem_of_In|].
      unfold isOneWayDuplicate. rewrite Hv. by apply sameEndpoints_eq. }
  destruct (existsb (isOneWayDuplicate req) existingSyncs) eqn:Hex.
  { split; [done|]. intros [(e & c & [= <-] & _ & _ & _ & Hnone) _].
    destruct Hnone. by apply Hdup. }
  assert (Hsrc : validEndpoint connected (OWS_Source req)).
  { split; [done|]. split; [|done]. by rewrite <- length_zero_nil. }
  assert (Hdst : validEndpoint connected (OWS_Destination req)).
  { split; [done|]. split; [|done]. by rewrite <- length_zero_nil. }
  destruct (SyncStore_CreateSync db) as [serr|].
  { split; [done|]. by intros (_ & ? & _). }
  split.
  - intros [= <-]. split; [|done]. exists existingSyncs, connected.
    do 4 (split; [done|]). intros Hsome. apply Hdup in Hsome. congruence.
  - by intros (_ & _ & ->).
Qed.

(** *** The source key tells source lists apart *)

Lemma runes_String c str : runes (String c str) = Ascii.N_of_ascii c :: runes str.
Proof. reflexivity. Qed.

Lemma runes_append s1 s2 : runes (s1 +:+ s2) = runes s1 ++ runes s2.
Proof.
  induction s1 as [|c s1 IH]; [done|].
  change (String c s1 +:+ s2) with (String c (s1 +:+ s2)).
  by rewrite !runes_String, IH.
Qed.

Lemma runes_inj s1 s2 : runes s1 = runes s2 -> s1 = s2.
Proof.
  revert s2. induction s1 as [|c s1 IH]; intros [|c' s2]; try done.
  rewrite !runes_String. intros [= Hc Hs]. f_equal; [|by apply IH].
  by rewrite <- (Ascii.ascii_N_embedding c), <- (Ascii.ascii_N_embedding c'), Hc.
Qed.

Lemma pretty_N_char_numeral d : numeral (Ascii.N_of_ascii (pretty_N_char d)) = true.
Proof. unfold pretty_N_char. by repeat case_match. Qed.

Lemma pretty_N_go_numeral x str :
  Forall (fun r => numeral r = true) (runes str) ->
  Forall (fun r => numeral r = true) (runes (pretty_N_go x str)).
Proof.
  revert str. induction (N.lt_wf_0 x) as [x _ IH]; intros str Hstr.
  destruct (decide (x = 0)) as [->|Hx]; [by rewrite pretty_N_go_0|].
  rewrite pretty_N_go_step by lia. apply IH; [apply N.div_lt; lia|].
  rewrite runes_String. constructor; [apply pretty_N_char_numeral|done].
Qed.

Lemma pretty_N_numeral (x : N) : Forall (fun r => numeral r = true) (runes (pretty x)).
Proof.
  unfold pretty, pretty_N. case_decide; [by repeat constructor|].
  apply pretty_N_go_numeral. constructor.
Qed.

Lemma pretty_Z_numeral (z : Z) : Forall (fun r => numeral r = true) (runes (pretty z)).
Proof.
  destruct z as [|x|x]; unfold pretty, pretty_Z.
  - by repeat constructor.
  - apply pretty_N_numeral.
  - rewrite runes_append. apply Forall_app. split; [by repeat constructor|].
    apply pretty_N_numeral.
Qed.

(** A string cut at the first separator: the part before it and the
    rest are determined. *)
Lemma cut_at_separator (sep : rune) k1 k2 t1 t2 :
  sep ∉ k1 -> sep ∉ k2 ->
  (t1 = [] \/ exists t, t1 = sep :: t) -> (t2 = [] \/ exists t, t2 = sep :: t) ->
  k1 ++ t1 = k2 ++ t2 -> k1 = k2 /\ t1 = t2.
Proof.
  revert k2. induction k1 as [|x k1 IH]; intros [|y k2] H1 H2 Ht1 Ht2; cbn.
  - done.
  - intros ->. destruct Ht1 as [[=]|[t [= -> _]]]. destruct H2. by left.
  - intros <-. destruct Ht2 as [[=]|[t [= -> _]]]. destruct H1. by left.
  - intros [= -> Hrest]. apply not_elem_of_cons in H1 as [_ H1], H2 as [_ H2].
    destruct (IH k2 H1 H2 Ht1 Ht2 Hrest) as [-> ->]. done.
Qed.

Lemma Join_head k rest (sep : rune) :
  Join (k :: rest) [sep]
  = k ++ match rest with [] => [] | _ => sep :: Join rest [sep] end.
Proof. destruct rest; cbn; [by rewrite app_nil_r|done]. Qed.

Lemma Join_inj (sep : rune) keys keys' :
  Forall (fun k => k <> [] /\ sep ∉ k) keys ->
  Forall (fun k => k <> [] /\ sep ∉ k) keys' ->
  Join keys [sep] = Join keys' [sep] -> keys = keys'.
Proof.
  revert keys'. induction keys as [|k rest IH]; intros [|k' rest'] Hk Hk'.
  - done.
  - apply Forall_cons in Hk' as [[Hne _] _]. rewrite Join_head. cbn [Join].
    intros Heq. symmetry in Heq. apply app_eq_nil in Heq as [-> _]. done.
  - apply Forall_cons in Hk as [[Hne _] _]. rewrite Join_head. cbn [Join].
    intros Heq. apply app_eq_nil in Heq as [-> _]. done.
  - apply Forall_cons in Hk as [[Hne Hsep] Hk], Hk' as [[Hne' Hsep'] Hk'].
    rewrite !Join_head. intros Heq.
    apply (cut_at_separator sep) in Heq as [-> Htail]; [|done|done| |].
    + f_equal. destruct rest as [|k1 rest], rest' as [|k1' rest']; try done.
      injection Htail as Htail. by apply IH.
    + destruct rest; [by left|right; by eexists].
    + destruct rest'; [by left|right; by eexists].
Qed.

Lemma numeral_not r : numeral r = true -> r <> 58 /\ r <> 124.
Proof.
  unfold numeral. rewrite orb_true_iff, andb_true_iff, N.eqb_eq, !N.leb_le. lia.
Qed.

Lemma sourceKey_shape source :
  exists digits,
    sourceKey Datasource_number source = digits ++ 58 :: MS_PlaylistId source
    /\ digits = runes (pretty (Datasource_number (MS_Datasource source)))
    /\ (58 ∉ digits) /\ (124 ∉ digits).
Proof.
  eexists. split; [reflexivity|]. split; [reflexivity|].
  pose proof (pretty_Z_numeral (Datasource_number (MS_Datasource source))) as Hnum.
  rewrite Forall_forall in Hnum.
  split; intros Hin; apply Hnum in Hin; apply numeral_not in Hin; by destruct Hin.
Qed.

Lemma sourceKey_inj :
  Inj (=) (=) Datasource_number -> Inj (=) (=) (sourceKey Datasource_number).
Proof.
  intros Hinj s1 s2 Heq.
  destruct (sourceKey_shape s1) as (d1 & E1 & Hd1 & H1 & _).
  destruct (sourceKey_shape s2) as (d2 & E2 & Hd2 & H2 & _).
  rewrite E1, E2 in Heq.
  apply (cut_at_separator 58) in Heq as [Hd [= Hid]]; [|done|done|right; by eexists..].
  rewrite Hd1, Hd2 in Hd.
  apply runes_inj, (inj pretty), Hinj in Hd.
  destruct s1, s2. cbn in *. by subst.
Qed.

(** X19.  When the datasources have different numbers and no playlist
    id holds a vertical bar, two lists of merge sources have the same
    key exactly when one is a permutation of the other: the duplicate
    check never takes two different sets of playlists for one. *)
Theorem canonicalSourceKey_tells_apart sources sources' :
  Inj (=) (=) Datasource_number ->
  (forall source, source ∈ sources ++ sources' -> rune1 "|" ∉ MS_PlaylistId source) ->
  canonicalSourceKey Datasource_number sources = canonicalSourceKey Datasource_number sources'
  <-> sources ≡ₚ sources'.
Proof.
  intros Hinj Hbar. split; [|apply canonicalSourceKey_order].
  change (rune1 "|") with 124 in Hbar. unfold canonicalSourceKey.
  change (runes "|") with [124].
  assert (Hkeys : forall l, (forall source, source ∈ l -> 124 ∉ MS_PlaylistId source) ->
                    Forall (fun k => k <> [] /\ 124 ∉ k)
                      (sort_Strings (map (sourceKey Datasource_number) l))).
  { intros l Hl. rewrite sort_Strings_Permutation. apply Forall_forall.
    intros k (source & -> & Hin)%list_elem_of_fmap.
    destruct (sourceKey_shape source) as (d & -> & _ & _ & Hd).
    split; [by destruct d|]. cbn [MS_PlaylistId] in *.
    rewrite elem_of_app, elem_of_cons. intros [?|[?|?]]; [done|done|].
    by apply (Hl source). }
  intros Heq. apply Join_inj in Heq.
  - assert (Hperm : map (sourceKey Datasource_number) sources
                    ≡ₚ map (sourceKey Datasource_number) sources').
    { by rewrite <- (sort_Strings_Permutation (map _ sources)), Heq,
        sort_Strings_Permutation. }
    apply Permutation_map_inv in Hperm as (l3 & Hmap & Hperm).
    pose proof (sourceKey_inj Hinj) as Hkinj.
    apply (inj (fmap (sourceKey Datasource_number))) in Hmap. by subst.
  - apply Hkeys. intros source Hin. apply Hbar, elem_of_app. by left.
  - apply Hkeys. intros source Hin. apply Hbar, elem_of_app. by right.
Qed.

End Handler.

Lemma sampleDatasourceNumber_inj : Inj (=) (=) Samples.sampleDatasourceNumber.
Proof. intros [] []; cbn; congruence. Qed.

Lemma canonicalSourceKey_tells_apart_witness :
  canonicalSourceKey Samples.sampleDatasourceNumber [Samples.roadTrip; Samples.workout]
  = canonicalSourceKey Samples.sampleDatasourceNumber [Samples.workout; Samples.roadTrip]
  <-> [Samples.roadTrip; Samples.workout] ≡ₚ [Samples.workout; Samples.roadTrip].
Proof.
  apply (canonicalSourceKey_tells_apart Samples.sampleDatasourceNumber).
  - exact sampleDatasourceNumber_inj.
  - intros source Hin. repeat (apply elem_of_cons in Hin as [->|Hin]);
      [vm_compute; intros Hbar; repeat (apply elem_of_cons in Hbar as [[=]|Hbar]);
       by apply elem_of_nil in Hbar..|by apply elem_of_nil in Hin].
Defined.

Lemma validateSources_first_invalid_witness :
  exists pre source post,
    [Samples.roadTrip; mkMusicSource DATASOURCE_TIDAL []; Samples.workout]
    = pre ++ source :: post
    /\ length pre = 1%nat.
Proof.
  destruct (validateSources_first_invalid
              [DATASOURCE_SPOTIFY; DATASOURCE_YOUTUBE; DATASOURCE_TIDAL]
              [Samples.roadTrip; mkMusicSource DATASOURCE_TIDAL []; Samples.workout]
              (NewError "source playlist id 2 must be specified") eq_refl)
    as (pre & source & post & Hsplit & Hpre & Herr).
  exists pre, source, post. split; [exact Hsplit|].
  destruct pre as [|a [|b pre]]; [|reflexivity|].
  - cbn in Herr. destruct Herr as [[_ [=]]|[(_ & _ & [=])|(_ & _ & _ & [=])]].
  - exfalso. destruct pre as [|c pre].
    + injection Hsplit as _ <- _. apply Forall_cons in Hpre as [_ Hpre].
      apply Forall_cons in Hpre as [(_ & Hid & _) _]. done.
    + injection Hsplit as _ <- _. apply Forall_cons in Hpre as [_ Hpre].
      apply Forall_cons in Hpre as [(_ & Hid & _) _]. done.
Defined.

Lemma canonicalSourceKey_order_insensitive_witness :
  canonicalSourceKey Samples.sampleDatasourceNumber [Samples.workout; Samples.roadTrip]
  = runes "1:road-trip|2:workout"
  /\ exists err,
       ProcessRequest Samples.sampleDatasourceNumber Samples.sampleDb Samples.alice
         (CreateSyncRequest_PlaylistMergeSync
            (Samples.mergeOf [Samples.workout; Samples.roadTrip]))
       = BadRequest err.
Proof.
  split; [vm_compute; reflexivity|].
  destruct (canonicalSourceKey_order_insensitive
              Samples.sampleDatasourceNumber Samples.sampleDb Samples.alice
              (Samples.mergeOf [Samples.workout; Samples.roadTrip])
              (Samples.mergeOf [Samples.roadTrip; Samples.workout])
              Samples.existingMerge [Samples.existingMerge])
    as (_ & _ & Hrejected).
  - apply Permutation_swap.
  - reflexivity.
  - reflexivity.
  - apply list_elem_of_singleton. reflexivity.
  - reflexivity.
  - exact Hrejected.
Defined.

(** C6: a request that lists one of the two sources of the existing merge
    sync twice has the same set of sources and the same destination, but
    another key: it is accepted. *)
Lemma duplicated_source_accepted :
  (forall source,
     source ∈ [Samples.roadTrip; Samples.roadTrip; Samples.workout]
     <-> source ∈ [Samples.roadTrip; Samples.workout])
  /\ canonicalSourceKey Samples.sampleDatasourceNumber
       [Samples.roadTrip; Samples.roadTrip; Samples.workout]
     = runes "1:road-trip|1:road-trip|2:workout"
  /\ validatePlaylistMergeSync Samples.sampleDatasourceNumber Samples.sampleDb Samples.alice
       (Samples.mergeOf [Samples.roadTrip; Samples.roadTrip; Samples.workout])
       [Samples.existingMerge] = None
  /\ ProcessRequest Samples.sampleDatasourceNumber Samples.sampleDb Samples.alice
       (CreateSyncRequest_PlaylistMergeSync
          (Samples.mergeOf [Samples.roadTrip; Samples.roadTrip; Samples.workout]))
     = OK {| GetId := runes "sync-2"; GetUserId := runes "user-1";
             GetSyncVariant :=
               Sync_PlaylistMergeSync
                 (Samples.mergeOf [Samples.roadTrip; Samples.roadTrip; Samples.workout]) |}.
Proof.
  split; [intros source; rewrite !elem_of_cons; tauto|].
  split; [vm_compute; reflexivity|].
  split; vm_compute; reflexivity.
Qed.

End CreateSyncFacts.

(** ** The handlers that start a run and stream its status *)

Module HandlerFacts.

Section RunSync.
Import RunSyncHandler.

Variable uuid_Parse : text -> option error.
Variable SyncStore_GetSync : text -> Sync + error.

(** X20.  CheckPerms of the RunSync handler passes exactly for a known
    user who asks, by a well-formed id, for a sync that exists and that
    this user owns; ProcessRequest then answers OK with the id of that
    sync and the status PENDING, without waiting for the run, and starts
    one run of that sync for that user. *)
Theorem CheckPerms_owner userInfo syncId :
  CheckPerms uuid_Parse SyncStore_GetSync userInfo syncId = None <->
  exists user sync,
    userInfo = Some user
    /\ syncId <> []
    /\ uuid_Parse syncId = None
    /\ SyncStore_GetSync syncId = inl sync
    /\ GetUserId sync = User_GetId user
    /\ ProcessRequest SyncStore_GetSync userInfo syncId =
       (OK {| RSR_SyncId := GetId sync; RSR_Status := SYNC_STATUS_PENDING;
              RSR_ErrorMessage := "Sync job has been queued." |},
        Some (Some user, sync)).
Proof.
  unfold CheckPerms, validateRequest, ProcessRequest. split.
  - destruct userInfo as [user|]; [|done].
    case_bool_decide as Hlen; [done|].
    destruct (uuid_Parse syncId) as [perr|]; [done|].
    destruct (SyncStore_GetSync syncId) as [sync|gerr]; [|done].
    case_bool_decide as Hown; [done|]. intros _.
    exists user, sync. split; [done|]. split; [by destruct syncId|].
    split; [done|]. split; [done|]. split; [|done].
    by destruct (decide (User_GetId user = GetUserId sync)).
  - intros (user & sync & -> & Hid & -> & -> & Hown & _).
    rewrite bool_decide_eq_false_2 by by destruct syncId.
    by rewrite bool_decide_eq_false_2 by (intros Hne; by apply Hne).
Qed.

End RunSync.

Section Stream.
Import SyncStatusStream.

Lemma mostRecentRun_from recent syncRuns :
  exists m pre post,
    fold_left
      (fun mostRecentRun run =>
         match mostRecentRun with
         | None => Some run
         | Some recent =>
             if (GetUpdatedAt recent <? GetUpdatedAt run)%nat then Some run else Some recent
         end) syncRuns (Some recent) = Some m
    /\ recent :: syncRuns = pre ++ m :: post
    /\ (forall run, run ∈ pre -> (GetUpdatedAt run < GetUpdatedAt m)%nat)
    /\ (forall run, run ∈ post -> (GetUpdatedAt run <= GetUpdatedAt m)%nat)
    /\ (GetUpdatedAt recent <= GetUpdatedAt m)%nat.
Proof.
  revert recent. induction syncRuns as [|run rest IH]; intros recent; cbn [fold_left].
  - exists recent, [], []. split; [done|]. split; [done|].
    split; [by intros ? ?%elem_of_nil|]. split; [by intros ? ?%elem_of_nil|done].
  - destruct (GetUpdatedAt recent <? GetUpdatedAt run)%nat eqn:Hlt.
    + apply Nat.ltb_lt in Hlt.
      destruct (IH run) as (m & pre & post & -> & Hsplit & Hpre & Hpost & Hle).
      exists m, (recent :: pre), post. split; [done|]. split; [by rewrite Hsplit|].
      split; [|split; [done|lia]].
      intros r [->|Hr]%elem_of_cons; [lia|by apply Hpre].
    + apply Nat.ltb_ge in Hlt.
      destruct (IH recent) as (m & pre & post & -> & Hsplit & Hpre & Hpost & Hle).
      exists m. destruct pre as [|p pre].
      * injection Hsplit as <- <-. exists [], (run :: rest).
        split; [done|]. split; [done|]. split; [by intros ? ?%elem_of_nil|].
        split; [|done]. intros r [->|Hr]%elem_of_cons; [done|by apply Hpost].
      * injection Hsplit as <- ->. exists (recent :: run :: pre), post.
        split; [done|]. split; [done|]. split; [|done].
        intros r [->|[->|Hr]%elem_of_cons]%elem_of_cons.
        -- apply Hpre. by left.
        -- assert (GetUpdatedAt recent < GetUpdatedAt m)%nat by (apply Hpre; by left). lia.
        -- apply Hpre. by right.
Qed.

(** X21.  The run the status stream sends first is the one updated
    last: there is none exactly when the sync has no run; otherwise it
    is one of the runs, every run before it in the list is strictly
    older and no run after it is newer. *)
Theorem mostRecentRun_latest syncRuns :
  (mostRecentRun syncRuns = None <-> syncRuns = [])
  /\ forall m, mostRecentRun syncRuns = Some m ->
       exists pre post,
         syncRuns = pre ++ m :: post
         /\ (forall run, run ∈ pre -> (GetUpdatedAt run < GetUpdatedAt m)%nat)
         /\ (forall run, run ∈ post -> (GetUpdatedAt run <= GetUpdatedAt m)%nat).
Proof.
  unfold mostRecentRun. destruct syncRuns as [|run rest]; cbn [fold_left].
  - split; [done|]. by intros m.
  - destruct (mostRecentRun_from run rest) as (m & pre & post & -> & Hsplit & Hpre & Hpost & _).
    split; [done|]. intros m' [= <-]. by exists pre, post.
Qed.

Variable uuid_Parse : text -> option error.
Variable SyncStore_GetSync : text -> Sync + error.
Variable SyncRunStore_GetSyncs : text -> list SyncRun + error.

(** X22.  The status stream is opened only for the owner of the sync:
    the handler gets past its checks exactly for a known user who asks,
    by a well-formed id, for a sync that exists and that this user owns,
    and whose runs can be read; what it then sends first is the run
    updated last, if the sync has a run.  In every other case it returns
    an error code and sends nothing. *)
Theorem SubscribeToSyncStatus_owner userInfo syncId first :
  SubscribeToSyncStatus_start uuid_Parse SyncStore_GetSync SyncRunStore_GetSyncs
    userInfo syncId = inr first
  <->
  exists user sync syncRuns,
    userInfo = Some user
    /\ syncId <> []
    /\ uuid_Parse syncId = None
    /\ SyncStore_GetSync syncId = inl sync
    /\ GetUserId sync = User_GetId user
    /\ SyncRunStore_GetSyncs syncId = inl syncRuns
    /\ first = mostRecentRun syncRuns.
Proof.
  unfold SubscribeToSyncStatus_start. split.
  - destruct userInfo as [user|]; [|done].
    case_bool_decide as Hlen; [done|].
    destruct (uuid_Parse syncId) as [perr|]; [done|].
    destruct (SyncStore_GetSync syncId) as [sync|gerr]; [|done].
    case_bool_decide as Hown; [done|].
    destruct (SyncRunStore_GetSyncs syncId) as [syncRuns|rerr]; [|done].
    intros [= <-]. exists user, sync, syncRuns.
    split; [done|]. split; [by destruct syncId|]. do 2 (split; [done|]).
    split; [|done]. by destruct (decide (User_GetId user = GetUserId sync)).
  - intros (user & sync & syncRuns & -> & Hid & -> & -> & Hown & -> & ->).
    rewrite bool_decide_eq_false_2 by by destruct syncId.
    by rewrite bool_decide_eq_false_2 by (intros Hne; by apply Hne).
Qed.

End Stream.

End HandlerFacts.
